(** * Contact search: lexer, parser, optimizer, property resolver and
      predicate compiler of [temba/contacts/search.py].

    The development is a shallow embedding.  Text is modelled by [string]
    over the ASCII alphabet (the regular expressions of the lexer are
    compiled with [re.UNICODE]; word characters outside ASCII are outside
    the modelled alphabet).  Exceptions are values of [exn]; a function that
    may raise returns [result]. *)

From Stdlib Require Import String Ascii List ZArith Bool Arith Lia Permutation.
From Stdlib Require QArith.
Import ListNotations.

Open Scope list_scope.
Open Scope string_scope.

#[local] Set Warnings "-register-all".

(* ------------------------------------------------------------------ *)
(** ** Python values the module relies on *)

Module Py.

(** [unicode.lower] restricted to ASCII: the letters A to Z are mapped,
    every other character is left as it is.  On a text with letters
    outside ASCII the function of Python maps more. *)
Definition lower_char (c : ascii) : ascii :=
  let n := nat_of_ascii c in
  if andb (65 <=? n)%nat (n <=? 90)%nat then ascii_of_nat (n + 32) else c.

Fixpoint lower (s : string) : string :=
  match s with
  | EmptyString => EmptyString
  | String c r => String (lower_char c) (lower r)
  end.

Fixpoint startswith (s pre : string) : bool :=
  match pre, s with
  | EmptyString, _ => true
  | String p pre', String c s' => andb (Ascii.eqb p c) (startswith s' pre')
  | String _ _, EmptyString => false
  end.

(** [needle in hay] *)
Fixpoint contains (hay needle : string) : bool :=
  orb (startswith hay needle)
      match hay with
      | EmptyString => false
      | String _ r => contains r needle
      end.

(** [sep.join(items)] *)
Definition join (sep : string) (items : list string) : string :=
  String.concat sep items.

(** membership of a string in a tuple of strings *)
Definition str_in (x : string) (xs : list string) : bool :=
  existsb (String.eqb x) xs.

End Py.

(** Exceptions that cross the module's functions. *)
Inductive exn : Type :=
| SearchException (message : string)
| KeyError (key : string)
| ValueError (message : string)
| TypeError (message : string)
| AttributeError (message : string).

Definition result (A : Type) : Type := (exn + A)%type.

Definition ret {A} (a : A) : result A := inr a.
Definition raise {A} (e : exn) : result A := inl e.
Definition bind {A B} (m : result A) (k : A -> result B) : result B :=
  match m with
  | inl e => inl e
  | inr a => k a
  end.

Notation "x <- m ;; k" := (bind m (fun x => k))
  (at level 61, m at next level, right associativity).

(** A list comprehension whose body may raise: the first exception, in
    iteration order, propagates. *)
Fixpoint mapM {A B} (f : A -> result B) (l : list A) : result (list B) :=
  match l with
  | [] => ret []
  | a :: r => b <- f a ;; bs <- mapM f r ;; ret (b :: bs)
  end.

(* ------------------------------------------------------------------ *)
(** ** Query nodes *)

(** [BoolCombination.AND] and [BoolCombination.OR] ([operator.and_],
    [operator.or_]). *)
Inductive BoolOp : Type := AND | OR.

Definition BoolOp_eqb (a b : BoolOp) : bool :=
  match a, b with
  | AND, AND | OR, OR => true
  | _, _ => false
  end.

(** The three classes of node.  [SinglePropCombination] is a subclass of
    [BoolCombination]: it has [op] and [children] too. *)
Inductive QueryNode : Type :=
| Condition (prop comparator value : string)
| BoolCombination (op : BoolOp) (children : list QueryNode)
| SinglePropCombination (prop : string) (op : BoolOp) (children : list QueryNode).

(** [Condition.IMPLICIT_PROP] *)
Definition IMPLICIT_PROP : string := "*".

(** [Condition.COMPARATOR_ALIASES] *)
Definition COMPARATOR_ALIASES : list (string * string) :=
  [("is", "="); ("has", "~")].

Fixpoint dict_get {V} (d : list (string * V)) (k : string) : option V :=
  match d with
  | [] => None
  | (k', v) :: r => if String.eqb k k' then Some v else dict_get r k
  end.

(** [Condition.__init__]: the stored comparator is the alias's target when
    the comparator is a key of [COMPARATOR_ALIASES], the comparator itself
    otherwise. *)
Definition Condition_init (prop comparator value : string) : QueryNode :=
  Condition prop
            match dict_get COMPARATOR_ALIASES comparator with
            | Some c => c
            | None => comparator
            end
            value.

(** The assertion of [SinglePropCombination.__init__]. *)
Definition SinglePropCombination_assert (prop : string) (children : list QueryNode) : bool :=
  forallb (fun c => match c with
                    | Condition p _ _ => String.eqb p prop
                    | _ => false
                    end) children.

Definition isinstance_Condition (n : QueryNode) : bool :=
  match n with Condition _ _ _ => true | _ => false end.

(** [isinstance(n, BoolCombination)], which holds of both combination
    classes. *)
Definition isinstance_BoolCombination (n : QueryNode) : bool :=
  match n with Condition _ _ _ => false | _ => true end.

Definition node_op (n : QueryNode) : option BoolOp :=
  match n with
  | Condition _ _ _ => None
  | BoolCombination op _ | SinglePropCombination _ op _ => Some op
  end.

Definition node_children (n : QueryNode) : list QueryNode :=
  match n with
  | Condition _ _ _ => []
  | BoolCombination _ cs | SinglePropCombination _ _ cs => cs
  end.

(** [get_prop_names] *)
Fixpoint get_prop_names (n : QueryNode) : list string :=
  match n with
  | Condition prop _ _ => [prop]
  | BoolCombination _ children
  | SinglePropCombination _ _ children => flat_map get_prop_names children
  end.

(** *** [BoolCombination.simplify] *)

(** The [for child in self.children] loop of [simplify]; [None] is the
    early [return self]. *)
Fixpoint simplify_loop (op : BoolOp) (children simplified : list QueryNode)
  : option (list QueryNode) :=
  match children with
  | [] => Some simplified
  | child :: rest =>
      match child with
      | Condition _ _ _ => simplify_loop op rest (simplified ++ [child])%list
      | BoolCombination cop cs
      | SinglePropCombination _ cop cs =>
          if negb (BoolOp_eqb cop op) then None
          else simplify_loop op rest (simplified ++ cs)%list
      end
  end.

(** The value returned by [simplify]. *)
Fixpoint simplify (self : QueryNode) : QueryNode :=
  match self with
  | Condition _ _ _ => self
  | BoolCombination op children =>
      let children := map simplify children in
      match simplify_loop op children [] with
      | None => BoolCombination op children
      | Some simplified => BoolCombination op simplified
      end
  | SinglePropCombination prop op children =>
      let children := map simplify children in
      match simplify_loop op children [] with
      | None => SinglePropCombination prop op children
      | Some simplified => BoolCombination op simplified
      end
  end.

(** *** [BoolCombination.split_by_prop] *)

(** Keys of [children_by_prop]: a property name, or Python's [None]. *)
Definition key_eqb (a b : option string) : bool :=
  match a, b with
  | None, None => true
  | Some x, Some y => String.eqb x y
  | _, _ => false
  end.

Definition child_prop (child : QueryNode) : option string :=
  match child with
  | Condition prop _ _ => Some prop
  | _ => None
  end.

(** An [OrderedDict] from keys to lists of children: association list in
    insertion order. *)
Definition OrderedDict : Type := list (option string * list QueryNode).

(** [if prop not in d: d[prop] = []] followed by [d[prop].append(child)] *)
Fixpoint od_append (d : OrderedDict) (prop : option string) (child : QueryNode)
  : OrderedDict :=
  match d with
  | [] => [(prop, [child])]
  | (k, cs) :: rest =>
      if key_eqb prop k then (k, (cs ++ [child])%list) :: rest
      else (k, cs) :: od_append rest prop child
  end.

Definition children_by_prop (children : list QueryNode) : OrderedDict :=
  fold_left (fun d child => od_append d (child_prop child) child) children [].

(** The second loop of [split_by_prop]. *)
Definition new_children (op : BoolOp) (d : OrderedDict) : list QueryNode :=
  flat_map (fun entry : option string * list QueryNode =>
              let (prop, children) := entry in
              match prop with
              | Some p =>
                  if (1 <? List.length children)%nat
                  then [SinglePropCombination p op children]
                  else children
              | None => children
              end) d.

Definition split_node (op : BoolOp) (children : list QueryNode) : QueryNode :=
  match new_children op (children_by_prop children) with
  | [only] => only
  | nc => BoolCombination op nc
  end.

(** The value returned by [split_by_prop] ([SinglePropCombination]
    inherits the method). *)
Fixpoint split_by_prop (self : QueryNode) : QueryNode :=
  match self with
  | Condition _ _ _ => self
  | BoolCombination op children
  | SinglePropCombination _ op children =>
      split_node op (map split_by_prop children)
  end.

(** [ContactQuery.optimized], on the root. *)
Definition optimized (root : QueryNode) : QueryNode :=
  split_by_prop (simplify root).

(** *** [__eq__] and [__str__] *)

Fixpoint list_eqb {A} (eqb : A -> A -> bool) (l1 l2 : list A) : bool :=
  match l1, l2 with
  | [], [] => true
  | a :: r1, b :: r2 => andb (eqb a b) (list_eqb eqb r1 r2)
  | _, _ => false
  end.

(** [self.__eq__(other)].  [BoolCombination.__eq__] accepts any instance of
    [BoolCombination] as [other]; [SinglePropCombination.__eq__] requires
    a [SinglePropCombination].  The lists of children are compared with
    [==], element by element: for a [BoolCombination] on the left and a
    [SinglePropCombination] on the right, Python calls the method of the
    right operand first, its class being a subclass that overrides
    [__eq__], and that method answers [False]. *)
Fixpoint node_eq (self other : QueryNode) : bool :=
  match self with
  | Condition p c v =>
      match other with
      | Condition p' c' v' => andb (andb (String.eqb p p') (String.eqb c c')) (String.eqb v v')
      | _ => false
      end
  | BoolCombination op cs =>
      match other with
      | BoolCombination op' cs'
      | SinglePropCombination _ op' cs' =>
          andb (BoolOp_eqb op op')
               ((fix go (l1 l2 : list QueryNode) : bool :=
                   match l1, l2 with
                   | [], [] => true
                   | a :: r1, b :: r2 =>
                       andb match a, b with
                            | BoolCombination _ _, SinglePropCombination _ _ _ => false
                            | _, _ => node_eq a b
                            end
                            (go r1 r2)
                   | _, _ => false
                   end) cs cs')
      | _ => false
      end
  | SinglePropCombination p op cs =>
      match other with
      | SinglePropCombination p' op' cs' =>
          andb (String.eqb p p')
               (andb (BoolOp_eqb op op')
                     ((fix go (l1 l2 : list QueryNode) : bool :=
                         match l1, l2 with
                         | [], [] => true
                         | a :: r1, b :: r2 =>
                             andb match a, b with
                                  | BoolCombination _ _, SinglePropCombination _ _ _ => false
                                  | _, _ => node_eq a b
                                  end
                                  (go r1 r2)
                         | _, _ => false
                         end) cs cs'))
      | _ => false
      end
  end.

(** [a == b]: the reflected [b.__eq__(a)] when [b] is a
    [SinglePropCombination] and [a] a [BoolCombination] that is not one,
    [a.__eq__(b)] otherwise. *)
Definition eq_op (a b : QueryNode) : bool :=
  match a, b with
  | BoolCombination _ _, SinglePropCombination _ _ _ => node_eq b a
  | _, _ => node_eq a b
  end.

(** [ContactQuery.__eq__], on the roots of two queries. *)
Definition ContactQuery_eq (root other_root : QueryNode) : bool := eq_op root other_root.

Definition op_name (op : BoolOp) : string :=
  match op with OR => "OR" | AND => "AND" end.

(** ['%s %s' % (c.comparator, c.value)] for a child of a
    [SinglePropCombination]; only a [Condition] has the two attributes. *)
Definition child_cmp_value (c : QueryNode) : result string :=
  match c with
  | Condition _ comparator value => ret (comparator ++ " " ++ value)
  | _ => raise (AttributeError "comparator")
  end.

(** [six.text_type(node)] *)
Fixpoint str (n : QueryNode) : result string :=
  match n with
  | Condition prop comparator value => ret (prop ++ comparator ++ value)
  | BoolCombination op children =>
      parts <- (fix go (l : list QueryNode) : result (list string) :=
                  match l with
                  | [] => ret []
                  | c :: r => s <- str c ;; ss <- go r ;; ret (s :: ss)
                  end) children ;;
      ret (op_name op ++ "(" ++ Py.join ", " parts ++ ")")
  | SinglePropCombination prop op children =>
      parts <- mapM child_cmp_value children ;;
      ret (op_name op ++ "[" ++ prop ++ "](" ++ Py.join ", " parts ++ ")")
  end.

(* ------------------------------------------------------------------ *)
(** ** Lexer *)

Module SearchLexer.

(** [tokens] *)
Inductive TokenType : Type :=
| T_AND | T_OR | COMPARATOR | TEXT | STRING | LPAREN | RPAREN.

Record LexToken : Type := { type : TokenType; value : string }.

(** [reserved] *)
Definition reserved : list (string * TokenType) :=
  [("and", T_AND); ("or", T_OR); ("has", COMPARATOR); ("is", COMPARATOR)].

(** *** Regular expressions

    A matcher tries to match at the start of the text and gives the
    matched text and the remaining text.  Alternatives are tried from left
    to right and the first that matches is taken, as Python's [re] does. *)
Definition matcher : Type := string -> option (string * string).

Definition cls (p : ascii -> bool) : matcher := fun s =>
  match s with
  | String c r => if p c then Some (String c EmptyString, r) else None
  | EmptyString => None
  end.

Definition lit (c : ascii) : matcher := cls (Ascii.eqb c).

Definition alt (a b : matcher) : matcher := fun s =>
  match a s with
  | Some m => Some m
  | None => b s
  end.

Definition seq (a b : matcher) : matcher := fun s =>
  match a s with
  | Some (m1, r1) =>
      match b r1 with
      | Some (m2, r2) => Some (m1 ++ m2, r2)
      | None => None
      end
  | None => None
  end.

(** [x?], greedy *)
Definition opt (a : matcher) : matcher := fun s =>
  match a s with
  | Some m => Some m
  | None => Some (EmptyString, s)
  end.

(** [[...]*], greedy, on a character class *)
Fixpoint star_cls (p : ascii -> bool) (s : string) : string * string :=
  match s with
  | String c r =>
      if p c then let (m, r') := star_cls p r in (String c m, r')
      else (EmptyString, s)
  | EmptyString => (EmptyString, EmptyString)
  end.

Definition star (p : ascii -> bool) : matcher := fun s => Some (star_cls p s).

Definition plus (p : ascii -> bool) : matcher := seq (cls p) (star p).

Definition between (lo hi : nat) (c : ascii) : bool :=
  let n := nat_of_ascii c in andb (lo <=? n)%nat (n <=? hi)%nat.

(** [\w] on ASCII: letters, digits and the underscore.  The lexer is
    compiled with [re.UNICODE], under which [\w] has the letters and
    digits outside ASCII too; on ASCII text the two agree. *)
Definition is_word (c : ascii) : bool :=
  orb (between 48 57 c) (orb (between 65 90 c) (orb (between 97 122 c) (Ascii.eqb c "_"))).

(** [[\w_\.\+\-\/]] *)
Definition is_text_char (c : ascii) : bool :=
  orb (is_word c)
      (orb (Ascii.eqb c "_")
           (orb (Ascii.eqb c ".") (orb (Ascii.eqb c "+") (orb (Ascii.eqb c "-") (Ascii.eqb c "/"))))).

Definition is_lt_gt (c : ascii) : bool := orb (Ascii.eqb c "<") (Ascii.eqb c ">").

(** the double quote character *)
Definition dquote : ascii := ascii_of_nat 34.

Definition is_not_quote (c : ascii) : bool := negb (Ascii.eqb c dquote).

(** [t_COMPARATOR]: [(?i)~|=|[<>]=?|~~?] *)
Definition re_COMPARATOR : matcher :=
  alt (lit "~")
      (alt (lit "=")
           (alt (seq (cls is_lt_gt) (opt (lit "=")))
                (seq (lit "~") (opt (lit "~"))))).

(** [t_STRING]: a double quote, any run of other characters, a double
    quote *)
Definition re_STRING : matcher :=
  seq (lit dquote) (seq (star is_not_quote) (lit dquote)).

(** [t_TEXT]: [[\w_\.\+\-\/]+] *)
Definition re_TEXT : matcher := plus is_text_char.

(** [t_LPAREN], [t_RPAREN] *)
Definition re_LPAREN : matcher := lit "(".
Definition re_RPAREN : matcher := lit ")".

(** [t_ignore]: space and tab *)
Definition is_ignore (c : ascii) : bool :=
  orb (Ascii.eqb c " ") (Ascii.eqb c (ascii_of_nat 9)).

Fixpoint skip_ignore (s : string) : string :=
  match s with
  | String c r => if is_ignore c then skip_ignore r else s
  | EmptyString => s
  end.

(** [s[:-1]] *)
Fixpoint drop_last (s : string) : string :=
  match s with
  | EmptyString => EmptyString
  | String c EmptyString => EmptyString
  | String c r => String c (drop_last r)
  end.

(** [t.value[1:-1]] *)
Definition strip_quotes (s : string) : string :=
  match s with
  | EmptyString => EmptyString
  | String _ r => drop_last r
  end.

(** The functions attached to the rules. *)
Definition t_COMPARATOR (m : string) : LexToken :=
  {| type := COMPARATOR; value := m |}.

Definition t_STRING (m : string) : LexToken :=
  {| type := STRING; value := strip_quotes m |}.

Definition t_TEXT (m : string) : LexToken :=
  {| type := match dict_get reserved (Py.lower m) with
             | Some t => t
             | None => TEXT
             end;
     value := m |}.

(** [t_error] *)
Definition t_error (s : string) : exn :=
  SearchException ("Invalid character " ++
                   match s with
                   | String c _ => String c EmptyString
                   | EmptyString => EmptyString
                   end).

(** [token()]: the next token and the text after it, [None] at the end of
    the text.  The rules defined by functions are tried in the order of
    their definition, then the rules defined by strings. *)
Definition token (s : string) : result (option (LexToken * string)) :=
  let s := skip_ignore s in
  match s with
  | EmptyString => ret None
  | String _ _ =>
      match re_COMPARATOR s with
      | Some (m, r) => ret (Some (t_COMPARATOR m, r))
      | None =>
      match re_STRING s with
      | Some (m, r) => ret (Some (t_STRING m, r))
      | None =>
      match re_TEXT s with
      | Some (m, r) => ret (Some (t_TEXT m, r))
      | None =>
      match re_LPAREN s with
      | Some (m, r) => ret (Some ({| type := LPAREN; value := m |}, r))
      | None =>
      match re_RPAREN s with
      | Some (m, r) => ret (Some ({| type := RPAREN; value := m |}, r))
      | None => raise (t_error s)
      end end end end end
  end.

(** The stream of tokens the parser pulls: the tokens up to the end of
    the text or up to the first character that no rule matches, with the
    exception raised there.  [None] when the fuel runs out. *)
Fixpoint tokens_from (fuel : nat) (s : string) : option (list LexToken * option exn) :=
  match fuel with
  | O => None
  | S fuel =>
      match token s with
      | inl e => Some ([], Some e)
      | inr None => Some ([], None)
      | inr (Some (t, r)) =>
          match tokens_from fuel r with
          | Some (ts, e) => Some (t :: ts, e)
          | None => None
          end
      end
  end.

Definition tokenize (s : string) : option (list LexToken * option exn) :=
  tokens_from (S (String.length s)) s.

End SearchLexer.

Import SearchLexer.

(* ------------------------------------------------------------------ *)
(** ** Parser

    [yacc.yacc] builds an LALR(1) automaton from the grammar rules
    [p_expression_and] ... [p_literal] and resolves its shift/reduce
    conflicts with [precedence].  The automaton is written out below: a
    state per set of items, the conflicts left to [resolve]. *)

Module SearchParser.

(** The productions, in the order of the source. *)
Inductive Production : Type :=
| p_expression_and          (* expression : expression AND expression *)
| p_expression_or           (* expression : expression OR expression *)
| p_expression_implicit_and (* expression : expression expression %prec AND *)
| p_expression_grouping     (* expression : LPAREN expression RPAREN *)
| p_condition               (* expression : TEXT COMPARATOR literal *)
| p_condition_implicit      (* expression : TEXT *)
| p_literal_TEXT            (* literal : TEXT *)
| p_literal_STRING.         (* literal : STRING *)

Inductive Assoc : Type := assoc_left | assoc_right | assoc_nonassoc.

(** [precedence]: a level per listed token, from 1; a token that is not
    listed has [('right', 0)]. *)
Definition token_prec (t : TokenType) : Assoc * nat :=
  match t with
  | T_OR => (assoc_left, 1)
  | T_AND => (assoc_left, 2)
  | _ => (assoc_right, 0)
  end.

(** The precedence of a production is that of its [%prec] token, else
    that of its rightmost terminal. *)
Definition production_prec (p : Production) : Assoc * nat :=
  match p with
  | p_expression_and => token_prec T_AND
  | p_expression_or => token_prec T_OR
  | p_expression_implicit_and => token_prec T_AND
  | p_expression_grouping => token_prec RPAREN
  | p_condition => token_prec COMPARATOR
  | p_condition_implicit => token_prec TEXT
  | p_literal_TEXT => token_prec TEXT
  | p_literal_STRING => token_prec STRING
  end.

(** The states: the item sets of the grammar, named by their kernels. *)
Inductive State : Type :=
| St_start                 (* S' : . expression *)
| St_expr                  (* S' : expression .   and   expression : expression . ... *)
| St_lparen                (* expression : LPAREN . expression RPAREN *)
| St_text                  (* expression : TEXT .   and   expression : TEXT . COMPARATOR literal *)
| St_and                   (* expression : expression AND . expression *)
| St_or                    (* expression : expression OR . expression *)
| St_expr_expr             (* expression : expression expression .   and  expression : expression . ... *)
| St_lparen_expr           (* expression : LPAREN expression . RPAREN  and  expression : expression . ... *)
| St_comparator            (* expression : TEXT COMPARATOR . literal *)
| St_and_expr              (* expression : expression AND expression .  and  expression : expression . ... *)
| St_or_expr               (* expression : expression OR expression .  and  expression : expression . ... *)
| St_rparen                (* expression : LPAREN expression RPAREN . *)
| St_literal               (* expression : TEXT COMPARATOR literal . *)
| St_lit_text              (* literal : TEXT . *)
| St_lit_string.           (* literal : STRING . *)

Inductive Action : Type :=
| Shift (s : State)
| Reduce (p : Production)
| Accept
| Error.

(** A shift/reduce conflict on token [t] between shifting to [s] and
    reducing by [p]: reduce when the production's level is higher, or the
    levels are equal and the production is left-associative; no action
    when the levels are equal and the production is non-associative; shift
    otherwise. *)
Definition resolve (t : TokenType) (s : State) (p : Production) : Action :=
  let (_, slevel) := token_prec t in
  let (rprec, rlevel) := production_prec p in
  if orb (slevel <? rlevel)%nat
         (andb (slevel =? rlevel)%nat match rprec with assoc_left => true | _ => false end)
  then Reduce p
  else if andb (slevel =? rlevel)%nat match rprec with assoc_nonassoc => true | _ => false end
  then Error
  else Shift s.

(** The shift on a token that starts or continues an expression, in the
    states with an item [expression : expression . ...]. *)
Definition shift_in_expr (t : TokenType) : option State :=
  match t with
  | T_AND => Some St_and
  | T_OR => Some St_or
  | TEXT => Some St_text
  | LPAREN => Some St_lparen
  | _ => None
  end.

(** A state with a complete production [p] and the items
    [expression : expression . ...]; [RPAREN] and the end of the input
    only reduce. *)
Definition conflict_action (p : Production) (la : option TokenType) : Action :=
  match la with
  | None => Reduce p
  | Some RPAREN => Reduce p
  | Some t =>
      match shift_in_expr t with
      | Some s => resolve t s p
      | None => Error
      end
  end.

(** The action of a state on a lookahead; [None] is the end of the
    input. *)
Definition action (st : State) (la : option TokenType) : Action :=
  match st with
  | St_start | St_lparen | St_and | St_or =>
      match la with
      | Some TEXT => Shift St_text
      | Some LPAREN => Shift St_lparen
      | _ => Error
      end
  | St_expr =>
      match la with
      | None => Accept
      | Some t => match shift_in_expr t with Some s => Shift s | None => Error end
      end
  | St_text =>
      match la with
      | Some COMPARATOR => Shift St_comparator
      | Some STRING => Error
      | _ => Reduce p_condition_implicit
      end
  | St_expr_expr => conflict_action p_expression_implicit_and la
  | St_and_expr => conflict_action p_expression_and la
  | St_or_expr => conflict_action p_expression_or la
  | St_lparen_expr =>
      match la with
      | Some RPAREN => Shift St_rparen
      | Some t => match shift_in_expr t with Some s => Shift s | None => Error end
      | None => Error
      end
  | St_comparator =>
      match la with
      | Some TEXT => Shift St_lit_text
      | Some STRING => Shift St_lit_string
      | _ => Error
      end
  | St_rparen => Reduce p_expression_grouping
  | St_literal => Reduce p_condition
  | St_lit_text => Reduce p_literal_TEXT
  | St_lit_string => Reduce p_literal_STRING
  end.

(** The states whose only action is one reduction: it is taken without
    asking the lexer for the lookahead. *)
Definition defaulted (st : State) : option Production :=
  match st with
  | St_rparen => Some p_expression_grouping
  | St_literal => Some p_condition
  | St_lit_text => Some p_literal_TEXT
  | St_lit_string => Some p_literal_STRING
  | _ => None
  end.

(** Transitions on the nonterminals. *)
Definition goto_expression (st : State) : option State :=
  match st with
  | St_start => Some St_expr
  | St_lparen => Some St_lparen_expr
  | St_and => Some St_and_expr
  | St_or => Some St_or_expr
  | St_expr | St_expr_expr | St_lparen_expr | St_and_expr | St_or_expr => Some St_expr_expr
  | _ => None
  end.

Definition goto_literal (st : State) : option State :=
  match st with
  | St_comparator => Some St_literal
  | _ => None
  end.

(** Values on the parser's stack. *)
Inductive SymValue : Type :=
| V_token (v : string)
| V_expression (n : QueryNode)
| V_literal (v : string).

(** The stack: the states entered, innermost last, each with the value of
    the symbol that led to it; the start state is below all of them. *)
Definition Stack : Type := list (State * SymValue).

Definition top_state (stk : Stack) : State :=
  match stk with
  | (s, _) :: _ => s
  | [] => St_start
  end.

Definition push_expression (stk : Stack) (n : QueryNode) : option Stack :=
  match goto_expression (top_state stk) with
  | Some s => Some ((s, V_expression n) :: stk)
  | None => None
  end.

Definition push_literal (stk : Stack) (v : string) : option Stack :=
  match goto_literal (top_state stk) with
  | Some s => Some ((s, V_literal v) :: stk)
  | None => None
  end.

(** A reduction: the production's function runs on the values popped
    from the stack. *)
Definition reduce_production (p : Production) (stk : Stack) : option Stack :=
  match p, stk with
  | p_expression_and, (_, V_expression p3) :: (_, V_token _) :: (_, V_expression p1) :: stk' =>
      push_expression stk' (BoolCombination AND [p1; p3])
  | p_expression_or, (_, V_expression p3) :: (_, V_token _) :: (_, V_expression p1) :: stk' =>
      push_expression stk' (BoolCombination OR [p1; p3])
  | p_expression_implicit_and, (_, V_expression p2) :: (_, V_expression p1) :: stk' =>
      push_expression stk' (BoolCombination AND [p1; p2])
  | p_expression_grouping, (_, V_token _) :: (_, V_expression p2) :: (_, V_token _) :: stk' =>
      push_expression stk' p2
  | p_condition, (_, V_literal p3) :: (_, V_token p2) :: (_, V_token p1) :: stk' =>
      push_expression stk' (Condition_init (Py.lower p1) (Py.lower p2) p3)
  | p_condition_implicit, (_, V_token p1) :: stk' =>
      push_expression stk' (Condition_init IMPLICIT_PROP "=" p1)
  | p_literal_TEXT, (_, V_token p1) :: stk' => push_literal stk' p1
  | p_literal_STRING, (_, V_token p1) :: stk' => push_literal stk' p1
  | _, _ => None
  end.

(** [p_error] *)
Definition p_error (p : option LexToken) : exn :=
  match p with
  | Some t => SearchException ("Syntax error at '" ++ value t ++ "'")
  | None => SearchException "Syntax error"
  end.

(** The parsing loop.  [toks] are the tokens not yet read and [lexerr] the
    exception the lexer raises after them, if any.  [None] when the fuel
    runs out or the stack does not fit the production reduced. *)
Fixpoint run (fuel : nat) (stk : Stack) (toks : list LexToken) (lexerr : option exn)
  : option (result QueryNode) :=
  match fuel with
  | O => None
  | S fuel =>
      match defaulted (top_state stk) with
      | Some p =>
          match reduce_production p stk with
          | Some stk' => run fuel stk' toks lexerr
          | None => None
          end
      | None =>
          match toks, lexerr with
          | [], Some e => Some (raise e)
          | _, _ =>
              let la := match toks with t :: _ => Some t | [] => None end in
              match action (top_state stk) (option_map type la) with
              | Shift s =>
                  match toks with
                  | t :: toks' => run fuel ((s, V_token (value t)) :: stk) toks' lexerr
                  | [] => None
                  end
              | Reduce p =>
                  match reduce_production p stk with
                  | Some stk' => run fuel stk' toks lexerr
                  | None => None
                  end
              | Accept =>
                  match stk with
                  | (_, V_expression n) :: _ => Some (ret n)
                  | _ => None
                  end
              | Error => Some (raise (p_error la))
              end
          end
      end
  end.

(** [search_parser.parse] on a token stream: every step either reads a
    token or shrinks the stack's weight, so three steps per token and one
    more are enough. *)
Definition parse_tokens (toks : list LexToken) (lexerr : option exn) : option (result QueryNode) :=
  run (3 * List.length toks + 2) [] toks lexerr.

(** [search_parser.parse(text, lexer=search_lexer)] *)
Definition parse (text : string) : option (result QueryNode) :=
  match tokenize text with
  | Some (toks, lexerr) => parse_tokens toks lexerr
  | None => None
  end.

End SearchParser.

Import SearchParser.

(* ------------------------------------------------------------------ *)
(** ** The grammar behind the automaton

    The productions as data, the LR(0) item sets computed from them, and
    the table they give when a lookahead reduces a complete production if
    it can follow the production's left-hand side and conflicts go to
    [resolve].  [automaton_of_grammar] compares the table with [action],
    [goto_expression] and [goto_literal]. *)

Module Grammar.

Inductive Symbol : Type :=
| Tok (t : TokenType)
| expression
| literal.

(** The right-hand sides, from the docstrings of the [p_] functions. *)
Definition rhs (p : Production) : list Symbol :=
  match p with
  | p_expression_and => [expression; Tok T_AND; expression]
  | p_expression_or => [expression; Tok T_OR; expression]
  | p_expression_implicit_and => [expression; expression]
  | p_expression_grouping => [Tok LPAREN; expression; Tok RPAREN]
  | p_condition => [Tok TEXT; Tok COMPARATOR; literal]
  | p_condition_implicit => [Tok TEXT]
  | p_literal_TEXT => [Tok TEXT]
  | p_literal_STRING => [Tok STRING]
  end.

Definition lhs (p : Production) : Symbol :=
  match p with
  | p_literal_TEXT | p_literal_STRING => literal
  | _ => expression
  end.

(** [%prec] *)
Definition prec_token (p : Production) : option TokenType :=
  match p with
  | p_expression_implicit_and => Some T_AND
  | _ => None
  end.

Definition productions : list Production :=
  [p_expression_and; p_expression_or; p_expression_implicit_and; p_expression_grouping;
   p_condition; p_condition_implicit; p_literal_TEXT; p_literal_STRING].

Definition token_types : list TokenType :=
  [T_AND; T_OR; COMPARATOR; TEXT; STRING; LPAREN; RPAREN].

Definition states : list State :=
  [St_start; St_expr; St_lparen; St_text; St_and; St_or; St_expr_expr; St_lparen_expr;
   St_comparator; St_and_expr; St_or_expr; St_rparen; St_literal; St_lit_text; St_lit_string].

Definition TokenType_eqb (a b : TokenType) : bool :=
  match a, b with
  | T_AND, T_AND | T_OR, T_OR | COMPARATOR, COMPARATOR | TEXT, TEXT
  | STRING, STRING | LPAREN, LPAREN | RPAREN, RPAREN => true
  | _, _ => false
  end.

Definition Symbol_eqb (a b : Symbol) : bool :=
  match a, b with
  | Tok x, Tok y => TokenType_eqb x y
  | expression, expression | literal, literal => true
  | _, _ => false
  end.

Definition Production_eqb (a b : Production) : bool :=
  match a, b with
  | p_expression_and, p_expression_and | p_expression_or, p_expression_or
  | p_expression_implicit_and, p_expression_implicit_and
  | p_expression_grouping, p_expression_grouping
  | p_condition, p_condition | p_condition_implicit, p_condition_implicit
  | p_literal_TEXT, p_literal_TEXT | p_literal_STRING, p_literal_STRING => true
  | _, _ => false
  end.

Definition State_eqb (a b : State) : bool :=
  match a, b with
  | St_start, St_start | St_expr, St_expr | St_lparen, St_lparen | St_text, St_text
  | St_and, St_and | St_or, St_or | St_expr_expr, St_expr_expr
  | St_lparen_expr, St_lparen_expr | St_comparator, St_comparator
  | St_and_expr, St_and_expr | St_or_expr, St_or_expr | St_rparen, St_rparen
  | St_literal, St_literal | St_lit_text, St_lit_text | St_lit_string, St_lit_string => true
  | _, _ => false
  end.

Definition Action_eqb (a b : Action) : bool :=
  match a, b with
  | Shift s, Shift s' => State_eqb s s'
  | Reduce p, Reduce p' => Production_eqb p p'
  | Accept, Accept | Error, Error => true
  | _, _ => false
  end.

(** An item: a production, or [None] for the start production
    [S' : expression], and the position of the dot. *)
Definition Item : Type := (option Production * nat)%type.

Definition item_rhs (i : Item) : list Symbol :=
  match fst i with
  | None => [expression]
  | Some p => rhs p
  end.

Definition next_symbol (i : Item) : option Symbol := nth_error (item_rhs i) (snd i).

Definition advance (i : Item) : Item := (fst i, S (snd i)).

Definition Item_eqb (a b : Item) : bool :=
  andb match fst a, fst b with
       | None, None => true
       | Some p, Some q => Production_eqb p q
       | _, _ => false
       end
       (Nat.eqb (snd a) (snd b)).

Definition add_item (items : list Item) (i : Item) : list Item :=
  if existsb (Item_eqb i) items then items else (items ++ [i])%list.

(** The items [X : . rhs] for the symbols [X] right after a dot. *)
Definition closure_step (items : list Item) : list Item :=
  fold_left
    (fun acc i =>
       match next_symbol i with
       | Some X =>
           fold_left (fun acc p => if Symbol_eqb (lhs p) X then add_item acc (Some p, 0) else acc)
                     productions acc
       | None => acc
       end)
    items items.

(** Two nonterminals: the closure is reached in two steps; a third changes
    nothing. *)
Definition closure (items : list Item) : list Item :=
  closure_step (closure_step (closure_step items)).

Definition goto_items (items : list Item) (X : Symbol) : list Item :=
  map advance
      (filter (fun i => match next_symbol i with
                        | Some Y => Symbol_eqb X Y
                        | None => false
                        end)
              (closure items)).

(** The kernel of each state. *)
Definition kernel (s : State) : list Item :=
  match s with
  | St_start => [(None, 0)]
  | St_expr =>
      [(None, 1); (Some p_expression_and, 1); (Some p_expression_or, 1);
       (Some p_expression_implicit_and, 1)]
  | St_lparen => [(Some p_expression_grouping, 1)]
  | St_text => [(Some p_condition, 1); (Some p_condition_implicit, 1)]
  | St_and => [(Some p_expression_and, 2)]
  | St_or => [(Some p_expression_or, 2)]
  | St_expr_expr =>
      [(Some p_expression_implicit_and, 2); (Some p_expression_and, 1);
       (Some p_expression_or, 1); (Some p_expression_implicit_and, 1)]
  | St_lparen_expr =>
      [(Some p_expression_grouping, 2); (Some p_expression_and, 1);
       (Some p_expression_or, 1); (Some p_expression_implicit_and, 1)]
  | St_comparator => [(Some p_condition, 2)]
  | St_and_expr =>
      [(Some p_expression_and, 3); (Some p_expression_and, 1);
       (Some p_expression_or, 1); (Some p_expression_implicit_and, 1)]
  | St_or_expr =>
      [(Some p_expression_or, 3); (Some p_expression_and, 1);
       (Some p_expression_or, 1); (Some p_expression_implicit_and, 1)]
  | St_rparen => [(Some p_expression_grouping, 3)]
  | St_literal => [(Some p_condition, 3)]
  | St_lit_text => [(Some p_literal_TEXT, 1)]
  | St_lit_string => [(Some p_literal_STRING, 1)]
  end.

Definition same_items (a b : list Item) : bool :=
  andb (forallb (fun i => existsb (Item_eqb i) b) a)
       (forallb (fun i => existsb (Item_eqb i) a) b).

(** The state with the given kernel. *)
Definition state_of (items : list Item) : option State :=
  find (fun s => same_items (kernel s) items) states.

(** The terminals that can start a symbol; a lookahead is a token type or
    [None], the end of the input. *)
Definition first (X : Symbol) : list TokenType :=
  match X with
  | Tok t => [t]
  | _ =>
      flat_map (fun p => if Symbol_eqb (lhs p) X
                         then match rhs p with
                              | Tok t :: _ => [t]
                              | _ => []
                              end
                         else [])
               productions
  end.

Definition lookahead_in (la : option TokenType) (l : list (option TokenType)) : bool :=
  existsb (fun x => match la, x with
                    | None, None => true
                    | Some a, Some b => TokenType_eqb a b
                    | _, _ => false
                    end) l.

(** One round of the computation of what can follow a nonterminal. *)
Fixpoint follow_in_rhs (X : Symbol) (follow_lhs : list (option TokenType)) (syms : list Symbol)
  : list (option TokenType) :=
  match syms with
  | [] => []
  | Y :: rest =>
      ((if Symbol_eqb X Y
        then match rest with
             | [] => follow_lhs
             | Z :: _ => map Some (first Z)
             end
        else []) ++ follow_in_rhs X follow_lhs rest)%list
  end.

Fixpoint follow (fuel : nat) (X : Symbol) : list (option TokenType) :=
  match fuel with
  | O => []
  | S fuel =>
      ((match X with expression => [None] | _ => [] end)
         ++ flat_map (fun p => follow_in_rhs X (follow fuel (lhs p)) (rhs p)) productions)%list
  end.

Definition can_follow (X : Symbol) (la : option TokenType) : bool :=
  lookahead_in la (follow 3 X).

(** The complete productions of a state that the lookahead can follow. *)
Definition reductions (s : State) (la : option TokenType) : list Production :=
  filter (fun p => andb (existsb (Item_eqb (Some p, List.length (rhs p))) (closure (kernel s)))
                        (can_follow (lhs p) la))
         productions.

(** The entry of the table for a state and a lookahead. *)
Definition table (s : State) (la : option TokenType) : Action :=
  let shift :=
    match la with
    | Some t => state_of (goto_items (kernel s) (Tok t))
    | None => None
    end in
  match la, existsb (Item_eqb (None, 1)) (kernel s) with
  | None, true => Accept
  | _, _ =>
      match reductions s la, shift, la with
      | [], Some s', _ => Shift s'
      | [], None, _ => Error
      | [p], Some s', Some t => resolve t s' p
      | [p], _, _ => Reduce p
      | _, _, _ => Error
      end
  end.

Definition lookaheads : list (option TokenType) := None :: map Some token_types.

(** [action] is the table, but for the states with one reduction and
    nothing else, where the reduction is taken on every lookahead. *)
Definition action_matches (s : State) (la : option TokenType) : bool :=
  match defaulted s with
  | Some p =>
      andb (Action_eqb (action s la) (Reduce p))
           (orb (Action_eqb (table s la) (Reduce p)) (Action_eqb (table s la) Error))
  | None => Action_eqb (action s la) (table s la)
  end.

Definition option_State_eqb (a b : option State) : bool :=
  match a, b with
  | None, None => true
  | Some x, Some y => State_eqb x y
  | _, _ => false
  end.

(** A state is [defaulted] when its closure is one complete item. *)
Definition defaulted_matches (s : State) : bool :=
  match closure (kernel s), defaulted s with
  | [(Some p, n)], Some q => andb (Production_eqb p q) (Nat.eqb n (List.length (rhs p)))
  | [(Some p, n)], None => negb (Nat.eqb n (List.length (rhs p)))
  | _, Some _ => false
  | _, None => true
  end.

(** Every nonempty set of items reached from a state is a state. *)
Definition goto_closed (s : State) : bool :=
  forallb (fun X => match goto_items (kernel s) X, state_of (goto_items (kernel s) X) with
                    | [], _ => true
                    | _ :: _, Some _ => true
                    | _ :: _, None => false
                    end)
          (expression :: literal :: map Tok token_types).

(** The rightmost terminal of a right-hand side. *)
Definition rightmost_terminal (syms : list Symbol) : option TokenType :=
  fold_left (fun acc X => match X with Tok t => Some t | _ => acc end) syms None.

Definition prec_matches (p : Production) : bool :=
  let expected :=
    match prec_token p with
    | Some t => token_prec t
    | None =>
        match rightmost_terminal (rhs p) with
        | Some t => token_prec t
        | None => (assoc_right, 0)
        end
    end in
  andb (Nat.eqb (snd (production_prec p)) (snd expected))
       match fst (production_prec p), fst expected with
       | assoc_left, assoc_left | assoc_right, assoc_right
       | assoc_nonassoc, assoc_nonassoc => true
       | _, _ => false
       end.

(** The bounded computations have reached their fixed points. *)
Definition closure_reached (s : State) : bool :=
  same_items (closure_step (closure (kernel s))) (closure (kernel s)).

Definition follow_reached (X : Symbol) : bool :=
  forallb (fun la => lookahead_in la (follow 3 X)) (follow 4 X).

Definition automaton_of_grammar : bool :=
  andb (forallb (fun s => andb (forallb (action_matches s) lookaheads)
                               (andb (closure_reached s)
                               (andb (defaulted_matches s)
                                     (andb (goto_closed s)
                                           (andb (option_State_eqb
                                                    (goto_expression s)
                                                    (state_of (goto_items (kernel s) expression)))
                                                 (option_State_eqb
                                                    (goto_literal s)
                                                    (state_of (goto_items (kernel s) literal))))))))
                states)
       (andb (forallb prec_matches productions)
             (andb (follow_reached expression) (follow_reached literal))).

End Grammar.

(** [parse_query(text, optimize)], the root of the query it returns. *)
Definition parse_query (text : string) (optimize : bool) : option (result QueryNode) :=
  match parse text with
  | Some (inr root) => Some (ret (if optimize then optimized root else root))
  | other => other
  end.

(* ------------------------------------------------------------------ *)
(** ** Organizations, fields and the stored data *)

(** Modelled from the spec: the value types of [temba.values.models.Value]
    (text, decimal, datetime, state, district, ward); [TYPE_OTHER] is any
    other code. *)
Inductive ValueType : Type :=
| TYPE_TEXT | TYPE_DECIMAL | TYPE_DATETIME
| TYPE_STATE | TYPE_DISTRICT | TYPE_WARD
| TYPE_OTHER (code : string).

(** Modelled from the spec: a row of [ContactField], with the two settings
    of its organization that the compiler reads through [field.org]. *)
Record ContactField : Type := {
  field_id : Z;
  key : string;
  is_active : bool;
  value_type : ValueType;
  org_timezone : string;
  org_dayfirst : bool
}.

(** Modelled from the spec: an organization, with its rows of
    [ContactField] in the order the database returns them. *)
Record Org : Type := {
  is_anon : bool;
  org_fields : list ContactField
}.

(** Modelled from the spec: contacts, their URNs, their field values and
    the administrative boundaries.  Instants are seconds on the UTC time
    line, decimals are rationals. *)
Record Contact : Type := {
  contact_id : Z;
  name : option string
}.

Record ContactURN : Type := {
  urn_contact_id : Z;
  scheme : string;
  path : string
}.

Record ValueRow : Type := {
  value_contact_id : Z;
  value_contact_field : Z;
  string_value : option string;
  decimal_value : option QArith_base.Q;
  datetime_value : option Z;
  location_value : option Z
}.

Record AdminBoundary : Type := {
  boundary_id : Z;
  boundary_name : string
}.

Record Store : Type := {
  urns : list ContactURN;
  values : list ValueRow;
  boundaries : list AdminBoundary
}.

(** Field lookups; [equal_day] is the marker ['<equal>'] of
    [DATETIME_LOOKUPS]. *)
Inductive Lookup : Type :=
| iexact | icontains | exact | gt | gte | lt | lte | equal_day.

(** A value of Python's [Decimal]: a number, or one of the values that are
    not numbers (NaN, Infinity and their signed forms), which [Decimal(s)]
    returns without raising.  How the database compares a stored number
    with one of these is not decided by the module: the value carries the
    answer, [compares lookup stored]. *)
Inductive DecimalValue : Type :=
| Finite (q : QArith_base.Q)
| NotFinite (compares : Lookup -> QArith_base.Q -> bool).

(** What the module takes from Python and from [temba.utils]:
    [int(s)] and [Decimal(s)], [None] when they raise; and
    [str_to_datetime(s, tz, dayfirst, fill_time=False)], the instant of the
    parsed local date, [None] when the text is not a date. *)
Class Externals : Type := {
  int : string -> option Z;
  Decimal : string -> option DecimalValue;
  str_to_datetime : string -> string -> bool -> option Z
}.

(** [timedelta(days=1)], in seconds *)
Definition one_day : Z := 86400.

(* ------------------------------------------------------------------ *)
(** ** Predicates: the [Q] objects the compiler builds *)

(** A keyword argument of a filter on [Value]. *)
Inductive ValueParam : Type :=
| kw_contact_field (field : ContactField)
| kw_string_value (l : Lookup) (v : string)
| kw_decimal_value (l : Lookup) (v : DecimalValue)
| kw_datetime_value (l : Lookup) (v : Z)
| kw_location_value__in (name_lookup : Lookup) (v : string).

(** A filter on [Value]: keyword arguments, or filters combined with [&]
    and [|]. *)
Inductive VQ : Type :=
| VQ_kwargs (params : list ValueParam)
| VQ_and (a b : VQ)
| VQ_or (a b : VQ).

(** A filter on contacts. *)
Inductive Q : Type :=
| Q_attr (attr : string) (l : Lookup) (v : string)
| Q_id (i : Z)
| Q_id__in_urns (scheme : option string) (path_lookup : Lookup) (v : string)
| Q_id__in_values (filter : VQ)
| Q_not (q : Q)
| Q_and (a b : Q)
| Q_or (a b : Q).

Definition apply_op (op : BoolOp) : Q -> Q -> Q :=
  match op with AND => Q_and | OR => Q_or end.

Definition apply_op_VQ (op : BoolOp) : VQ -> VQ -> VQ :=
  match op with AND => VQ_and | OR => VQ_or end.

(** [reduce(f, items)], which raises on an empty list. *)
Definition reduce {A} (f : A -> A -> A) (items : list A) : result A :=
  match items with
  | [] => raise (TypeError "reduce() of empty sequence with no initial value")
  | x :: r => ret (fold_left f r x)
  end.

(** *** What a predicate selects *)

Definition text_lookup (l : Lookup) (stored v : string) : bool :=
  match l with
  | iexact => String.eqb (Py.lower stored) (Py.lower v)
  | icontains => Py.contains (Py.lower stored) (Py.lower v)
  | exact => String.eqb stored v
  | _ => false
  end.

Definition Z_lookup (l : Lookup) (stored v : Z) : bool :=
  match l with
  | exact => (stored =? v)%Z
  | gt => (v <? stored)%Z
  | gte => (v <=? stored)%Z
  | lt => (stored <? v)%Z
  | lte => (stored <=? v)%Z
  | _ => false
  end.

Definition Q_lookup (l : Lookup) (stored v : QArith_base.Q) : bool :=
  match l with
  | exact => QArith_base.Qeq_bool stored v
  | gt => negb (QArith_base.Qle_bool stored v)
  | gte => QArith_base.Qle_bool v stored
  | lt => negb (QArith_base.Qle_bool v stored)
  | lte => QArith_base.Qle_bool stored v
  | _ => false
  end.

Definition Decimal_lookup (l : Lookup) (stored : QArith_base.Q) (v : DecimalValue) : bool :=
  match v with
  | Finite q => Q_lookup l stored q
  | NotFinite compares => compares l stored
  end.

Definition on_some {A} (o : option A) (p : A -> bool) : bool :=
  match o with Some a => p a | None => false end.

Definition eval_param (st : Store) (row : ValueRow) (p : ValueParam) : bool :=
  match p with
  | kw_contact_field f => (value_contact_field row =? field_id f)%Z
  | kw_string_value l v => on_some (string_value row) (fun s => text_lookup l s v)
  | kw_decimal_value l v => on_some (decimal_value row) (fun d => Decimal_lookup l d v)
  | kw_datetime_value l v => on_some (datetime_value row) (fun d => Z_lookup l d v)
  | kw_location_value__in l v =>
      on_some (location_value row)
              (fun b => existsb (fun a => andb (boundary_id a =? b)%Z
                                               (text_lookup l (boundary_name a) v))
                                (boundaries st))
  end.

Fixpoint eval_VQ (st : Store) (q : VQ) (row : ValueRow) : bool :=
  match q with
  | VQ_kwargs params => forallb (eval_param st row) params
  | VQ_and a b => andb (eval_VQ st a row) (eval_VQ st b row)
  | VQ_or a b => orb (eval_VQ st a row) (eval_VQ st b row)
  end.

(** Whether contact [c] is selected by [q] in store [st]. *)
Fixpoint eval_Q (st : Store) (q : Q) (c : Contact) : bool :=
  match q with
  | Q_attr attr l v =>
      if String.eqb attr "name" then on_some (name c) (fun n => text_lookup l n v)
      else false
  | Q_id i => (contact_id c =? i)%Z
  | Q_id__in_urns sch l v =>
      existsb (fun u => andb (urn_contact_id u =? contact_id c)%Z
                             (andb match sch with
                                   | Some s => String.eqb (scheme u) s
                                   | None => true
                                   end
                                   (text_lookup l (path u) v)))
              (urns st)
  | Q_id__in_values f =>
      existsb (fun row => andb (value_contact_id row =? contact_id c)%Z (eval_VQ st f row))
              (values st)
  | Q_not a => negb (eval_Q st a c)
  | Q_and a b => andb (eval_Q st a c) (eval_Q st b c)
  | Q_or a b => orb (eval_Q st a c) (eval_Q st b c)
  end.

(* ------------------------------------------------------------------ *)
(** ** Property resolver and predicate compiler *)

(** An entry of the property map: the pair [(prop_type, prop_obj)]. *)
Inductive PropEntry : Type :=
| PROP_ATTRIBUTE (attr : string)
| PROP_SCHEME (scheme : string)
| PROP_FIELD (field : ContactField).

Definition SEARCHABLE_ATTRIBUTES : list string := ["name"].
Definition SEARCHABLE_SCHEMES : list string := ["tel"; "twitter"].

(** A Python [dict] with string keys, in insertion order. *)
Definition dict (V : Type) : Type := list (string * V).

Definition dict_keys {V} (d : dict V) : list string := map fst d.

(** [k in d] *)
Definition has_key {V} (d : dict V) (k : string) : bool :=
  match dict_get d k with Some _ => true | None => false end.

(** [d[k] = v] *)
Fixpoint dict_set {V} (d : dict V) (k : string) (v : V) : dict V :=
  match d with
  | [] => [(k, v)]
  | (k', v') :: r =>
      if String.eqb k k' then (k', v) :: r else (k', v') :: dict_set r k v
  end.

(** [{p: None for p in names if p != IMPLICIT_PROP}] *)
Definition initial_prop_map (names : list string) : dict (option PropEntry) :=
  fold_left (fun d p => if negb (String.eqb p IMPLICIT_PROP) then dict_set d p None else d)
            names [].

(** The loop over
    [ContactField.objects.filter(org=org, key__in=prop_map.keys(), is_active=True)]. *)
Definition resolve_fields (org : Org) (prop_map : dict (option PropEntry))
  : dict (option PropEntry) :=
  fold_left (fun d field => dict_set d (key field) (Some (PROP_FIELD field)))
            (filter (fun field => andb (Py.str_in (key field) (dict_keys prop_map))
                                       (is_active field))
                    (org_fields org))
            prop_map.

Definition resolve_attributes (prop_map : dict (option PropEntry)) : dict (option PropEntry) :=
  fold_left (fun d attr => if Py.str_in attr (dict_keys d)
                           then dict_set d attr (Some (PROP_ATTRIBUTE attr)) else d)
            SEARCHABLE_ATTRIBUTES prop_map.

Definition resolve_schemes (prop_map : dict (option PropEntry)) : dict (option PropEntry) :=
  fold_left (fun d sch => if Py.str_in sch (dict_keys d)
                          then dict_set d sch (Some (PROP_SCHEME sch)) else d)
            SEARCHABLE_SCHEMES prop_map.

(** The last loop of [get_prop_map]: the first entry without an object
    raises. *)
Fixpoint check_resolved (items : dict (option PropEntry)) : result (dict PropEntry) :=
  match items with
  | [] => ret []
  | (prop, None) :: _ => raise (SearchException ("Unrecognized field: " ++ prop))
  | (prop, Some prop_obj) :: r => d <- check_resolved r ;; ret ((prop, prop_obj) :: d)
  end.

(** [ContactQuery.get_prop_map] *)
Definition get_prop_map (org : Org) (root : QueryNode) : result (dict PropEntry) :=
  check_resolved
    (resolve_schemes
       (resolve_attributes
          (resolve_fields org (initial_prop_map (get_prop_names root))))).

(** [prop_map[prop]] *)
Definition prop_map_get (prop_map : dict PropEntry) (prop : string) : result PropEntry :=
  match dict_get prop_map prop with
  | Some e => ret e
  | None => raise (KeyError prop)
  end.

Definition TEXT_LOOKUPS : dict Lookup := [("=", iexact); ("~", icontains)].

Definition DECIMAL_LOOKUPS : dict Lookup :=
  [("=", exact); ("is", exact); (">", gt); (">=", gte); ("<", lt); ("<=", lte)].

Definition DATETIME_LOOKUPS : dict Lookup :=
  [("=", equal_day); ("is", equal_day); (">", gt); (">=", gte); ("<", lt); ("<=", lte)].

Definition LOCATION_LOOKUPS : dict Lookup := [("=", iexact); ("~", icontains)].

Section Compiler.

Context {ext : Externals}.

(** The methods of [Condition]; [comparator] and [value] are the
    attributes of [self]. *)

Definition _build_implicit_prop_query (value : string) (org : Org) : Q :=
  let name_query := Q_attr "name" icontains value in
  let urn_query :=
    if is_anon org then
      match int value with
      | Some i => Q_id i
      | None => Q_id (-1)
      end
    else Q_id__in_urns None icontains value in
  Q_or name_query urn_query.

Definition _build_attr_query (comparator value : string) (attr : string) : result Q :=
  match dict_get TEXT_LOOKUPS comparator with
  | None => raise (SearchException ("Unsupported comparator " ++ comparator ++ " for contact attribute"))
  | Some lookup => ret (Q_attr attr lookup value)
  end.

Definition _build_urn_query (comparator value : string) (scheme : string) : result Q :=
  match dict_get TEXT_LOOKUPS comparator with
  | None => raise (SearchException ("Unsupported comparator " ++ comparator ++ " for URN"))
  | Some lookup => ret (Q_id__in_urns (Some scheme) lookup value)
  end.

Definition _build_text_field_params (comparator value : string) (field : ContactField)
  : result (list ValueParam) :=
  match dict_get TEXT_LOOKUPS comparator with
  | None => raise (SearchException ("Unsupported comparator " ++ comparator ++ " for text field"))
  | Some lookup => ret [kw_contact_field field; kw_string_value lookup value]
  end.

Definition _build_decimal_field_params (comparator value : string) (field : ContactField)
  : result (list ValueParam) :=
  match dict_get DECIMAL_LOOKUPS comparator with
  | None => raise (SearchException ("Unsupported comparator " ++ comparator ++ " for decimal field"))
  | Some lookup =>
      match Decimal value with
      | None => raise (SearchException ("Can't convert '" ++ value ++ "' to a decimal"))
      | Some d => ret [kw_contact_field field; kw_decimal_value lookup d]
      end
  end.

Definition _build_datetime_field_params (comparator value : string) (field : ContactField)
  : result (list ValueParam) :=
  match dict_get DATETIME_LOOKUPS comparator with
  | None => raise (SearchException ("Unsupported comparator " ++ comparator ++ " for datetime field"))
  | Some lookup =>
      match str_to_datetime value (org_timezone field) (org_dayfirst field) with
      | None => raise (SearchException ("Unable to parse date: " ++ value))
      | Some local_date =>
          let value := local_date in   (* the same instant, in UTC *)
          match lookup with
          | equal_day =>
              ret [kw_contact_field field;
                   kw_datetime_value gte value; kw_datetime_value lt (value + one_day)%Z]
          | lte =>
              ret [kw_contact_field field; kw_datetime_value lt (value + one_day)%Z]
          | gt =>
              ret [kw_contact_field field; kw_datetime_value gte (value + one_day)%Z]
          | _ =>
              ret [kw_contact_field field; kw_datetime_value lookup value]
          end
      end
  end.

Definition _build_location_field_params (comparator value : string) (field : ContactField)
  : result (list ValueParam) :=
  match dict_get LOCATION_LOOKUPS comparator with
  | None => raise (SearchException ("Unsupported comparator " ++ comparator ++ " for location field"))
  | Some lookup => ret [kw_contact_field field; kw_location_value__in lookup value]
  end.

Definition build_value_query_params (comparator value : string) (field : ContactField)
  : result (list ValueParam) :=
  match value_type field with
  | TYPE_TEXT => _build_text_field_params comparator value field
  | TYPE_DECIMAL => _build_decimal_field_params comparator value field
  | TYPE_DATETIME => _build_datetime_field_params comparator value field
  | TYPE_STATE | TYPE_DISTRICT | TYPE_WARD => _build_location_field_params comparator value field
  | TYPE_OTHER code =>
      raise (ValueError ("Unrecognized contact field type '" ++ code ++ "'"))
  end.

Definition _build_value_query (comparator value : string) (field : ContactField) : result Q :=
  params <- build_value_query_params comparator value field ;;
  ret (Q_id__in_values (VQ_kwargs params)).

(** [Condition.as_query] *)
Definition Condition_as_query (prop comparator value : string)
           (org : Org) (prop_map : dict PropEntry) : result Q :=
  if String.eqb prop IMPLICIT_PROP then ret (_build_implicit_prop_query value org)
  else
    entry <- prop_map_get prop_map prop ;;
    match entry with
    | PROP_FIELD prop_obj =>
        if andb (Py.str_in (Py.lower comparator) ["="; "is"]) (String.eqb value "")
        then ret (Q_not (Q_id__in_values (VQ_kwargs [kw_contact_field prop_obj])))
        else _build_value_query comparator value prop_obj
    | PROP_SCHEME prop_obj =>
        if is_anon org then ret (Q_id (-1))
        else _build_urn_query comparator value prop_obj
    | PROP_ATTRIBUTE prop_obj => _build_attr_query comparator value prop_obj
    end.

(** [del params['contact_field']] *)
Definition del_contact_field (params : list ValueParam) : list ValueParam :=
  filter (fun p => match p with kw_contact_field _ => false | _ => true end) params.

(** The loop of [SinglePropCombination.as_query] over one child. *)
Definition child_value_query (child : QueryNode) (prop_obj : ContactField) : result VQ :=
  match child with
  | Condition _ comparator value =>
      params <- build_value_query_params comparator value prop_obj ;;
      ret (VQ_kwargs (del_contact_field params))
  | _ => raise (AttributeError "build_value_query_params")
  end.

(** [as_query] of the three classes. *)
Fixpoint as_query (self : QueryNode) (org : Org) (prop_map : dict PropEntry) : result Q :=
  let children_as_query :=
    fix go (children : list QueryNode) : result (list Q) :=
      match children with
      | [] => ret []
      | child :: r => q <- as_query child org prop_map ;; qs <- go r ;; ret (q :: qs)
      end in
  match self with
  | Condition prop comparator value => Condition_as_query prop comparator value org prop_map
  | BoolCombination op children =>
      qs <- children_as_query children ;;
      reduce (apply_op op) qs
  | SinglePropCombination prop op children =>
      entry <- prop_map_get prop_map prop ;;
      match entry with
      | PROP_FIELD prop_obj =>
          value_queries <- mapM (fun child => child_value_query child prop_obj) children ;;
          combined <- reduce (apply_op_VQ op) value_queries ;;
          ret (Q_id__in_values (VQ_and (VQ_kwargs [kw_contact_field prop_obj]) combined))
      | _ =>
          qs <- children_as_query children ;;
          reduce (apply_op op) qs
      end
  end.

(** [ContactQuery.as_query] *)
Definition ContactQuery_as_query (root : QueryNode) (org : Org) : result Q :=
  prop_map <- get_prop_map org root ;;
  as_query root org prop_map.

End Compiler.

(* ------------------------------------------------------------------ *)
(** ** Objects and mutation

    [simplify] and [split_by_prop] assign [self.children] before they build
    the node they return.  To observe this the nodes are placed in a store
    of objects, addressed by their position; a combination holds the
    addresses of its children. *)

Module Objects.

Definition addr : Type := nat.

Inductive Obj : Type :=
| O_Condition (prop comparator value : string)
| O_BoolCombination (op : BoolOp) (children : list addr)
| O_SinglePropCombination (prop : string) (op : BoolOp) (children : list addr)
| O_ContactQuery (root : addr).

Definition heap : Type := list Obj.

(** A constructor call: the new object gets the next address. *)
Definition new (o : Obj) (h : heap) : addr * heap := (List.length h, (h ++ [o])%list).

Definition get (h : heap) (a : addr) : option Obj := nth_error h a.

Fixpoint put (h : heap) (a : addr) (o : Obj) : heap :=
  match h, a with
  | [], _ => []
  | _ :: r, O => o :: r
  | x :: r, S a' => x :: put r a' o
  end.

(** [self.children = children] *)
Definition set_children (h : heap) (self : addr) (children : list addr) : heap :=
  match get h self with
  | Some (O_BoolCombination op _) => put h self (O_BoolCombination op children)
  | Some (O_SinglePropCombination prop op _) =>
      put h self (O_SinglePropCombination prop op children)
  | _ => h
  end.

(** [[f(c) for c in children]] for a method [f] that changes the store. *)
Fixpoint map_heap (f : addr -> heap -> option (addr * heap)) (children : list addr) (h : heap)
  : option (list addr * heap) :=
  match children with
  | [] => Some ([], h)
  | c :: r =>
      match f c h with
      | Some (c', h1) =>
          match map_heap f r h1 with
          | Some (r', h2) => Some (c' :: r', h2)
          | None => None
          end
      | None => None
      end
  end.

Inductive LoopResult : Type :=
| ReturnSelf
| Simplified (simplified : list addr)
| Dangling.

(** The loop of [simplify], on addresses. *)
Fixpoint simplify_loop (h : heap) (op : BoolOp) (children simplified : list addr) : LoopResult :=
  match children with
  | [] => Simplified simplified
  | child :: rest =>
      match get h child with
      | Some (O_Condition _ _ _) => simplify_loop h op rest (simplified ++ [child])%list
      | Some (O_BoolCombination cop cs)
      | Some (O_SinglePropCombination _ cop cs) =>
          if negb (BoolOp_eqb cop op) then ReturnSelf
          else simplify_loop h op rest (simplified ++ cs)%list
      | _ => Dangling
      end
  end.

(** [node.simplify()]: the address returned and the store after the
    call.  [None] when the fuel runs out or an address is not that of a
    node. *)
Fixpoint simplify (fuel : nat) (self : addr) (h : heap) : option (addr * heap) :=
  match fuel with
  | O => None
  | S fuel =>
      match get h self with
      | Some (O_Condition _ _ _) => Some (self, h)
      | Some (O_BoolCombination op children)
      | Some (O_SinglePropCombination _ op children) =>
          match map_heap (simplify fuel) children h with
          | Some (children', h1) =>
              let h2 := set_children h1 self children' in
              match simplify_loop h2 op children' [] with
              | ReturnSelf => Some (self, h2)
              | Simplified simplified => Some (new (O_BoolCombination op simplified) h2)
              | Dangling => None
              end
          | None => None
          end
      | _ => None
      end
  end.

Definition OrderedDict : Type := list (option string * list addr).

Fixpoint od_append (d : OrderedDict) (prop : option string) (child : addr) : OrderedDict :=
  match d with
  | [] => [(prop, [child])]
  | (k, cs) :: rest =>
      if key_eqb prop k then (k, (cs ++ [child])%list) :: rest
      else (k, cs) :: od_append rest prop child
  end.

Definition child_prop (h : heap) (child : addr) : option string :=
  match get h child with
  | Some (O_Condition prop _ _) => Some prop
  | _ => None
  end.

Definition children_by_prop (h : heap) (children : list addr) : OrderedDict :=
  fold_left (fun d child => od_append d (child_prop h child) child) children [].

(** The second loop of [split_by_prop]: a [SinglePropCombination] is
    constructed for each group of several children on a property. *)
Fixpoint new_children (op : BoolOp) (d : OrderedDict) (h : heap) : list addr * heap :=
  match d with
  | [] => ([], h)
  | (prop, children) :: rest =>
      match prop with
      | Some p =>
          if (1 <? List.length children)%nat then
            let (a, h1) := new (O_SinglePropCombination p op children) h in
            let (r, h2) := new_children op rest h1 in
            (a :: r, h2)
          else
            let (r, h2) := new_children op rest h in
            ((children ++ r)%list, h2)
      | None =>
          let (r, h2) := new_children op rest h in
          ((children ++ r)%list, h2)
      end
  end.

(** [node.split_by_prop()] *)
Fixpoint split_by_prop (fuel : nat) (self : addr) (h : heap) : option (addr * heap) :=
  match fuel with
  | O => None
  | S fuel =>
      match get h self with
      | Some (O_Condition _ _ _) => Some (self, h)
      | Some (O_BoolCombination op children)
      | Some (O_SinglePropCombination _ op children) =>
          match map_heap (split_by_prop fuel) children h with
          | Some (children', h1) =>
              let h2 := set_children h1 self children' in
              let (nc, h3) := new_children op (children_by_prop h2 children') h2 in
              match nc with
              | [only] => Some (only, h3)
              | _ => Some (new (O_BoolCombination op nc) h3)
              end
          | None => None
          end
      | _ => None
      end
  end.

(** [query.optimized()]: the address of the [ContactQuery] returned. *)
Definition optimized (fuel : nat) (query : addr) (h : heap) : option (addr * heap) :=
  match get h query with
  | Some (O_ContactQuery root) =>
      match simplify fuel root h with
      | Some (r1, h1) =>
          match split_by_prop fuel r1 h1 with
          | Some (r2, h2) => Some (new (O_ContactQuery r2) h2)
          | None => None
          end
      | None => None
      end
  | _ => None
  end.

(** The tree that hangs from an address. *)
Fixpoint tree_of (fuel : nat) (h : heap) (a : addr) : option QueryNode :=
  match fuel with
  | O => None
  | S fuel =>
      let trees_of :=
        fix go (l : list addr) : option (list QueryNode) :=
          match l with
          | [] => Some []
          | c :: r =>
              match tree_of fuel h c, go r with
              | Some t, Some ts => Some (t :: ts)
              | _, _ => None
              end
          end in
      match get h a with
      | Some (O_Condition p c v) => Some (Condition p c v)
      | Some (O_BoolCombination op cs) =>
          option_map (BoolCombination op) (trees_of cs)
      | Some (O_SinglePropCombination p op cs) =>
          option_map (SinglePropCombination p op) (trees_of cs)
      | _ => None
      end
  end.

(** The tree of the root of a [ContactQuery] object. *)
Definition query_tree (fuel : nat) (h : heap) (query : addr) : option QueryNode :=
  match get h query with
  | Some (O_ContactQuery root) => tree_of fuel h root
  | _ => None
  end.

(** The objects the parser constructs for a tree: children before their
    parent. *)
Fixpoint build (t : QueryNode) (h : heap) : addr * heap :=
  let build_all :=
    fix go (l : list QueryNode) (h : heap) : list addr * heap :=
      match l with
      | [] => ([], h)
      | c :: r =>
          let (a, h1) := build c h in
          let (r', h2) := go r h1 in
          (a :: r', h2)
      end in
  match t with
  | Condition p c v => new (O_Condition p c v) h
  | BoolCombination op cs =>
      let (cs', h1) := build_all cs h in new (O_BoolCombination op cs') h1
  | SinglePropCombination p op cs =>
      let (cs', h1) := build_all cs h in new (O_SinglePropCombination p op cs') h1
  end.

(** [ContactQuery(root)] for a freshly built tree. *)
Definition build_query (t : QueryNode) (h : heap) : addr * heap :=
  let (root, h1) := build t h in new (O_ContactQuery root) h1.

End Objects.

(* ------------------------------------------------------------------ *)
(** ** Properties of trees used in the statements *)

(** The six comparators a condition is meant to store. *)
Definition CANONICAL_COMPARATORS : list string := ["="; "~"; ">"; ">="; "<"; "<="].

Definition stored_comparator (n : QueryNode) : option string :=
  match n with
  | Condition _ comparator _ => Some comparator
  | _ => None
  end.

(** Every condition of the tree stores one of the six comparators. *)
Fixpoint canonical (n : QueryNode) : bool :=
  match n with
  | Condition _ comparator _ => Py.str_in comparator CANONICAL_COMPARATORS
  | BoolCombination _ children
  | SinglePropCombination _ _ children => forallb canonical children
  end.

(** A combination with operator [op]. *)
Definition same_op (op : BoolOp) (child : QueryNode) : bool :=
  match node_op child with
  | Some cop => BoolOp_eqb cop op
  | None => false
  end.

(** A combination with another operator than [op]. *)
Definition other_op (op : BoolOp) (child : QueryNode) : bool :=
  match node_op child with
  | Some cop => negb (BoolOp_eqb cop op)
  | None => false
  end.

(** No combination of the tree has a direct child combination with its own
    operator. *)
Fixpoint flattened (n : QueryNode) : bool :=
  match n with
  | Condition _ _ _ => true
  | BoolCombination op children
  | SinglePropCombination _ op children =>
      andb (negb (existsb (same_op op) children)) (forallb flattened children)
  end.

(** Every combination of the tree that has a direct child combination with
    its own operator also has one with the other operator. *)
Fixpoint flattened_unless_mixed (n : QueryNode) : bool :=
  match n with
  | Condition _ _ _ => true
  | BoolCombination op children
  | SinglePropCombination _ op children =>
      andb (orb (negb (existsb (same_op op) children)) (existsb (other_op op) children))
           (forallb flattened_unless_mixed children)
  end.

(** The conditions of a tree, from left to right. *)
Fixpoint leaves (n : QueryNode) : list QueryNode :=
  match n with
  | Condition _ _ _ => [n]
  | BoolCombination _ children
  | SinglePropCombination _ _ children => flat_map leaves children
  end.

(** What a child contributes when it is spliced into its parent: itself
    when it is a condition, its children when it is a combination. *)
Definition splice (child : QueryNode) : list QueryNode :=
  match child with
  | Condition _ _ _ => [child]
  | BoolCombination _ cs | SinglePropCombination _ _ cs => cs
  end.

(** Every [SinglePropCombination] of the tree satisfies the assertion of
    its constructor. *)
Fixpoint asserted (n : QueryNode) : bool :=
  match n with
  | Condition _ _ _ => true
  | BoolCombination _ children => forallb asserted children
  | SinglePropCombination prop _ children =>
      andb (SinglePropCombination_assert prop children) (forallb asserted children)
  end.

(** Some node of the tree is a [SinglePropCombination] on [prop]. *)
Fixpoint groups_prop (prop : string) (n : QueryNode) : bool :=
  match n with
  | Condition _ _ _ => false
  | BoolCombination _ children => existsb (groups_prop prop) children
  | SinglePropCombination p _ children =>
      orb (String.eqb p prop) (existsb (groups_prop prop) children)
  end.

(** The resolution of a property name when each later loop of
    [get_prop_map] overrides the earlier ones: URN scheme, else attribute,
    else the last active field with that key. *)
Definition last_active_field (org : Org) (prop : string) : option ContactField :=
  find (fun field => andb (String.eqb (key field) prop) (is_active field))
       (rev (org_fields org)).

Definition resolution (org : Org) (prop : string) : option PropEntry :=
  if Py.str_in prop SEARCHABLE_SCHEMES then Some (PROP_SCHEME prop)
  else if Py.str_in prop SEARCHABLE_ATTRIBUTES then Some (PROP_ATTRIBUTE prop)
  else option_map PROP_FIELD (last_active_field org prop).

(** The resolution of the specification: the first of custom field,
    attribute, URN scheme that matches. *)
Definition spec_resolution (org : Org) (prop : string) : option PropEntry :=
  match last_active_field org prop with
  | Some field => Some (PROP_FIELD field)
  | None =>
      if Py.str_in prop SEARCHABLE_ATTRIBUTES then Some (PROP_ATTRIBUTE prop)
      else if Py.str_in prop SEARCHABLE_SCHEMES then Some (PROP_SCHEME prop)
      else None
  end.

(** The 24 hours of the specification, in seconds. *)
Definition hours_24 : Z := (24 * 60 * 60)%Z.

(** The day-granular comparison of the specification, of a stored instant
    with the start of the day of the literal. *)
Definition spec_datetime_match (comparator : string) (day_start instant : Z) : bool :=
  if String.eqb comparator "=" then
    andb (day_start <=? instant)%Z (instant <? day_start + hours_24)%Z
  else if String.eqb comparator "<=" then (instant <? day_start + hours_24)%Z
  else if String.eqb comparator ">" then (day_start + hours_24 <=? instant)%Z
  else if String.eqb comparator ">=" then (day_start <=? instant)%Z
  else if String.eqb comparator "<" then (instant <? day_start)%Z
  else false.

(** Contact [c] has a value of [field] whose instant satisfies [p]. *)
Definition has_datetime_value (st : Store) (c : Contact) (field : ContactField)
           (p : Z -> bool) : bool :=
  existsb (fun row => andb (value_contact_id row =? contact_id c)%Z
                           (andb (value_contact_field row =? field_id field)%Z
                                 (on_some (datetime_value row) p)))
          (values st).

(** Contact [c] has some value of [field]. *)
Definition has_value (st : Store) (c : Contact) (field : ContactField) : bool :=
  existsb (fun row => andb (value_contact_id row =? contact_id c)%Z
                           (value_contact_field row =? field_id field)%Z)
          (values st).

(** A run of one or more characters of [t_TEXT] that is not a reserved
    word. *)
Definition text_run (s : string) : bool :=
  match s with
  | EmptyString => false
  | String _ _ => forallb is_text_char (list_ascii_of_string s)
  end.

Definition plain_word (s : string) : bool :=
  andb (text_run s)
       match dict_get reserved (Py.lower s) with
       | Some _ => false
       | None => true
       end.

(** The spellings of a comparator token, lowercased. *)
Definition COMPARATOR_SPELLINGS : list string :=
  ["~"; "="; "<"; "<="; ">"; ">="; "has"; "is"].

(** A matcher that takes at least one character, and one that takes any
    number. *)
Definition consumes (m : matcher) : Prop :=
  forall s x r, m s = Some (x, r) -> (String.length r < String.length s)%nat.

Definition never_grows (m : matcher) : Prop :=
  forall s x r, m s = Some (x, r) -> (String.length r <= String.length s)%nat.

(** The text that follows does not continue a run of [t_TEXT]. *)
Definition ends_run (rest : string) : bool :=
  match rest with
  | EmptyString => true
  | String c _ => negb (is_text_char c)
  end.

(** A spelling of a comparator, in any letter case. *)
Definition spelled (v : string) : bool := Py.str_in (Py.lower v) COMPARATOR_SPELLINGS.

(** A [COMPARATOR] token is one of the spellings; a [TEXT] token is a run
    of text characters that is not a reserved word. *)
Definition token_ok (t : LexToken) : Prop :=
  (type t = COMPARATOR -> spelled (value t) = true)
  /\ (type t = TEXT -> plain_word (value t) = true).

(** An operand written without operators or parentheses: a bare text, or
    a condition whose literal is a text or a quoted string. *)
Inductive Operand : Type :=
| Bare (text : string)
| Compared (prop comparator literal : string) (in_quotes : bool).

Definition operand_tokens (a : Operand) : list LexToken :=
  match a with
  | Bare text => [{| type := TEXT; value := text |}]
  | Compared prop comparator literal in_quotes =>
      [{| type := TEXT; value := prop |};
       {| type := COMPARATOR; value := comparator |};
       {| type := if in_quotes then STRING else TEXT; value := literal |}]
  end.

Definition operand_tree (a : Operand) : QueryNode :=
  match a with
  | Bare text => Condition_init IMPLICIT_PROP "=" text
  | Compared prop comparator literal _ =>
      Condition_init (Py.lower prop) (Py.lower comparator) literal
  end.

(** What holds of the parser's stack: the expressions on it store
    canonical comparators, the token that led to [St_comparator] is a
    spelling of a comparator, and [St_literal] sits on [St_comparator]. *)
Definition entry_ok (s : State) (v : SymValue) (below : Stack) : Prop :=
  match v with V_expression n => canonical n = true | _ => True end
  /\ (s = St_comparator -> exists t, v = V_token t /\ spelled t = true)
  /\ (s = St_literal -> top_state below = St_comparator).

Fixpoint stack_ok (stk : Stack) : Prop :=
  match stk with
  | [] => True
  | (s, v) :: below => entry_ok s v below /\ stack_ok below
  end.

(** The shape of the parser's stack: each entry's state is entered from
    the state below it on a symbol of the kind of the entry's value. *)
Definition edge_ok (below_state s : State) (v : SymValue) : bool :=
  match v with
  | V_token _ =>
      existsb (fun t => Grammar.Action_eqb (action below_state (Some t)) (Shift s))
              Grammar.token_types
  | V_expression _ => Grammar.option_State_eqb (goto_expression below_state) (Some s)
  | V_literal _ => Grammar.option_State_eqb (goto_literal below_state) (Some s)
  end.

Fixpoint stack_wf (stk : Stack) : Prop :=
  match stk with
  | [] => True
  | (s, v) :: below => edge_ok (top_state below) s v = true /\ stack_wf below
  end.

(** What an entry of a well-formed stack can be, by its state. *)
Definition entered (below_state s : State) (v : SymValue) : Prop :=
  match s with
  | St_start => False
  | St_expr => below_state = St_start /\ exists n, v = V_expression n
  | St_lparen_expr => below_state = St_lparen /\ exists n, v = V_expression n
  | St_and_expr => below_state = St_and /\ exists n, v = V_expression n
  | St_or_expr => below_state = St_or /\ exists n, v = V_expression n
  | St_expr_expr =>
      goto_expression below_state = Some St_expr_expr /\ exists n, v = V_expression n
  | St_literal => below_state = St_comparator /\ exists l, v = V_literal l
  | St_comparator => below_state = St_text /\ exists t, v = V_token t
  | St_rparen => below_state = St_lparen_expr /\ exists t, v = V_token t
  | St_lit_text | St_lit_string => below_state = St_comparator /\ exists t, v = V_token t
  | St_and | St_or =>
      (exists s', goto_expression s' = Some below_state) /\ exists t, v = V_token t
  | St_text | St_lparen =>
      (exists s', goto_expression below_state = Some s') /\ exists t, v = V_token t
  end.

(** The production a state reduces by. *)
Definition reduces_by (s : State) : option Production :=
  match s with
  | St_text => Some p_condition_implicit
  | St_expr_expr => Some p_expression_implicit_and
  | St_and_expr => Some p_expression_and
  | St_or_expr => Some p_expression_or
  | St_rparen => Some p_expression_grouping
  | St_literal => Some p_condition
  | St_lit_text => Some p_literal_TEXT
  | St_lit_string => Some p_literal_STRING
  | _ => None
  end.

(** Every expression on the parser's stack satisfies [P]. *)
Definition expressions_satisfy (P : QueryNode -> Prop) (stk : Stack) : Prop :=
  forall s n, In (s, V_expression n) stk -> P n.

(** The measure that every step of the parsing loop decreases: three per
    token to read, two per token on the stack, one per nonterminal on the
    stack. *)
Definition value_weight (v : SymValue) : nat :=
  match v with
  | V_token _ => 2
  | _ => 1
  end.

Fixpoint stack_weight (stk : Stack) : nat :=
  match stk with
  | [] => 0
  | (_, v) :: below => value_weight v + stack_weight below
  end.

(** *** Trees in the store of objects *)

(** The height of a tree. *)
Fixpoint depth (n : QueryNode) : nat :=
  match n with
  | Condition _ _ _ => 0
  | BoolCombination _ children
  | SinglePropCombination _ _ children =>
      S (fold_right (fun c m => Nat.max (depth c) m) 0 children)
  end.

(** [rep h t a f]: in store [h] the object at [a] is the root of tree [t],
    and [f] lists the addresses of the tree's nodes, the root first. *)
Inductive rep (h : Objects.heap) : QueryNode -> Objects.addr -> list Objects.addr -> Prop :=
| rep_Condition a p c v :
    Objects.get h a = Some (Objects.O_Condition p c v) ->
    rep h (Condition p c v) a [a]
| rep_BoolCombination a op ts cs fs :
    Objects.get h a = Some (Objects.O_BoolCombination op cs) ->
    reps h ts cs fs ->
    rep h (BoolCombination op ts) a (a :: fs)
| rep_SinglePropCombination a p op ts cs fs :
    Objects.get h a = Some (Objects.O_SinglePropCombination p op cs) ->
    reps h ts cs fs ->
    rep h (SinglePropCombination p op ts) a (a :: fs)
with reps (h : Objects.heap) : list QueryNode -> list Objects.addr -> list Objects.addr -> Prop :=
| reps_nil : reps h [] [] []
| reps_cons t ts c cs f fs :
    rep h t c f -> reps h ts cs fs -> reps h (t :: ts) (c :: cs) (f ++ fs)%list.

Scheme rep_reps_ind := Induction for rep Sort Prop
  with reps_rep_ind := Induction for reps Sort Prop.

Combined Scheme rep_mutual_ind from rep_reps_ind, reps_rep_ind.

(** The groups of an [OrderedDict] of addresses are those of an
    [OrderedDict] of trees. *)
Inductive dreps (h : Objects.heap)
  : OrderedDict -> Objects.OrderedDict -> list Objects.addr -> Prop :=
| dreps_nil : dreps h [] [] []
| dreps_cons k ts cs f d_t d_c fs :
    reps h ts cs f -> dreps h d_t d_c fs ->
    dreps h ((k, ts) :: d_t) ((k, cs) :: d_c) (f ++ fs)%list.

(** A method on objects, [M], computes the function on trees, [F]: called
    on the root of a tree whose nodes are distinct objects, with fuel above
    the tree's height, it returns the root of the tree [F t], again with
    distinct objects, which are objects of [t] or new ones; it leaves every
    other object as it was. *)
Definition computes (M : nat -> Objects.addr -> Objects.heap -> option (Objects.addr * Objects.heap))
           (F : QueryNode -> QueryNode) (t : QueryNode) : Prop :=
  forall h a f fuel,
    rep h t a f -> NoDup f -> (depth t < fuel)%nat ->
    exists a' h' f',
      M fuel a h = Some (a', h')
      /\ rep h' (F t) a' f'
      /\ NoDup f'
      /\ (forall x, In x f' -> In x f \/ (List.length h <= x)%nat)
      /\ (forall x, (x < List.length h)%nat -> ~ In x f -> Objects.get h' x = Objects.get h x)
      /\ (List.length h <= List.length h')%nat.

(** *** Agreement of compiled predicates *)

(** Two results of a compilation agree: the same exception, or predicates
    that select the same contacts in every store. *)
Definition same_selection (r r' : result Q) : Prop :=
  match r, r' with
  | inl e, inl e' => e = e'
  | inr q, inr q' => forall st c, eval_Q st q c = eval_Q st q' c
  | _, _ => False
  end.

(** What a list of predicates combined with [op] selects. *)
Definition eval_all (op : BoolOp) (st : Store) (c : Contact) (qs : list Q) : bool :=
  match op with
  | AND => forallb (fun q => eval_Q st q c) qs
  | OR => existsb (fun q => eval_Q st q c) qs
  end.

(** Two results of the compilation of a list of children agree when
    combined with [op]: the same exception, or two nonempty lists that
    select the same contacts. *)
Definition same_selection_all (op : BoolOp) (r r' : result (list Q)) : Prop :=
  match r, r' with
  | inl e, inl e' => e = e'
  | inr qs, inr qs' =>
      qs <> [] /\ qs' <> [] /\ forall st c, eval_all op st c qs = eval_all op st c qs'
  | _, _ => False
  end.

(** The shape of the trees the parser builds: combinations of class
    [BoolCombination], each with a child. *)
Fixpoint parsed_shape (n : QueryNode) : bool :=
  match n with
  | Condition _ _ _ => true
  | BoolCombination _ children =>
      andb match children with [] => false | _ :: _ => true end
           (forallb parsed_shape children)
  | SinglePropCombination _ _ _ => false
  end.

(* ------------------------------------------------------------------ *)
(** ** Data of the examples *)

(** The text [s] between double quotes. *)
Definition quoted (s : string) : string :=
  String dquote (s ++ String dquote EmptyString).

Module Example.

Definition email : ContactField :=
  {| field_id := 1; key := "email"; is_active := true; value_type := TYPE_TEXT;
     org_timezone := "UTC"; org_dayfirst := true |}.

Definition joined : ContactField :=
  {| field_id := 2; key := "joined"; is_active := true; value_type := TYPE_DATETIME;
     org_timezone := "UTC"; org_dayfirst := true |}.

(** A custom field whose key is the name of a searchable attribute. *)
Definition name_field : ContactField :=
  {| field_id := 3; key := "name"; is_active := true; value_type := TYPE_TEXT;
     org_timezone := "UTC"; org_dayfirst := true |}.

Definition org : Org := {| is_anon := false; org_fields := [email; joined] |}.

Definition org_with_name_field : Org :=
  {| is_anon := false; org_fields := [name_field] |}.

(** Ann has no value for any field; Bob's email is x. *)
Definition ann : Contact := {| contact_id := 1; name := Some "Ann" |}.
Definition bob : Contact := {| contact_id := 2; name := Some "Bob" |}.

Definition store : Store :=
  {| urns := [];
     values := [ {| value_contact_id := 2; value_contact_field := 1;
                    string_value := Some "x"; decimal_value := None;
                    datetime_value := None; location_value := None |} ];
     boundaries := [] |}.

(** A stand-in for the external functions: decimal integers, and one
    date. *)
Definition externals : Externals :=
  {| int := fun s => if String.eqb s "7" then Some 7%Z else None;
     Decimal := fun s => if String.eqb s "7" then Some (Finite (QArith_base.Qmake 7 1))
                         else None;
     str_to_datetime := fun s _ _ =>
       if String.eqb s "2017-01-01" then Some 1483228800%Z else None |}.

(** A decimal field, an anonymous organization, and the store with a
    URN of Ann. *)
Definition age : ContactField :=
  {| field_id := 4; key := "age"; is_active := true; value_type := TYPE_DECIMAL;
     org_timezone := "UTC"; org_dayfirst := true |}.

Definition anon_org : Org := {| is_anon := true; org_fields := [email; joined] |}.

Definition store_with_urn : Store :=
  {| urns := [ {| urn_contact_id := 1; scheme := "tel"; path := "7" |} ];
     values := values store;
     boundaries := boundaries store |}.

End Example.

(* ------------------------------------------------------------------ *)
(** ** The entry points and further properties used in the statements *)

(** [[prop_obj for (prop_type, prop_obj) in prop_map.values()
      if prop_type == ContactQuery.PROP_FIELD]], in the order of the
    entries of the dict. *)
Definition field_objects (prop_map : dict PropEntry) : list ContactField :=
  flat_map (fun item : string * PropEntry =>
              match snd item with
              | PROP_FIELD prop_obj => [prop_obj]
              | _ => []
              end) prop_map.

(** [extract_fields(org, text)] *)
Definition extract_fields (org : Org) (text : string) : option (result (list ContactField)) :=
  match parse_query text true with
  | Some (inr parsed) =>
      Some (prop_map <- get_prop_map org parsed ;; ret (field_objects prop_map))
  | Some (inl e) => Some (raise e)
  | None => None
  end.

(** [contact_search(org, text, base_queryset)].  The base queryset is
    the list of its contacts and [st] holds the other tables;
    [base_queryset.filter(query)] keeps the contacts that the predicate
    selects, in the order of the base queryset. *)
Definition contact_search {ext : Externals} (org : Org) (text : string)
           (base_queryset : list Contact) (st : Store) : option (result (list Contact)) :=
  match parse_query text true with
  | Some (inr parsed) =>
      Some (query <- ContactQuery_as_query parsed org ;;
            ret (filter (eval_Q st query) base_queryset))
  | Some (inl e) => Some (raise e)
  | None => None
  end.

(** The predicate reads the table of URNs. *)
Fixpoint reads_urns (q : Q) : bool :=
  match q with
  | Q_id__in_urns _ _ _ => true
  | Q_not a => reads_urns a
  | Q_and a b | Q_or a b => orb (reads_urns a) (reads_urns b)
  | _ => false
  end.

(** What a bare word selects: the contacts whose name contains it and,
    in an organization that is not anonymous, those with a URN whose path
    contains it, in an anonymous organization the contact whose id it
    spells (the id -1 when it spells no number). *)
Definition name_contains (c : Contact) (word : string) : bool :=
  on_some (name c) (fun n => Py.contains (Py.lower n) (Py.lower word)).

Definition urn_path_contains (st : Store) (c : Contact) (word : string) : bool :=
  existsb (fun u => andb (urn_contact_id u =? contact_id c)%Z
                         (Py.contains (Py.lower (path u)) (Py.lower word)))
          (urns st).

Definition bare_word_selects {ext : Externals} (org : Org) (st : Store) (word : string)
           (c : Contact) : bool :=
  orb (name_contains c word)
      (if is_anon org then
         match int word with
         | Some i => (contact_id c =? i)%Z
         | None => (contact_id c =? -1)%Z
         end
       else urn_path_contains st c word).

(** The exceptions a query reports to its caller: [SearchException], and
    [ValueError] for a field of an unknown type. *)
Definition reported (e : exn) : Prop :=
  (exists message, e = SearchException message) \/ (exists message, e = ValueError message).

(** A child of a combination on [prop] that [Condition.as_query] compiles
    with [_build_value_query]: a condition on [prop] other than the test
    for a missing value. *)
Definition plain_comparison (prop : string) (child : QueryNode) : bool :=
  match child with
  | Condition p comparator value =>
      andb (String.eqb p prop)
           (negb (andb (Py.str_in (Py.lower comparator) ["="; "is"]) (String.eqb value "")))
  | _ => false
  end.

(** Two rows of [Value] of one contact and one field. *)
Definition same_slot (r r' : ValueRow) : bool :=
  andb (value_contact_id r =? value_contact_id r')%Z
       (value_contact_field r =? value_contact_field r')%Z.

(** No contact has two rows of [Value] for one field. *)
Fixpoint one_value_per_field (rows : list ValueRow) : bool :=
  match rows with
  | [] => true
  | r :: rest => andb (negb (existsb (same_slot r) rest)) (one_value_per_field rest)
  end.

(** The predicate on rows and the predicate on contacts that
    [SinglePropCombination.as_query] and [Condition.as_query] build for
    one child from the same parameters. *)
Definition child_queries (field : ContactField) (vq : VQ) (q : Q) : Prop :=
  exists rest, vq = VQ_kwargs rest
               /\ q = Q_id__in_values (VQ_kwargs (kw_contact_field field :: rest)).

(** The row belongs to contact [c] and to the field. *)
Definition in_slot (field : ContactField) (c : Contact) (row : ValueRow) : bool :=
  andb (value_contact_id row =? contact_id c)%Z (value_contact_field row =? field_id field)%Z.

(** ** Chains of operands *)

(** How an operand is joined to what precedes it: by the word [and], by
    the word [or] (in any letter case, [text] is the word as written), or
    by juxtaposition. *)
Inductive Connective : Type :=
| by_AND (text : string)
| by_OR (text : string)
| by_juxtaposition.

Definition connective_tokens (k : Connective) : list LexToken :=
  match k with
  | by_AND text => [{| type := T_AND; value := text |}]
  | by_OR text => [{| type := T_OR; value := text |}]
  | by_juxtaposition => []
  end.

Definition connective_op (k : Connective) : BoolOp :=
  match k with
  | by_OR _ => OR
  | _ => AND
  end.

(** The tokens of an operand followed by joined operands. *)
Definition links_tokens (links : list (Connective * Operand)) : list LexToken :=
  flat_map (fun l : Connective * Operand => connective_tokens (fst l) ++ operand_tokens (snd l))%list
           links.

Definition chain_tokens (first : Operand) (links : list (Connective * Operand))
  : list LexToken :=
  (operand_tokens first ++ links_tokens links)%list.

(** The combinations of two children nested to the left:
    [op(op(op(first, c1), c2), c3)]. *)
Definition left_nested (op : BoolOp) (first : QueryNode) (rest : list QueryNode) : QueryNode :=
  fold_left (fun acc c => BoolCombination op [acc; c]) rest first.

(** The token that follows an operand of a chain joined with [op], if
    any, continues the chain. *)
Definition continues (op : BoolOp) (rest : list LexToken) : Prop :=
  match rest with
  | [] => True
  | t :: _ =>
      match op with
      | AND => type t = T_AND \/ type t = TEXT
      | OR => type t = T_OR
      end
  end.

(** ** Comparators by kind of property *)

(** The words of the messages for the kinds of property. *)
Definition kind_name (entry : PropEntry) : string :=
  match entry with
  | PROP_ATTRIBUTE _ => "contact attribute"
  | PROP_SCHEME _ => "URN"
  | PROP_FIELD field =>
      match value_type field with
      | TYPE_TEXT => "text field"
      | TYPE_DECIMAL => "decimal field"
      | TYPE_DATETIME => "datetime field"
      | _ => "location field"
      end
  end.

(** The comparators, of the six, that a kind of property accepts: the
    two of text for attributes, URNs, text fields and location fields,
    the five of order for decimal and datetime fields. *)
Definition accepted_comparators (entry : PropEntry) : list string :=
  match entry with
  | PROP_FIELD field =>
      match value_type field with
      | TYPE_DECIMAL | TYPE_DATETIME => ["="; ">"; ">="; "<"; "<="]
      | _ => ["="; "~"]
      end
  | _ => ["="; "~"]
  end.

(** The comparison of a stored decimal with the number of the literal,
    by the order of the rationals. *)
Definition decimal_match (comparator : string) (d stored : QArith_base.Q) : bool :=
  let c := QArith_base.Qcompare stored d in
  if String.eqb comparator "=" then match c with Eq => true | _ => false end
  else if String.eqb comparator ">" then match c with Gt => true | _ => false end
  else if String.eqb comparator ">=" then match c with Lt => false | _ => true end
  else if String.eqb comparator "<" then match c with Lt => true | _ => false end
  else if String.eqb comparator "<=" then match c with Gt => false | _ => true end
  else false.

(** Contact [c] has a value of [field] whose decimal satisfies [p]. *)
Definition has_decimal_value (st : Store) (c : Contact) (field : ContactField)
           (p : QArith_base.Q -> bool) : bool :=
  existsb (fun row => andb (value_contact_id row =? contact_id c)%Z
                           (andb (value_contact_field row =? field_id field)%Z
                                 (on_some (decimal_value row) p)))
          (values st).

(** ** Tokens *)


(** ** Normalization of comparators, and ASCII text *)

(** The normalization of the specification: [is] to [=], [has] to [~],
    any other comparator to itself. *)
Definition normalized (comparator : string) : string :=
  if String.eqb comparator "is" then "="
  else if String.eqb comparator "has" then "~"
  else comparator.

(** The characters below 128.  On them the word characters of the lexer,
    compiled with [re.UNICODE], are the letters, the digits and the
    underscore, and [lower] changes the letters A to Z only, as
    [SearchLexer.is_word] and [Py.lower] have it. *)
Definition is_ascii (c : ascii) : bool := (nat_of_ascii c <? 128)%nat.

Definition ascii_text (s : string) : bool := forallb is_ascii (list_ascii_of_string s).

(** A letter from A to Z. *)
Definition is_upper (c : ascii) : bool := between 65 90 c.

(** No letter from A to Z. *)
Definition no_upper (s : string) : bool :=
  forallb (fun c => negb (is_upper c)) (list_ascii_of_string s).

(** ** Conditions of parsed trees *)

(** Every property name of the tree is the implicit marker or a word of
    text characters in lower case that is not reserved. *)
Fixpoint props_plain (n : QueryNode) : bool :=
  match n with
  | Condition prop _ _ =>
      orb (String.eqb prop IMPLICIT_PROP)
          (andb (plain_word prop) (String.eqb (Py.lower prop) prop))
  | BoolCombination _ children
  | SinglePropCombination _ _ children => forallb props_plain children
  end.

(** What holds of the parser's stack: the expressions on it have plain
    property names, and the token that led to [St_text] is a word that is
    not reserved. *)
Fixpoint stack_plain (stk : Stack) : Prop :=
  match stk with
  | [] => True
  | (s, v) :: below =>
      match v with
      | V_expression n => props_plain n = true
      | V_token t => s = St_text -> plain_word t = true
      | V_literal _ => True
      end
      /\ stack_plain below
  end.

(** The entry at the bottom of the stack. *)
Fixpoint bottom (stk : Stack) : option (State * SymValue) :=
  match stk with
  | [] => None
  | [entry] => Some entry
  | _ :: below => bottom below
  end.

(** The stack after a first expression has been read and more has
    followed: the expression is at the bottom, in [St_expr]; when it is
    alone there again, it is a combination. *)
Definition after_expression (stk : Stack) : Prop :=
  exists m, bottom stk = Some (St_expr, V_expression m)
            /\ (List.length stk = 1%nat -> isinstance_Condition m = false).

(** One condition, on an explicit property, whose literal is a word of
    text characters that is not reserved. *)
Definition plain_condition (n : QueryNode) : bool :=
  match n with
  | Condition prop _ value => andb (negb (String.eqb prop IMPLICIT_PROP)) (plain_word value)
  | _ => false
  end.

(* ------------------------------------------------------------------ *)
(** * Theorems *)

(** ** Induction on trees *)

Section QueryNode_induction.

Variable P : QueryNode -> Prop.
Hypothesis P_Condition : forall prop comparator value, P (Condition prop comparator value).
Hypothesis P_BoolCombination :
  forall op children, Forall P children -> P (BoolCombination op children).
Hypothesis P_SinglePropCombination :
  forall prop op children, Forall P children -> P (SinglePropCombination prop op children).

Fixpoint QueryNode_tree_ind (n : QueryNode) : P n :=
  let all :=
    fix go (l : list QueryNode) : Forall P l :=
      match l with
      | [] => Forall_nil P
      | c :: r => Forall_cons c (QueryNode_tree_ind c) (go r)
      end in
  match n with
  | Condition p c v => P_Condition p c v
  | BoolCombination op cs => P_BoolCombination op cs (all cs)
  | SinglePropCombination p op cs => P_SinglePropCombination p op cs (all cs)
  end.

End QueryNode_induction.

(** ** [simplify] *)

Lemma simplify_loop_spec (op : BoolOp) (children : list QueryNode) :
  forall simplified,
    simplify_loop op children simplified =
    if existsb (other_op op) children then None
    else Some (simplified ++ flat_map splice children)%list.
Proof.
  induction children as [|child rest IH]; intros simplified.
  - simpl. now rewrite app_nil_r.
  - cbn [simplify_loop existsb flat_map].
    destruct child as [p c v|cop cs|p cop cs]; cbn [splice].
    + change (other_op op (Condition p c v)) with false. cbn [orb].
      rewrite IH, <- app_assoc. reflexivity.
    + change (other_op op (BoolCombination cop cs)) with (negb (BoolOp_eqb cop op)).
      destruct (negb (BoolOp_eqb cop op)); cbn [orb]; [reflexivity|].
      rewrite IH, <- app_assoc. reflexivity.
    + change (other_op op (SinglePropCombination p cop cs)) with (negb (BoolOp_eqb cop op)).
      destruct (negb (BoolOp_eqb cop op)); cbn [orb]; [reflexivity|].
      rewrite IH, <- app_assoc. reflexivity.
Qed.

Lemma simplify_BoolCombination (op : BoolOp) (children : list QueryNode) :
  simplify (BoolCombination op children) =
  if existsb (other_op op) (map simplify children)
  then BoolCombination op (map simplify children)
  else BoolCombination op (flat_map splice (map simplify children)).
Proof.
  simpl. rewrite simplify_loop_spec.
  now destruct (existsb (other_op op) (map simplify children)).
Qed.

Lemma simplify_SinglePropCombination (prop : string) (op : BoolOp) (children : list QueryNode) :
  simplify (SinglePropCombination prop op children) =
  if existsb (other_op op) (map simplify children)
  then SinglePropCombination prop op (map simplify children)
  else BoolCombination op (flat_map splice (map simplify children)).
Proof.
  simpl. rewrite simplify_loop_spec.
  now destruct (existsb (other_op op) (map simplify children)).
Qed.

Lemma BoolOp_eqb_eq (a b : BoolOp) : BoolOp_eqb a b = true <-> a = b.
Proof. destruct a, b; simpl; split; congruence. Qed.

Lemma same_op_children (op : BoolOp) (c : QueryNode) :
  same_op op c = true ->
  flattened_unless_mixed c = true ->
  orb (negb (existsb (same_op op) (splice c))) (existsb (other_op op) (splice c)) = true
  /\ forallb flattened_unless_mixed (splice c) = true.
Proof.
  destruct c as [p cm v|cop cs|p cop cs]; unfold same_op; simpl; try discriminate;
    intros Hop H; apply BoolOp_eqb_eq in Hop; subst cop;
    apply andb_true_iff in H; exact H.
Qed.

(** The children that result from splicing children which are themselves
    flattened unless mixed. *)
Lemma spliced_flattened_unless_mixed (op : BoolOp) (children : list QueryNode) :
  existsb (other_op op) children = false ->
  forallb flattened_unless_mixed children = true ->
  orb (negb (existsb (same_op op) (flat_map splice children)))
      (existsb (other_op op) (flat_map splice children)) = true
  /\ forallb flattened_unless_mixed (flat_map splice children) = true.
Proof.
  induction children as [|c rest IH]; simpl; intros Hno Hall; [auto|].
  apply orb_false_iff in Hno as [Hc Hrest].
  apply andb_true_iff in Hall as [Hfc Hfrest].
  destruct (IH Hrest Hfrest) as [IH1 IH2].
  rewrite !existsb_app, forallb_app.
  destruct (same_op op c) eqn:Hsame.
  - destruct (same_op_children op c Hsame Hfc) as [H1 H2].
    rewrite H2, IH2. split; [|reflexivity].
    destruct (existsb (other_op op) (splice c)); [now rewrite orb_true_r|].
    destruct (existsb (other_op op) (flat_map splice rest)); [now rewrite orb_true_r|].
    rewrite !orb_false_r in *. rewrite negb_true_iff in *. now rewrite H1, IH1.
  - (* a condition: a combination would have the other operator *)
    destruct c as [p cm v|cop cs|p cop cs];
      unfold same_op, other_op in *; simpl in *;
      try (rewrite Hsame in Hc; discriminate).
    rewrite IH2. split; [|reflexivity]. exact IH1.
Qed.

Lemma simplify_flattened_unless_mixed (n : QueryNode) :
  flattened_unless_mixed (simplify n) = true.
Proof.
  induction n as [p c v|op children IH|prop op children IH] using QueryNode_tree_ind.
  - reflexivity.
  - rewrite simplify_BoolCombination.
    assert (Hall : forallb flattened_unless_mixed (map simplify children) = true).
    { rewrite forallb_forall. intros x Hx. apply in_map_iff in Hx as [y [<- Hy]].
      rewrite Forall_forall in IH. now apply IH. }
    destruct (existsb (other_op op) (map simplify children)) eqn:Hmixed.
    + simpl. rewrite Hmixed, Hall. now rewrite orb_true_r.
    + simpl. destruct (spliced_flattened_unless_mixed op _ Hmixed Hall) as [H1 H2].
      now rewrite H1, H2.
  - rewrite simplify_SinglePropCombination.
    assert (Hall : forallb flattened_unless_mixed (map simplify children) = true).
    { rewrite forallb_forall. intros x Hx. apply in_map_iff in Hx as [y [<- Hy]].
      rewrite Forall_forall in IH. now apply IH. }
    destruct (existsb (other_op op) (map simplify children)) eqn:Hmixed.
    + simpl. rewrite Hmixed, Hall. now rewrite orb_true_r.
    + simpl. destruct (spliced_flattened_unless_mixed op _ Hmixed Hall) as [H1 H2].
      now rewrite H1, H2.
Qed.

(** C4, as stated, fails: a combination that mixes a same-operator child
    with a different-operator child is returned unspliced, so
    AND(AND(a, b), OR(c, d)) keeps its nested AND. *)
Lemma simplify_keeps_nested_same_operator :
  let a := Condition "a" "=" "1" in
  let b := Condition "b" "=" "2" in
  let c := Condition "c" "=" "3" in
  let d := Condition "d" "=" "4" in
  let tree := BoolCombination AND [BoolCombination AND [a; b]; BoolCombination OR [c; d]] in
  simplify tree = tree /\ flattened (simplify tree) = false.
Proof. split; reflexivity. Qed.

(** C4, amended: [simplify] simplifies the children first; when none of the
    simplified children is a combination with a different operator, every
    child combination is spliced in place; when one is, the children are
    left as they are, none spliced.  In the result, a combination with a
    direct child combination of its own operator also has a direct child
    combination of the other operator. *)
Theorem simplify_splices_unless_mixed :
  (forall op children,
      simplify (BoolCombination op children) =
      if existsb (other_op op) (map simplify children)
      then BoolCombination op (map simplify children)
      else BoolCombination op (flat_map splice (map simplify children)))
  /\ (forall n, flattened_unless_mixed (simplify n) = true).
Proof.
  split.
  - exact simplify_BoolCombination.
  - exact simplify_flattened_unless_mixed.
Qed.

(** *** What [simplify] keeps *)

Lemma flat_map_leaves_splice (children : list QueryNode) :
  flat_map leaves (flat_map splice children) = flat_map leaves children.
Proof.
  induction children as [|c r IH]; [reflexivity|].
  cbn [flat_map]. rewrite flat_map_app, IH. f_equal.
  destruct c; simpl; try reflexivity.
Qed.

Lemma leaves_simplify (n : QueryNode) : leaves (simplify n) = leaves n.
Proof.
  induction n as [p c v|op children IH|prop op children IH] using QueryNode_tree_ind;
    [reflexivity| |].
  - rewrite simplify_BoolCombination.
    assert (Hmap : flat_map leaves (map simplify children) = flat_map leaves children).
    { induction IH as [|c r Hc Hr IHr]; [reflexivity|]. simpl. now rewrite Hc, IHr. }
    destruct (existsb (other_op op) (map simplify children)); cbn [leaves];
      [|rewrite flat_map_leaves_splice]; exact Hmap.
  - rewrite simplify_SinglePropCombination.
    assert (Hmap : flat_map leaves (map simplify children) = flat_map leaves children).
    { induction IH as [|c r Hc Hr IHr]; [reflexivity|]. simpl. now rewrite Hc, IHr. }
    destruct (existsb (other_op op) (map simplify children)); cbn [leaves];
      [|rewrite flat_map_leaves_splice]; exact Hmap.
Qed.

(** [simplify] changes neither the conditions of a tree nor their order. *)
Lemma simplify_leaves (n : QueryNode) : leaves (simplify n) = leaves n.
Proof. exact (leaves_simplify n). Qed.

Lemma map_fixed (children : list QueryNode) :
  Forall (fun c => simplify c = c) children -> map simplify children = children.
Proof. induction 1 as [|c r Hc Hr IH]; simpl; [reflexivity|]. now rewrite Hc, IH. Qed.

Lemma splice_conditions (op : BoolOp) (children : list QueryNode) :
  existsb (same_op op) children = false ->
  existsb (other_op op) children = false ->
  flat_map splice children = children.
Proof.
  induction children as [|c r IH]; [reflexivity|]. cbn [existsb flat_map].
  intros Hs Ho. apply orb_false_iff in Hs as [Hs Hsr]. apply orb_false_iff in Ho as [Ho Hor].
  rewrite (IH Hsr Hor).
  destruct c as [p cm v|cop cs|p cop cs]; [reflexivity| |];
    unfold same_op, other_op in Hs, Ho; simpl in Hs, Ho;
    rewrite Hs in Ho; discriminate.
Qed.

(** A combination that is flattened unless mixed and whose children are
    already simplified is returned as it is. *)
Lemma simplify_fixed_BoolCombination (op : BoolOp) (children : list QueryNode) :
  Forall (fun c => simplify c = c) children ->
  orb (negb (existsb (same_op op) children)) (existsb (other_op op) children) = true ->
  simplify (BoolCombination op children) = BoolCombination op children.
Proof.
  intros Hfix Hshape. rewrite simplify_BoolCombination, (map_fixed _ Hfix).
  destruct (existsb (other_op op) children) eqn:Ho; [reflexivity|].
  rewrite orb_false_r in Hshape. apply negb_true_iff in Hshape.
  now rewrite (splice_conditions op children Hshape Ho).
Qed.

Lemma simplify_fixed_SinglePropCombination (prop : string) (op : BoolOp)
      (children : list QueryNode) :
  Forall (fun c => simplify c = c) children ->
  existsb (other_op op) children = true ->
  simplify (SinglePropCombination prop op children) = SinglePropCombination prop op children.
Proof.
  intros Hfix Ho. now rewrite simplify_SinglePropCombination, (map_fixed _ Hfix), Ho.
Qed.

Lemma simplified_and_children (n : QueryNode) :
  simplify (simplify n) = simplify n
  /\ Forall (fun c => simplify c = c) (node_children (simplify n)).
Proof.
  induction n as [p c v|op children IH|prop op children IH] using QueryNode_tree_ind.
  - split; [reflexivity|constructor].
  - assert (Hkids : Forall (fun c => simplify c = c) (map simplify children)).
    { rewrite Forall_forall in *. intros x Hx. apply in_map_iff in Hx as [y [<- Hy]].
      exact (proj1 (IH y Hy)). }
    assert (Hgrand : Forall (fun c => simplify c = c) (flat_map splice (map simplify children))).
    { rewrite Forall_forall in *. intros g Hg. apply in_flat_map in Hg as [c [Hc Hg]].
      pose proof (Hkids c Hc) as Hcfix.
      apply in_map_iff in Hc as [y [<- Hy]].
      destruct (simplify y) as [p cm v|cop cs|p cop cs] eqn:E; simpl in Hg.
      - destruct Hg as [<-|[]]. reflexivity.
      - pose proof (proj2 (IH y Hy)) as Hch. rewrite E in Hch. simpl in Hch.
        rewrite Forall_forall in Hch. now apply Hch.
      - pose proof (proj2 (IH y Hy)) as Hch. rewrite E in Hch. simpl in Hch.
        rewrite Forall_forall in Hch. now apply Hch. }
    pose proof (simplify_flattened_unless_mixed (BoolCombination op children)) as Hshape.
    rewrite simplify_BoolCombination in Hshape |- *.
    destruct (existsb (other_op op) (map simplify children)) eqn:Ho;
      simpl in Hshape; apply andb_true_iff in Hshape as [Hshape _].
    + split; [|exact Hkids]. now apply simplify_fixed_BoolCombination.
    + split; [|exact Hgrand]. now apply simplify_fixed_BoolCombination.
  - assert (Hkids : Forall (fun c => simplify c = c) (map simplify children)).
    { rewrite Forall_forall in *. intros x Hx. apply in_map_iff in Hx as [y [<- Hy]].
      exact (proj1 (IH y Hy)). }
    assert (Hgrand : Forall (fun c => simplify c = c) (flat_map splice (map simplify children))).
    { rewrite Forall_forall in *. intros g Hg. apply in_flat_map in Hg as [c [Hc Hg]].
      pose proof (Hkids c Hc) as Hcfix.
      apply in_map_iff in Hc as [y [<- Hy]].
      destruct (simplify y) as [p cm v|cop cs|p cop cs] eqn:E; simpl in Hg.
      - destruct Hg as [<-|[]]. reflexivity.
      - pose proof (proj2 (IH y Hy)) as Hch. rewrite E in Hch. simpl in Hch.
        rewrite Forall_forall in Hch. now apply Hch.
      - pose proof (proj2 (IH y Hy)) as Hch. rewrite E in Hch. simpl in Hch.
        rewrite Forall_forall in Hch. now apply Hch. }
    pose proof (simplify_flattened_unless_mixed (SinglePropCombination prop op children))
      as Hshape.
    rewrite simplify_SinglePropCombination in Hshape |- *.
    destruct (existsb (other_op op) (map simplify children)) eqn:Ho;
      simpl in Hshape; apply andb_true_iff in Hshape as [Hshape _].
    + split; [|exact Hkids]. now apply simplify_fixed_SinglePropCombination.
    + split; [|exact Hgrand]. now apply simplify_fixed_BoolCombination.
Qed.

(** [simplify] is idempotent. *)
Lemma simplify_idempotent (n : QueryNode) : simplify (simplify n) = simplify n.
Proof. exact (proj1 (simplified_and_children n)). Qed.

(** ** [split_by_prop] *)

(** The members of a group of [children_by_prop] are children with the
    group's key. *)
Definition groups_ok (children : list QueryNode) (d : OrderedDict) : Prop :=
  forall k g, In (k, g) d -> forall c, In c g -> In c children /\ child_prop c = k.

Lemma key_eqb_eq (a b : option string) : key_eqb a b = true <-> a = b.
Proof.
  destruct a as [x|], b as [y|]; simpl; split; try congruence.
  - intros H. apply String.eqb_eq in H. now subst.
  - intros H. injection H as ->. apply String.eqb_refl.
Qed.

Lemma od_append_groups_ok (children : list QueryNode) (d : OrderedDict) (c : QueryNode) :
  groups_ok children d -> In c children ->
  groups_ok children (od_append d (child_prop c) c).
Proof.
  intros Hd Hc. induction d as [|[k g] rest IH]; simpl.
  - intros k' g' [Heq|[]] c' Hc'. injection Heq as <- <-.
    destruct Hc' as [<-|[]]. auto.
  - destruct (key_eqb (child_prop c) k) eqn:Hk.
    + apply key_eqb_eq in Hk. intros k' g' [Heq|Hin] c' Hc'.
      * injection Heq as <- <-. apply in_app_or in Hc' as [Hc'|[<-|[]]].
        -- apply (Hd k g); [now left|assumption].
        -- auto.
      * apply (Hd k' g'); [now right|assumption].
    + intros k' g' [Heq|Hin] c' Hc'.
      * injection Heq as <- <-. apply (Hd k g); [now left|assumption].
      * refine (IH _ k' g' Hin c' Hc').
        intros k2 g2 H2. apply (Hd k2 g2). now right.
Qed.

Lemma children_by_prop_groups_ok (children : list QueryNode) :
  groups_ok children (children_by_prop children).
Proof.
  unfold children_by_prop.
  assert (H : forall l d, (forall c, In c l -> In c children) -> groups_ok children d ->
                          groups_ok children
                            (fold_left (fun d child => od_append d (child_prop child) child) l d)).
  { induction l as [|c l IH]; simpl; intros d Hl Hd; [assumption|].
    apply IH; [intros; apply Hl; now right|].
    apply od_append_groups_ok; [assumption|apply Hl; now left]. }
  apply H; [auto|]. intros k g [].
Qed.

Lemma group_asserted (p : string) (g : list QueryNode) :
  (forall c, In c g -> child_prop c = Some p) ->
  SinglePropCombination_assert p g = true /\ forallb asserted g = true.
Proof.
  intros H. unfold SinglePropCombination_assert. rewrite !forallb_forall.
  split; intros c Hc; specialize (H c Hc);
    destruct c as [p' cm v| |]; simpl in *; try discriminate.
  - injection H as ->. apply String.eqb_refl.
  - reflexivity.
Qed.

Lemma new_children_asserted (op : BoolOp) (children : list QueryNode) (d : OrderedDict) :
  forallb asserted children = true ->
  groups_ok children d ->
  forallb asserted (new_children op d) = true.
Proof.
  intros Hall Hd. unfold new_children. rewrite forallb_forall. intros x Hx.
  apply in_flat_map in Hx as [[k g] [Hin Hx]].
  assert (Hmember : forall c, In c g -> asserted c = true).
  { intros c Hc. rewrite forallb_forall in Hall. apply Hall. now apply (Hd k g Hin c). }
  destruct k as [p|]; [|now apply Hmember].
  destruct (1 <? List.length g)%nat; [|now apply Hmember].
  destruct Hx as [<-|[]]. simpl.
  destruct (group_asserted p g) as [H1 H2].
  - intros c Hc. now apply (Hd (Some p) g Hin c).
  - now rewrite H1, H2.
Qed.

Lemma split_node_asserted (op : BoolOp) (children : list QueryNode) :
  forallb asserted children = true -> asserted (split_node op children) = true.
Proof.
  intros Hall. unfold split_node.
  pose proof (new_children_asserted op children _ Hall (children_by_prop_groups_ok children)) as H.
  destruct (new_children op (children_by_prop children)) as [|x [|y r]]; try exact H.
  simpl in H. now rewrite andb_true_r in H.
Qed.

Lemma asserted_split_by_prop (n : QueryNode) : asserted (split_by_prop n) = true.
Proof.
  induction n as [p c v|op children IH|prop op children IH] using QueryNode_tree_ind;
    [reflexivity| |]; simpl; apply split_node_asserted;
    rewrite forallb_forall; intros x Hx; apply in_map_iff in Hx as [y [<- Hy]];
    rewrite Forall_forall in IH; now apply IH.
Qed.

(** The assertion of [SinglePropCombination.__init__] holds of every node
    that [split_by_prop] constructs: only conditions on one property are
    wrapped. *)
Lemma split_by_prop_asserted (n : QueryNode) : asserted (split_by_prop n) = true.
Proof. exact (asserted_split_by_prop n). Qed.

(** [split_by_prop] wraps only groups of conditions; the claims about it
    follow. *)

Lemma get_prop_map_implicit_only (org : Org) (root : QueryNode) :
  forallb (fun p => String.eqb p IMPLICIT_PROP) (get_prop_names root) = true ->
  get_prop_map org root = inr [].
Proof.
  intros H. unfold get_prop_map.
  assert (Hnames : initial_prop_map (get_prop_names root) = []).
  { unfold initial_prop_map.
    assert (G : forall names (d : dict (option PropEntry)),
               forallb (fun p => String.eqb p IMPLICIT_PROP) names = true ->
               fold_left
                 (fun d p => if negb (String.eqb p IMPLICIT_PROP) then dict_set d p None else d)
                 names d = d).
    { induction names as [|p r IH]; intros d Hall; [reflexivity|].
      simpl in Hall. apply andb_true_iff in Hall as [Hp Hr].
      simpl. rewrite Hp. simpl. apply IH, Hr. }
    apply G, H. }
  rewrite Hnames. unfold resolve_fields. simpl.
  assert (Hf : forall l, filter (fun field : ContactField => false) l = []).
  { induction l; simpl; auto. }
  rewrite Hf. reflexivity.
Qed.

(** C2: two sibling bare-text conditions do not remain ungrouped.  The key
    of an implicit-property condition in [children_by_prop] is the marker
    ["*"], not [None], so [split_by_prop] wraps the two conditions of
    [bob jim] in a [SinglePropCombination] on ["*"]; the property map has
    no entry for ["*"] and the compilation of the optimized query raises
    [KeyError]. *)
Theorem split_by_prop_wraps_implicit_conditions :
  let bob := Condition "*" "=" "bob" in
  let jim := Condition "*" "=" "jim" in
  parse_query "bob jim" false = Some (inr (BoolCombination AND [bob; jim]))
  /\ split_by_prop (BoolCombination AND [bob; jim]) = SinglePropCombination "*" AND [bob; jim]
  /\ parse_query "bob jim" true = Some (inr (SinglePropCombination "*" AND [bob; jim]))
  /\ (forall (ext : Externals) (org : Org),
        exists q, ContactQuery_as_query (BoolCombination AND [bob; jim]) org = inr q)
  /\ (forall (ext : Externals) (org : Org),
        ContactQuery_as_query (SinglePropCombination "*" AND [bob; jim]) org
        = inl (KeyError "*")).
Proof.
  intros bob jim. repeat split; try reflexivity.
  - intros ext org. unfold ContactQuery_as_query.
    rewrite (get_prop_map_implicit_only org (BoolCombination AND [bob; jim]) eq_refl).
    simpl. eexists. reflexivity.
  - intros ext org. unfold ContactQuery_as_query.
    rewrite (get_prop_map_implicit_only org (SinglePropCombination "*" AND [bob; jim]) eq_refl).
    reflexivity.
Qed.

(** ** Equality with the empty string *)

(** A standalone condition [prop = ""] on a custom field of any type
    selects the contacts that have no value of the field. *)
Lemma empty_equality_standalone (ext : Externals) (org : Org) (prop_map : dict PropEntry)
      (prop : string) (field : ContactField) :
  prop <> IMPLICIT_PROP ->
  dict_get prop_map prop = Some (PROP_FIELD field) ->
  exists q,
    Condition_as_query prop "=" "" org prop_map = inr q
    /\ forall st c, eval_Q st q c = negb (has_value st c field).
Proof.
  intros Hprop Hget. unfold Condition_as_query, prop_map_get.
  apply String.eqb_neq in Hprop. rewrite Hprop, Hget. simpl.
  eexists. split; [reflexivity|].
  intros st c. simpl. unfold has_value. f_equal.
  induction (values st) as [|row rows IH]; simpl; [reflexivity|].
  rewrite IH, andb_true_r. reflexivity.
Qed.

(** C7: the empty-string rule is not applied to a child of a
    [SinglePropCombination].  For the text field [email], the standalone
    condition [email = ""] selects Ann, who has no value of the field; the
    same condition as a child of [OR[email](= "", = x)] is compiled by
    [build_value_query_params] to a case-insensitive equality with the
    empty string, and the combination selects Bob only. *)
Theorem empty_equality_in_SinglePropCombination (ext : Externals) :
  let prop_map := [("email", PROP_FIELD Example.email)] in
  let absent := Condition "email" "=" "" in
  let x := Condition "email" "=" "x" in
  (exists q, as_query absent Example.org prop_map = inr q
             /\ eval_Q Example.store q Example.ann = true
             /\ eval_Q Example.store q Example.bob = false)
  /\ as_query (SinglePropCombination "email" OR [absent; x]) Example.org prop_map
     = inr (Q_id__in_values
              (VQ_and (VQ_kwargs [kw_contact_field Example.email])
                      (VQ_or (VQ_kwargs [kw_string_value iexact ""])
                             (VQ_kwargs [kw_string_value iexact "x"]))))
  /\ (exists q', as_query (SinglePropCombination "email" OR [absent; x]) Example.org prop_map
                 = inr q'
                 /\ eval_Q Example.store q' Example.ann = false
                 /\ eval_Q Example.store q' Example.bob = true).
Proof.
  intros prop_map absent x. split; [|split].
  - eexists. split; [reflexivity|]. split; reflexivity.
  - reflexivity.
  - eexists. split; [reflexivity|]. split; reflexivity.
Qed.

(** ** The optimizer and what a query selects *)

(** C1: the optimized query does not always select what the query selects,
    and its compilation does not always succeed when that of the query
    does.  [email = "" OR email = x] selects Ann (no value of [email]) and
    Bob; optimized, it is a [SinglePropCombination] whose compilation drops
    the empty-string rule and selects Bob only.  [bob jim] compiles;
    optimized, it raises [KeyError]. *)
Theorem optimized_changes_selection (ext : Externals) :
  let text := "email = " ++ quoted "" ++ " OR email = x" in
  (exists root q q',
      parse_query text false = Some (inr root)
      /\ parse_query text true = Some (inr (optimized root))
      /\ ContactQuery_as_query root Example.org = inr q
      /\ ContactQuery_as_query (optimized root) Example.org = inr q'
      /\ eval_Q Example.store q Example.ann = true
      /\ eval_Q Example.store q' Example.ann = false)
  /\ (exists root q,
         parse_query "bob jim" false = Some (inr root)
         /\ ContactQuery_as_query root Example.org = inr q
         /\ ContactQuery_as_query (optimized root) Example.org = inl (KeyError "*")).
Proof.
  intros text. split.
  - do 3 eexists. repeat split; reflexivity.
  - do 2 eexists. repeat split; reflexivity.
Qed.

(** ** [get_prop_map] *)

Lemma dict_get_set {V} (d : dict V) (k : string) (v : V) (k' : string) :
  dict_get (dict_set d k v) k' = if String.eqb k' k then Some v else dict_get d k'.
Proof.
  induction d as [|[k0 v0] r IH]; simpl.
  - destruct (String.eqb k' k); reflexivity.
  - destruct (String.eqb k k0) eqn:E; simpl.
    + apply String.eqb_eq in E. subst k0.
      destruct (String.eqb k' k); reflexivity.
    + rewrite IH. destruct (String.eqb k' k0) eqn:E0; [|reflexivity].
      apply String.eqb_eq in E0. subst k0.
      destruct (String.eqb k' k) eqn:E1; [|reflexivity].
      apply String.eqb_eq in E1. subst k'. rewrite String.eqb_refl in E. discriminate.
Qed.

Lemma str_in_keys {V} (d : dict V) (k : string) :
  Py.str_in k (dict_keys d) = has_key d k.
Proof.
  unfold has_key, Py.str_in, dict_keys.
  induction d as [|[k0 v0] r IH]; simpl; [reflexivity|].
  destruct (String.eqb k k0); simpl; [reflexivity|exact IH].
Qed.

Lemma has_key_set {V} (d : dict V) (k : string) (v : V) (k' : string) :
  has_key (dict_set d k v) k' = orb (String.eqb k' k) (has_key d k').
Proof.
  unfold has_key. rewrite dict_get_set. now destruct (String.eqb k' k).
Qed.

Lemma dict_keys_set_NoDup {V} (d : dict V) (k : string) (v : V) :
  NoDup (dict_keys d) -> NoDup (dict_keys (dict_set d k v)).
Proof.
  unfold dict_keys.
  induction d as [|[k0 v0] r IH]; simpl; intros H.
  - constructor; [intros []|constructor].
  - inversion H as [|? ? Hnotin Hr]; subst.
    destruct (String.eqb k k0) eqn:E; simpl.
    + constructor; assumption.
    + constructor; [|now apply IH].
      intros Hin. apply Hnotin. clear - Hin E.
      induction r as [|[k1 v1] r IH]; simpl in *.
      * destruct Hin as [->|[]]. rewrite String.eqb_refl in E. discriminate.
      * destruct (String.eqb k k1) eqn:E1; simpl in *; [exact Hin|].
        destruct Hin as [->|Hin]; [now left|right; now apply IH].
Qed.

Lemma dict_get_In {V} (d : dict V) (k : string) (v : V) :
  NoDup (dict_keys d) -> In (k, v) d -> dict_get d k = Some v.
Proof.
  unfold dict_keys.
  induction d as [|[k0 v0] r IH]; simpl; intros Hnd Hin; [destruct Hin|].
  inversion Hnd as [|? ? Hnotin Hr]; subst.
  destruct Hin as [Heq|Hin].
  - injection Heq as -> ->. now rewrite String.eqb_refl.
  - destruct (String.eqb k k0) eqn:E; [|now apply IH].
    apply String.eqb_eq in E. subst k0. exfalso. apply Hnotin.
    apply in_map_iff. exists (k, v). auto.
Qed.

(** The initial map: every name but the marker, without a value. *)
Lemma initial_prop_map_get (names : list string) (p : string) :
  dict_get (initial_prop_map names) p =
  if andb (Py.str_in p names) (negb (String.eqb p IMPLICIT_PROP)) then Some None else None.
Proof.
  unfold initial_prop_map.
  assert (G : forall d : dict (option PropEntry),
             dict_get (fold_left
                         (fun d p => if negb (String.eqb p IMPLICIT_PROP)
                                     then dict_set d p None else d) names d) p =
             if andb (Py.str_in p names) (negb (String.eqb p IMPLICIT_PROP))
             then Some None else dict_get d p).
  { induction names as [|n r IH]; intros d; [reflexivity|].
    cbn [fold_left]. rewrite IH. unfold Py.str_in. cbn [existsb].
    fold (Py.str_in p r).
    destruct (String.eqb p n) eqn:E.
    - apply String.eqb_eq in E. subst n.
      destruct (negb (String.eqb p IMPLICIT_PROP)) eqn:Ep.
      + rewrite dict_get_set, String.eqb_refl, !andb_true_r.
        now destruct (Py.str_in p r).
      + now rewrite !andb_false_r.
    - cbn [orb].
      destruct (andb (Py.str_in p r) (negb (String.eqb p IMPLICIT_PROP))); [reflexivity|].
      destruct (negb (String.eqb n IMPLICIT_PROP)); [|reflexivity].
      now rewrite dict_get_set, E. }
  rewrite G. reflexivity.
Qed.

Lemma initial_prop_map_NoDup (names : list string) :
  NoDup (dict_keys (initial_prop_map names)).
Proof.
  unfold initial_prop_map.
  assert (G : forall d : dict (option PropEntry),
             NoDup (dict_keys d) ->
             NoDup (dict_keys (fold_left
                                 (fun d p => if negb (String.eqb p IMPLICIT_PROP)
                                             then dict_set d p None else d) names d))).
  { induction names as [|n r IH]; intros d Hd; [exact Hd|].
    cbn [fold_left]. apply IH.
    destruct (negb (String.eqb n IMPLICIT_PROP)); [now apply dict_keys_set_NoDup|exact Hd]. }
  apply G. constructor.
Qed.

(** After the loop over the organization's fields. *)
Lemma resolve_fields_get (org : Org) (prop_map : dict (option PropEntry)) (p : string) :
  dict_get (resolve_fields org prop_map) p =
  match last_active_field org p with
  | Some field => if has_key prop_map p then Some (Some (PROP_FIELD field)) else None
  | None => dict_get prop_map p
  end.
Proof.
  unfold resolve_fields, last_active_field.
  induction (org_fields org) as [|field fields IH] using rev_ind; [reflexivity|].
  rewrite filter_app, fold_left_app, rev_app_distr. cbn [filter rev app find].
  rewrite str_in_keys.
  destruct (String.eqb (key field) p) eqn:E.
  - apply String.eqb_eq in E. subst p.
    destruct (is_active field); cbn [andb].
    + destruct (has_key prop_map (key field)) eqn:Hk; cbn [andb fold_left].
      * now rewrite dict_get_set, String.eqb_refl.
      * rewrite IH. unfold has_key in Hk.
        destruct (dict_get prop_map (key field)); [discriminate|].
        now destruct (find _ (rev fields)).
    + rewrite andb_false_r. cbn [fold_left]. exact IH.
  - cbn [andb].
    destruct (andb (has_key prop_map (key field)) (is_active field)); cbn [fold_left].
    + rewrite dict_get_set. rewrite String.eqb_sym, E. exact IH.
    + exact IH.
Qed.

Lemma resolve_fields_has_key (org : Org) (prop_map : dict (option PropEntry)) (p : string) :
  has_key (resolve_fields org prop_map) p = has_key prop_map p.
Proof.
  unfold has_key at 1. rewrite resolve_fields_get. unfold has_key.
  destruct (last_active_field org p), (dict_get prop_map p); reflexivity.
Qed.

Lemma resolve_fields_NoDup (org : Org) (prop_map : dict (option PropEntry)) :
  NoDup (dict_keys prop_map) -> NoDup (dict_keys (resolve_fields org prop_map)).
Proof.
  unfold resolve_fields. generalize (filter
    (fun field => andb (Py.str_in (key field) (dict_keys prop_map)) (is_active field))
    (org_fields org)).
  intros l. revert prop_map. induction l as [|f l IH]; intros d Hd; [exact Hd|].
  cbn [fold_left]. apply IH. now apply dict_keys_set_NoDup.
Qed.

Lemma resolve_attributes_get (d : dict (option PropEntry)) (p : string) :
  dict_get (resolve_attributes d) p =
  if andb (Py.str_in p SEARCHABLE_ATTRIBUTES) (has_key d p)
  then Some (Some (PROP_ATTRIBUTE p)) else dict_get d p.
Proof.
  assert (Hs : Py.str_in p SEARCHABLE_ATTRIBUTES = String.eqb p "name").
  { unfold Py.str_in, SEARCHABLE_ATTRIBUTES. cbn [existsb]. now rewrite orb_false_r. }
  rewrite Hs. unfold resolve_attributes, SEARCHABLE_ATTRIBUTES. cbn [fold_left].
  rewrite str_in_keys.
  destruct (String.eqb p "name") eqn:E.
  - apply String.eqb_eq in E. subst p. cbn [andb].
    destruct (has_key d "name") eqn:Hk; [|reflexivity].
    now rewrite dict_get_set, String.eqb_refl.
  - cbn [andb]. destruct (has_key d "name"); [|reflexivity].
    now rewrite dict_get_set, E.
Qed.

Lemma resolve_schemes_get (d : dict (option PropEntry)) (p : string) :
  dict_get (resolve_schemes d) p =
  if andb (Py.str_in p SEARCHABLE_SCHEMES) (has_key d p)
  then Some (Some (PROP_SCHEME p)) else dict_get d p.
Proof.
  assert (Hs : Py.str_in p SEARCHABLE_SCHEMES
               = orb (String.eqb p "tel") (String.eqb p "twitter")).
  { unfold Py.str_in, SEARCHABLE_SCHEMES. cbn [existsb]. now rewrite orb_false_r. }
  rewrite Hs. unfold resolve_schemes, SEARCHABLE_SCHEMES. cbn [fold_left].
  set (d1 := if Py.str_in "tel" (dict_keys d)
             then dict_set d "tel" (Some (PROP_SCHEME "tel")) else d).
  assert (H1 : dict_get d1 p = if andb (String.eqb p "tel") (has_key d p)
                               then Some (Some (PROP_SCHEME p)) else dict_get d p).
  { unfold d1. rewrite str_in_keys.
    destruct (String.eqb p "tel") eqn:E.
    - apply String.eqb_eq in E. subst p. cbn [andb].
      destruct (has_key d "tel"); [|reflexivity].
      now rewrite dict_get_set, String.eqb_refl.
    - cbn [andb]. destruct (has_key d "tel"); [|reflexivity].
      now rewrite dict_get_set, E. }
  assert (K1 : forall q, has_key d1 q = has_key d q).
  { intros q. unfold d1. rewrite str_in_keys.
    destruct (has_key d "tel") eqn:Hk; [|reflexivity].
    rewrite has_key_set. destruct (String.eqb q "tel") eqn:E; [|reflexivity].
    apply String.eqb_eq in E. subst q. now rewrite Hk. }
  rewrite str_in_keys, K1.
  destruct (String.eqb p "twitter") eqn:E.
  - apply String.eqb_eq in E. subst p. cbn [orb andb].
    destruct (has_key d "twitter") eqn:Hk.
    + now rewrite dict_get_set, String.eqb_refl.
    + rewrite H1. reflexivity.
  - rewrite orb_false_r.
    destruct (has_key d "twitter").
    + rewrite dict_get_set, E. exact H1.
    + exact H1.
Qed.

Lemma fold_set_NoDup (names : list string) (mk : string -> option PropEntry)
      (d : dict (option PropEntry)) :
  NoDup (dict_keys d) ->
  NoDup (dict_keys (fold_left (fun d k => if Py.str_in k (dict_keys d)
                                          then dict_set d k (mk k) else d) names d)).
Proof.
  revert d. induction names as [|n r IH]; intros d Hd; [exact Hd|].
  cbn [fold_left]. apply IH.
  destruct (Py.str_in n (dict_keys d)); [now apply dict_keys_set_NoDup|exact Hd].
Qed.

(** The map before the last loop: every name of the query but the marker,
    with its resolution. *)
Lemma resolved_get (org : Org) (names : list string) (p : string) :
  dict_get (resolve_schemes (resolve_attributes (resolve_fields org (initial_prop_map names)))) p =
  if andb (Py.str_in p names) (negb (String.eqb p IMPLICIT_PROP))
  then Some (resolution org p) else None.
Proof.
  rewrite resolve_schemes_get.
  assert (K : has_key (resolve_attributes (resolve_fields org (initial_prop_map names))) p
              = andb (Py.str_in p names) (negb (String.eqb p IMPLICIT_PROP))).
  { unfold has_key at 1. rewrite resolve_attributes_get, resolve_fields_has_key.
    unfold has_key at 1. rewrite resolve_fields_get.
    unfold has_key. rewrite initial_prop_map_get.
    destruct (andb (Py.str_in p names) (negb (String.eqb p IMPLICIT_PROP)));
      [|now destruct (last_active_field org p), (Py.str_in p SEARCHABLE_ATTRIBUTES)].
    now destruct (Py.str_in p SEARCHABLE_ATTRIBUTES), (last_active_field org p). }
  rewrite K, resolve_attributes_get, resolve_fields_has_key, resolve_fields_get.
  unfold has_key. rewrite initial_prop_map_get. unfold resolution.
  destruct (andb (Py.str_in p names) (negb (String.eqb p IMPLICIT_PROP)));
    destruct (Py.str_in p SEARCHABLE_SCHEMES), (Py.str_in p SEARCHABLE_ATTRIBUTES),
      (last_active_field org p); reflexivity.
Qed.

Lemma resolved_NoDup (org : Org) (names : list string) :
  NoDup (dict_keys (resolve_schemes (resolve_attributes (resolve_fields org (initial_prop_map names))))).
Proof.
  apply (fold_set_NoDup SEARCHABLE_SCHEMES (fun k => Some (PROP_SCHEME k))).
  apply (fold_set_NoDup SEARCHABLE_ATTRIBUTES (fun k => Some (PROP_ATTRIBUTE k))).
  apply resolve_fields_NoDup, initial_prop_map_NoDup.
Qed.

Lemma check_resolved_inr (items : dict (option PropEntry)) (prop_map : dict PropEntry) :
  check_resolved items = inr prop_map ->
  forall p v, dict_get items p = Some v ->
              exists e, v = Some e /\ dict_get prop_map p = Some e.
Proof.
  revert prop_map. induction items as [|[k [e|]] r IH]; simpl; intros pm H p v Hget;
    try discriminate.
  destruct (check_resolved r) as [err|d] eqn:Hr; simpl in H; [discriminate|].
  injection H as <-. simpl.
  destruct (String.eqb p k).
  - injection Hget as <-. eauto.
  - eapply IH; eauto.
Qed.

Lemma check_resolved_inl (items : dict (option PropEntry)) (e : exn) :
  check_resolved items = inl e ->
  exists p, In (p, None) items /\ e = SearchException ("Unrecognized field: " ++ p).
Proof.
  induction items as [|[k [v|]] r IH]; simpl; intros H; try discriminate.
  - destruct (check_resolved r) as [err|d] eqn:Hr; simpl in H; [|discriminate].
    injection H as <-. destruct (IH eq_refl) as [p [Hin He]]. eauto.
  - injection H as <-. eauto.
Qed.

Lemma str_in_In (x : string) (xs : list string) : Py.str_in x xs = true <-> In x xs.
Proof.
  unfold Py.str_in. rewrite existsb_exists. split.
  - intros [y [Hy E]]. apply String.eqb_eq in E. now subst.
  - intros H. exists x. split; [assumption|apply String.eqb_refl].
Qed.

(** C3, as stated, fails: a name that is both the key of an active custom
    field and a searchable attribute resolves as the attribute. *)
Lemma field_named_like_attribute_resolves_as_attribute :
  spec_resolution Example.org_with_name_field "name" = Some (PROP_FIELD Example.name_field)
  /\ get_prop_map Example.org_with_name_field (Condition "name" "=" "bob")
     = inr [("name", PROP_ATTRIBUTE "name")].
Proof. split; reflexivity. Qed.

(** C3, amended: [get_prop_map] resolves each property name of the query
    but the implicit marker; the three lookups run in the order custom
    field, attribute, URN scheme and each overrides the ones before, so the
    last match wins: a searchable URN scheme, else a searchable attribute,
    else the active custom field with that key.  When a name matches none
    the result is the error [Unrecognized field], naming such a name. *)
Theorem get_prop_map_last_match_wins (org : Org) (root : QueryNode) :
  match get_prop_map org root with
  | inr prop_map =>
      forall p, In p (get_prop_names root) -> p <> IMPLICIT_PROP ->
                exists e, dict_get prop_map p = Some e /\ resolution org p = Some e
  | inl e =>
      exists p, In p (get_prop_names root) /\ p <> IMPLICIT_PROP
                /\ resolution org p = None
                /\ e = SearchException ("Unrecognized field: " ++ p)
  end.
Proof.
  unfold get_prop_map.
  set (items := resolve_schemes (resolve_attributes
                  (resolve_fields org (initial_prop_map (get_prop_names root))))).
  pose proof (resolved_get org (get_prop_names root)) as Hget. fold items in Hget.
  pose proof (resolved_NoDup org (get_prop_names root)) as Hnd. fold items in Hnd.
  destruct (check_resolved items) as [e|prop_map] eqn:Hcheck.
  - apply check_resolved_inl in Hcheck as [p [Hin He]].
    pose proof (dict_get_In items p None Hnd Hin) as Hp.
    rewrite Hget in Hp.
    destruct (Py.str_in p (get_prop_names root)) eqn:Hnames; [|discriminate].
    destruct (String.eqb p IMPLICIT_PROP) eqn:Himp; [discriminate|].
    simpl in Hp. injection Hp as Hres.
    exists p. repeat split; try assumption.
    + now apply str_in_In.
    + now apply String.eqb_neq.
  - intros p Hin Hp.
    apply str_in_In in Hin. apply String.eqb_neq in Hp.
    specialize (Hget p). rewrite Hin, Hp in Hget. simpl in Hget.
    destruct (check_resolved_inr items prop_map Hcheck p _ Hget) as [e [He Hpm]].
    eauto.
Qed.

(** ** Conditions on datetime fields *)

Lemma existsb_pointwise {A} (f g : A -> bool) (l : list A) :
  (forall a, f a = g a) -> existsb f l = existsb g l.
Proof.
  intros H. induction l as [|a r IH]; simpl; [reflexivity|]. now rewrite H, IH.
Qed.

Section Datetime.

Context {ext : Externals}.

(** C6: a condition on a datetime field whose literal is a date with
    start [day_start] compiles to a predicate on the field's instants:
    [=] selects those in [day_start, day_start + 24h), [<=] those before
    [day_start + 24h], [>] those at or after [day_start + 24h], [>=] and
    [<] compare with [day_start]; a literal that [str_to_datetime] does
    not read as a date raises [Unable to parse date], naming the literal.
    The empty literal with [<], [<=], [>] or [>=] is a literal as any
    other; only [=] with the empty literal is set apart: it is the test
    for a missing value.  The 24 hours are [hours_24], written in
    seconds; the code adds [timedelta(days=1)], [one_day]. *)
Theorem datetime_condition_compiles_by_day
        (org : Org) (prop_map : dict PropEntry)
        (prop comparator value : string) (field : ContactField) :
  prop <> IMPLICIT_PROP ->
  dict_get prop_map prop = Some (PROP_FIELD field) ->
  value_type field = TYPE_DATETIME ->
  In comparator ["="; "<="; ">"; ">="; "<"] ->
  ~ (comparator = "=" /\ value = "") ->
  match str_to_datetime value (org_timezone field) (org_dayfirst field) with
  | Some day_start =>
      exists q,
        as_query (Condition prop comparator value) org prop_map = inr q
        /\ forall st c,
             eval_Q st q c
             = has_datetime_value st c field (spec_datetime_match comparator day_start)
  | None =>
      as_query (Condition prop comparator value) org prop_map
      = inl (SearchException ("Unable to parse date: " ++ value))
  end.
Proof.
  intros Hprop Hget Htype Hcmp Hvalue.
  apply String.eqb_neq in Hprop.
  assert (Habs : andb (Py.str_in (Py.lower comparator) ["="; "is"]) (String.eqb value "")
                 = false).
  { destruct (String.eqb value "") eqn:Hv; [|apply andb_false_r].
    apply String.eqb_eq in Hv. rewrite andb_true_r. simpl in Hcmp.
    destruct Hcmp as [<-|[<-|[<-|[<-|[<-|[]]]]]]; try reflexivity.
    exfalso. apply Hvalue. now split. }
  assert (Hq : as_query (Condition prop comparator value) org prop_map
               = (params <- _build_datetime_field_params comparator value field ;;
                  ret (Q_id__in_values (VQ_kwargs params)))).
  { cbn [as_query]. unfold Condition_as_query, prop_map_get.
    rewrite Hprop, Hget. cbn [bind ret]. rewrite Habs.
    unfold _build_value_query, build_value_query_params. now rewrite Htype. }
  rewrite Hq. clear Hq.
  unfold _build_datetime_field_params.
  destruct (str_to_datetime value (org_timezone field) (org_dayfirst field))
    as [day_start|].
  - simpl in Hcmp.
    destruct Hcmp as [<-|[<-|[<-|[<-|[<-|[]]]]]]; cbn;
      (eexists; split; [reflexivity|]);
      intros st c; cbn; unfold has_datetime_value;
      apply existsb_pointwise; intros row; f_equal; f_equal;
      destruct (datetime_value row) as [d|]; cbn;
      rewrite ?andb_true_r; reflexivity.
  - simpl in Hcmp.
    destruct Hcmp as [<-|[<-|[<-|[<-|[<-|[]]]]]]; reflexivity.
Qed.

End Datetime.

(** The theorem at [joined = 2017-01-01], with the externals of the
    examples. *)
Lemma datetime_condition_compiles_by_day_witness :
  exists q,
    as_query (ext := Example.externals) (Condition "joined" "=" "2017-01-01") Example.org
             [("joined", PROP_FIELD Example.joined)] = inr q
    /\ forall st c,
         eval_Q st q c
         = has_datetime_value st c Example.joined
                              (spec_datetime_match "=" 1483228800%Z).
Proof.
  apply (datetime_condition_compiles_by_day
           (ext := Example.externals) Example.org
           [("joined", PROP_FIELD Example.joined)] "joined" "=" "2017-01-01" Example.joined).
  - discriminate.
  - reflexivity.
  - reflexivity.
  - simpl. auto.
  - intros [_ H]. discriminate H.
Defined.

(** ** The lexer *)

Ltac each_ascii c := destruct c as [[] [] [] [] [] [] [] []].

Lemma text_char_not_ignore (c : ascii) : is_text_char c = true -> is_ignore c = false.
Proof. each_ascii c; intros H; try reflexivity; discriminate H. Qed.

Lemma text_char_lower (c : ascii) : is_text_char (Py.lower_char c) = is_text_char c.
Proof. each_ascii c; reflexivity. Qed.

Lemma lower_char_idempotent (c : ascii) : Py.lower_char (Py.lower_char c) = Py.lower_char c.
Proof. each_ascii c; reflexivity. Qed.

Lemma lower_idempotent (s : string) : Py.lower (Py.lower s) = Py.lower s.
Proof. induction s as [|c r IH]; simpl; [reflexivity|]. now rewrite lower_char_idempotent, IH. Qed.

Lemma re_COMPARATOR_text_char (c : ascii) (r : string) :
  is_text_char c = true -> re_COMPARATOR (String c r) = None.
Proof. each_ascii c; intros H; try reflexivity; discriminate H. Qed.

Lemma re_STRING_text_char (c : ascii) (r : string) :
  is_text_char c = true -> re_STRING (String c r) = None.
Proof. each_ascii c; intros H; try reflexivity; discriminate H. Qed.

Lemma star_cls_run (w rest : string) :
  forallb is_text_char (list_ascii_of_string w) = true ->
  ends_run rest = true ->
  star_cls is_text_char (w ++ rest) = (w, rest).
Proof.
  intros Hw Hrest. induction w as [|c w IH]; simpl.
  - destruct rest as [|c r]; simpl in *; [reflexivity|].
    apply negb_true_iff in Hrest. now rewrite Hrest.
  - simpl in Hw. apply andb_true_iff in Hw as [Hc Hw].
    now rewrite Hc, (IH Hw).
Qed.

Lemma re_TEXT_run (w rest : string) :
  text_run w = true -> ends_run rest = true -> re_TEXT (w ++ rest) = Some (w, rest).
Proof.
  intros Hw Hrest. destruct w as [|c w]; [discriminate|].
  unfold text_run in Hw. simpl in Hw. apply andb_true_iff in Hw as [Hc Hw].
  unfold re_TEXT, plus, seq, cls, star. simpl. rewrite Hc.
  now rewrite (star_cls_run w rest Hw Hrest).
Qed.

(** A run of text characters followed by something else is one token. *)
Lemma token_run (w rest : string) :
  text_run w = true -> ends_run rest = true ->
  token (w ++ rest) = inr (Some (t_TEXT w, rest)).
Proof.
  intros Hw Hrest. pose proof (re_TEXT_run w rest Hw Hrest) as HT.
  destruct w as [|c w]; [discriminate|].
  unfold text_run in Hw. simpl in Hw. apply andb_true_iff in Hw as [Hc _].
  unfold token. simpl skip_ignore. rewrite (text_char_not_ignore c Hc).
  simpl in HT |- *.
  rewrite (re_COMPARATOR_text_char c _ Hc), (re_STRING_text_char c _ Hc), HT.
  reflexivity.
Qed.

Lemma t_TEXT_plain (w : string) :
  plain_word w = true -> t_TEXT w = {| type := TEXT; value := w |}.
Proof.
  unfold plain_word, t_TEXT. intros H. apply andb_true_iff in H as [_ H].
  now destruct (dict_get reserved (Py.lower w)).
Qed.

(** One of the six comparators followed by a text character is one
    token. *)
Lemma token_comparator (c : string) (x : ascii) (rest : string) :
  In c CANONICAL_COMPARATORS -> is_text_char x = true ->
  token (c ++ String x rest) = inr (Some (t_COMPARATOR c, String x rest)).
Proof.
  intros Hc Hx. simpl in Hc.
  destruct Hc as [<-|[<-|[<-|[<-|[<-|[<-|[]]]]]]]; try reflexivity;
    each_ascii x; try discriminate Hx; reflexivity.
Qed.

Lemma token_empty : token "" = inr None.
Proof. reflexivity. Qed.

(** *** Every token takes at least one character *)

Lemma cls_consumes (p : ascii -> bool) : consumes (cls p).
Proof.
  intros [|c s] x r; simpl; [discriminate|].
  destruct (p c); [|discriminate]. intros H. injection H as <- <-. lia.
Qed.

Lemma opt_never_grows (m : matcher) : consumes m -> never_grows (opt m).
Proof.
  intros Hm s x r. unfold opt. destruct (m s) as [[x' r']|] eqn:E; intros H; injection H as <- <-.
  - apply Hm in E. lia.
  - lia.
Qed.

Lemma star_never_grows (p : ascii -> bool) : never_grows (star p).
Proof.
  intros s. unfold star. induction s as [|c s IH]; simpl; intros x r H.
  - injection H as <- <-. simpl. lia.
  - destruct (p c).
    + destruct (star_cls p s) as [m r'] eqn:E. injection H as <- <-.
      specialize (IH m r' eq_refl). lia.
    + injection H as <- <-. simpl. lia.
Qed.

Lemma seq_consumes_l (a b : matcher) : consumes a -> never_grows b -> consumes (seq a b).
Proof.
  intros Ha Hb s x r. unfold seq.
  destruct (a s) as [[m1 r1]|] eqn:E1; [|discriminate].
  destruct (b r1) as [[m2 r2]|] eqn:E2; [|discriminate].
  intros H. injection H as <- <-. apply Ha in E1. apply Hb in E2. lia.
Qed.

Lemma consumes_never_grows (m : matcher) : consumes m -> never_grows m.
Proof. intros H s x r E. apply H in E. lia. Qed.

Lemma alt_consumes (a b : matcher) : consumes a -> consumes b -> consumes (alt a b).
Proof.
  intros Ha Hb s x r. unfold alt. destruct (a s) as [m|] eqn:E.
  - intros H. injection H as ->. now apply Ha in E.
  - apply Hb.
Qed.

Lemma re_COMPARATOR_consumes : consumes re_COMPARATOR.
Proof.
  unfold re_COMPARATOR, lit.
  repeat first [apply alt_consumes | apply seq_consumes_l | apply cls_consumes
               | apply opt_never_grows ].
Qed.

Lemma seq_consumes_r (a b : matcher) : never_grows a -> consumes b -> consumes (seq a b).
Proof.
  intros Ha Hb s x r. unfold seq.
  destruct (a s) as [[m1 r1]|] eqn:E1; [|discriminate].
  destruct (b r1) as [[m2 r2]|] eqn:E2; [|discriminate].
  intros H. injection H as <- <-. apply Ha in E1. apply Hb in E2. lia.
Qed.

Lemma re_STRING_consumes : consumes re_STRING.
Proof.
  unfold re_STRING, lit.
  apply seq_consumes_l; [apply cls_consumes|].
  apply consumes_never_grows, seq_consumes_r; [apply star_never_grows|apply cls_consumes].
Qed.

Lemma re_TEXT_consumes : consumes re_TEXT.
Proof.
  unfold re_TEXT, plus. apply seq_consumes_l; [apply cls_consumes|apply star_never_grows].
Qed.

Lemma skip_ignore_length (s : string) :
  (String.length (skip_ignore s) <= String.length s)%nat.
Proof.
  induction s as [|c s IH]; simpl; [lia|]. destruct (is_ignore c); simpl; lia.
Qed.

Lemma token_consumes (s : string) (t : LexToken) (r : string) :
  token s = inr (Some (t, r)) -> (String.length r < String.length s)%nat.
Proof.
  unfold token. pose proof (skip_ignore_length s) as Hs.
  destruct (skip_ignore s) as [|c s'] eqn:E; [discriminate|].
  destruct (re_COMPARATOR (String c s')) as [[m r']|] eqn:E1.
  { intros H. injection H as <- <-. apply re_COMPARATOR_consumes in E1. lia. }
  destruct (re_STRING (String c s')) as [[m r']|] eqn:E2.
  { intros H. injection H as <- <-. apply re_STRING_consumes in E2. lia. }
  destruct (re_TEXT (String c s')) as [[m r']|] eqn:E3.
  { intros H. injection H as <- <-. apply re_TEXT_consumes in E3. lia. }
  destruct (re_LPAREN (String c s')) as [[m r']|] eqn:E4.
  { intros H. injection H as <- <-. apply (cls_consumes _) in E4. lia. }
  destruct (re_RPAREN (String c s')) as [[m r']|] eqn:E5.
  { intros H. injection H as <- <-. apply (cls_consumes _) in E5. lia. }
  discriminate.
Qed.

(** The fuel of [tokenize] is enough, whatever the text. *)
Lemma tokens_from_fuel (fuel1 fuel2 : nat) (s : string) :
  (String.length s < fuel1)%nat -> (String.length s < fuel2)%nat ->
  tokens_from fuel1 s = tokens_from fuel2 s.
Proof.
  revert fuel2 s. induction fuel1 as [|fuel1 IH]; intros fuel2 s H1 H2; [lia|].
  destruct fuel2 as [|fuel2]; [lia|]. simpl.
  destruct (token s) as [e|[[t r]|]] eqn:E; try reflexivity.
  apply token_consumes in E. rewrite (IH fuel2 r); [reflexivity|lia|lia].
Qed.

Lemma tokenize_eq (s : string) :
  tokenize s =
  match token s with
  | inl e => Some ([], Some e)
  | inr None => Some ([], None)
  | inr (Some (t, r)) =>
      match tokenize r with
      | Some (ts, e) => Some (t :: ts, e)
      | None => None
      end
  end.
Proof.
  unfold tokenize. simpl.
  destruct (token s) as [e|[[t r]|]] eqn:E; try reflexivity.
  apply token_consumes in E.
  rewrite (tokens_from_fuel (String.length s) (S (String.length r)) r); [reflexivity|lia|lia].
Qed.

(** The lexer always produces its stream of tokens. *)
Lemma tokenize_total (s : string) : exists toks lexerr, tokenize s = Some (toks, lexerr).
Proof.
  remember (String.length s) as n eqn:Hn. revert s Hn.
  induction n as [n IH] using lt_wf_ind. intros s Hn.
  rewrite tokenize_eq. destruct (token s) as [e|[[t r]|]] eqn:E; eauto.
  apply token_consumes in E.
  destruct (IH (String.length r) ltac:(lia) r eq_refl) as [ts [e H]].
  rewrite H. eauto.
Qed.

(** *** What the tokens are *)

Lemma re_COMPARATOR_spelled (s m r : string) :
  re_COMPARATOR s = Some (m, r) -> spelled m = true.
Proof.
  destruct s as [|c s]; [discriminate|].
  destruct s as [|c' s]; each_ascii c; try discriminate;
    try (intros H; injection H as <- <-; reflexivity);
    each_ascii c'; intros H; injection H as <- <-; reflexivity.
Qed.

Lemma star_cls_all (p : ascii -> bool) (s m r : string) :
  star_cls p s = (m, r) -> forallb p (list_ascii_of_string m) = true.
Proof.
  revert m r. induction s as [|c s IH]; simpl; intros m r H.
  - now injection H as <- <-.
  - destruct (p c) eqn:Hc.
    + destruct (star_cls p s) as [m' r'] eqn:E. injection H as <- <-.
      simpl. now rewrite Hc, (IH m' r' eq_refl).
    + now injection H as <- <-.
Qed.

Lemma re_TEXT_text_run (s m r : string) : re_TEXT s = Some (m, r) -> text_run m = true.
Proof.
  unfold re_TEXT, plus, seq, cls, star. destruct s as [|c s]; [discriminate|].
  destruct (is_text_char c) eqn:Hc; [|discriminate].
  destruct (star_cls is_text_char s) as [m' r'] eqn:E.
  intros H. injection H as <- <-. unfold text_run. simpl.
  now rewrite Hc, (star_cls_all _ _ _ _ E).
Qed.

Lemma reserved_COMPARATOR (w : string) :
  dict_get reserved w = Some COMPARATOR -> w = "has" \/ w = "is".
Proof.
  unfold reserved. simpl.
  destruct (String.eqb_spec w "and"); [discriminate|].
  destruct (String.eqb_spec w "or"); [discriminate|].
  destruct (String.eqb_spec w "has"); [auto|].
  destruct (String.eqb_spec w "is"); [auto|discriminate].
Qed.

Lemma t_TEXT_ok (m : string) : text_run m = true -> token_ok (t_TEXT m).
Proof.
  intros Hm. unfold token_ok, t_TEXT, plain_word, spelled. cbn [type value].
  destruct (dict_get reserved (Py.lower m)) as [t|] eqn:E.
  - split; intros Ht; subst t.
    + destruct (reserved_COMPARATOR _ E) as [H | H]; rewrite H; reflexivity.
    + exfalso. revert E. unfold reserved. simpl.
      repeat match goal with
             | |- context [String.eqb ?a ?b] => destruct (String.eqb a b)
             end; discriminate.
  - split; [discriminate|]. intros _. now rewrite Hm.
Qed.

Lemma token_token_ok (s : string) (t : LexToken) (r : string) :
  token s = inr (Some (t, r)) -> token_ok t.
Proof.
  unfold token.
  destruct (skip_ignore s) as [|c s'] eqn:E; [discriminate|].
  destruct (re_COMPARATOR (String c s')) as [[m r']|] eqn:E1.
  { intros H. injection H as <- <-. split; [|discriminate].
    intros _. exact (re_COMPARATOR_spelled _ _ _ E1). }
  destruct (re_STRING (String c s')) as [[m r']|] eqn:E2.
  { intros H. injection H as <- <-. split; discriminate. }
  destruct (re_TEXT (String c s')) as [[m r']|] eqn:E3.
  { intros H. injection H as <- <-. apply t_TEXT_ok. exact (re_TEXT_text_run _ _ _ E3). }
  destruct (re_LPAREN (String c s')) as [[m r']|] eqn:E4.
  { intros H. injection H as <- <-. split; discriminate. }
  destruct (re_RPAREN (String c s')) as [[m r']|] eqn:E5.
  { intros H. injection H as <- <-. split; discriminate. }
  discriminate.
Qed.

Lemma tokens_from_ok (fuel : nat) (s : string) (toks : list LexToken) (lexerr : option exn) :
  tokens_from fuel s = Some (toks, lexerr) -> Forall token_ok toks.
Proof.
  revert s toks lexerr. induction fuel as [|fuel IH]; intros s toks lexerr; [discriminate|].
  simpl. destruct (token s) as [e|[[t r]|]] eqn:E.
  - intros H. injection H as <- <-. constructor.
  - destruct (tokens_from fuel r) as [[ts e]|] eqn:Er; [|discriminate].
    intros H. injection H as <- <-. constructor.
    + exact (token_token_ok _ _ _ E).
    + exact (IH _ _ _ Er).
  - intros H. injection H as <- <-. constructor.
Qed.

(** ** The parser *)

(** The automaton of [SearchParser] is the one the grammar gives: its
    states are the LR(0) item sets of the productions, its shifts and gotos
    the transitions between them, and its action on a lookahead that can
    follow a complete production is the reduction, or what [resolve] makes
    of the conflict with a shift. *)
Lemma automaton_matches_grammar : Grammar.automaton_of_grammar = true.
Proof. vm_compute. reflexivity. Qed.

(** The three conflicts on a token that starts an operand: after
    juxtaposition and after [AND] the reduction wins, and so it does after
    [OR], since [TEXT] and [LPAREN] have level 0. *)
Lemma conflicts_on_operand_start :
  forall t, t = TEXT \/ t = LPAREN ->
    action St_expr_expr (Some t) = Reduce p_expression_implicit_and
    /\ action St_and_expr (Some t) = Reduce p_expression_and
    /\ action St_or_expr (Some t) = Reduce p_expression_or
    /\ action St_or_expr (Some T_AND) = Shift St_and.
Proof. intros t [-> | ->]; repeat split; reflexivity. Qed.

(** Juxtaposition and [AND] before an [OR]: with operands [a], [b], [c],
    both [a b OR c] and [a AND b OR c] are parsed as OR(AND(a, b), c). *)
Lemma parse_and_before_or (a b c : Operand) (and_text or_text : string) :
  let tok_and := {| type := T_AND; value := and_text |} in
  let tok_or := {| type := T_OR; value := or_text |} in
  let tree := BoolCombination OR
                [BoolCombination AND [operand_tree a; operand_tree b]; operand_tree c] in
  parse_tokens (operand_tokens a ++ operand_tokens b ++ [tok_or] ++ operand_tokens c) None
  = Some (inr tree)
  /\ parse_tokens (operand_tokens a ++ [tok_and] ++ operand_tokens b ++ [tok_or]
                                  ++ operand_tokens c) None
     = Some (inr tree).
Proof.
  destruct a as [ta|pa ca la [|]], b as [tb|pb cb lb [|]], c as [tc|pc cc lc [|]];
    split; reflexivity.
Qed.

(** Juxtaposition after an [OR]: [a OR b c] is parsed as AND(OR(a, b), c),
    whereas [a OR b AND c] is parsed as OR(a, AND(b, c)). *)
Lemma parse_juxtaposition_after_or (a b c : Operand) (and_text or_text : string) :
  let tok_and := {| type := T_AND; value := and_text |} in
  let tok_or := {| type := T_OR; value := or_text |} in
  parse_tokens (operand_tokens a ++ [tok_or] ++ operand_tokens b ++ operand_tokens c) None
  = Some (inr (BoolCombination AND
                 [BoolCombination OR [operand_tree a; operand_tree b]; operand_tree c]))
  /\ parse_tokens (operand_tokens a ++ [tok_or] ++ operand_tokens b ++ [tok_and]
                                  ++ operand_tokens c) None
     = Some (inr (BoolCombination OR
                    [operand_tree a; BoolCombination AND [operand_tree b; operand_tree c]])).
Proof.
  destruct a as [ta|pa ca la [|]], b as [tb|pb cb lb [|]], c as [tc|pc cc lc [|]];
    split; reflexivity.
Qed.

(** C8: juxtaposition does not have the precedence of [AND] throughout.
    The production of juxtaposition has the level of [AND], but the tokens
    that can follow it ([TEXT], [LPAREN]) have none, so after the right
    operand of an [OR] the automaton reduces the [OR] before it reads the
    next operand: [a OR b c] is AND(OR(a, b), c) while [a OR b AND c] is
    OR(a, AND(b, c)); and in [a b OR c d] the operand [c d] of the [OR] is
    split. *)
Theorem juxtaposition_after_or_closes_the_or :
  let a := Condition "*" "=" "a" in
  let b := Condition "*" "=" "b" in
  let c := Condition "*" "=" "c" in
  let d := Condition "*" "=" "d" in
  parse "a OR b c" = Some (inr (BoolCombination AND [BoolCombination OR [a; b]; c]))
  /\ parse "a OR b AND c" = Some (inr (BoolCombination OR [a; BoolCombination AND [b; c]]))
  /\ parse "a b OR c d"
     = Some (inr (BoolCombination AND
                    [BoolCombination OR [BoolCombination AND [a; b]; c]; d]))
  /\ parse "a b OR c AND d"
     = Some (inr (BoolCombination OR
                    [BoolCombination AND [a; b]; BoolCombination AND [c; d]]))
  /\ parse "a b OR c" = Some (inr (BoolCombination OR [BoolCombination AND [a; b]; c]))
  /\ parse "a AND b OR c" = Some (inr (BoolCombination OR [BoolCombination AND [a; b]; c])).
Proof. repeat split; reflexivity. Qed.

(** *** The comparators of parsed conditions *)

Lemma Condition_init_spelled (prop comparator value : string) :
  spelled comparator = true ->
  canonical (Condition_init prop (Py.lower comparator) value) = true.
Proof.
  unfold spelled. intros H. apply str_in_In in H. simpl in H.
  destruct H as [H|[H|[H|[H|[H|[H|[H|[H|[]]]]]]]]]; rewrite <- H; reflexivity.
Qed.

Lemma goto_expression_state (st s : State) :
  goto_expression st = Some s -> s <> St_comparator /\ s <> St_literal.
Proof. destruct st; simpl; intros H; try discriminate; injection H as <-; split; discriminate. Qed.

Lemma push_expression_ok (stk stk' : Stack) (n : QueryNode) :
  stack_ok stk -> canonical n = true -> push_expression stk n = Some stk' -> stack_ok stk'.
Proof.
  intros Hstk Hn. unfold push_expression.
  destruct (goto_expression (top_state stk)) as [s|] eqn:E; [|discriminate].
  intros H. injection H as <-. apply goto_expression_state in E as [E1 E2].
  simpl. repeat split; try assumption; intros; contradiction.
Qed.

Lemma push_literal_ok (stk stk' : Stack) (v : string) :
  stack_ok stk -> push_literal stk v = Some stk' -> stack_ok stk'.
Proof.
  intros Hstk. unfold push_literal, goto_literal.
  destruct (top_state stk) eqn:E; try discriminate.
  intros H. injection H as <-. simpl. split; [|assumption].
  split; [exact I|]. split; [discriminate|]. intros _. exact E.
Qed.

Lemma reduce_ok (p : Production) (stk stk' : Stack) :
  stack_ok stk ->
  (p = p_condition -> top_state stk = St_literal) ->
  reduce_production p stk = Some stk' ->
  stack_ok stk'.
Proof.
  intros Hstk Hp.
  destruct p; simpl;
    repeat match goal with
           | |- match ?l with [] => _ | _ :: _ => _ end = _ -> _ =>
               destruct l as [|[? ?] ?]; [discriminate|]
           | |- match ?v with V_token _ => _ | V_expression _ => _ | V_literal _ => _ end = _ -> _ =>
               destruct v; try discriminate
           end;
    simpl in Hstk; intros H.
  - (* AND *)
    eapply push_expression_ok; [| |exact H]; [tauto|].
    simpl. destruct Hstk as [[H3 _] [_ [[H1 _] _]]]. now rewrite H1, H3.
  - (* OR *)
    eapply push_expression_ok; [| |exact H]; [tauto|].
    simpl. destruct Hstk as [[H3 _] [_ [[H1 _] _]]]. now rewrite H1, H3.
  - (* juxtaposition *)
    eapply push_expression_ok; [| |exact H]; [tauto|].
    simpl. destruct Hstk as [[H2 _] [[H1 _] _]]. now rewrite H1, H2.
  - (* grouping *)
    eapply push_expression_ok; [| |exact H]; [tauto|].
    destruct Hstk as [_ [[H2 _] _]]. exact H2.
  - (* condition *)
    eapply push_expression_ok; [| |exact H]; [tauto|].
    specialize (Hp eq_refl). simpl in Hp. subst.
    destruct Hstk as [[_ [_ Hlit]] [[_ [Hcmp _]] _]].
    specialize (Hlit eq_refl). simpl in Hlit. subst.
    destruct (Hcmp eq_refl) as [t [Ht Hs]]. injection Ht as ->.
    now apply Condition_init_spelled.
  - (* implicit condition *)
    eapply push_expression_ok; [| |exact H]; [tauto|]. reflexivity.
  - eapply push_literal_ok; [|exact H]. tauto.
  - eapply push_literal_ok; [|exact H]. tauto.
Qed.

Lemma defaulted_condition (st : State) :
  defaulted st = Some p_condition -> st = St_literal.
Proof. destruct st; simpl; intros H; try discriminate; reflexivity. Qed.

Lemma action_condition (st : State) (la : option TokenType) :
  action st la = Reduce p_condition -> st = St_literal.
Proof.
  destruct st; simpl; try discriminate; try reflexivity;
    destruct la as [[]|]; simpl; try discriminate;
    unfold resolve; simpl; discriminate.
Qed.

Lemma action_shift_comparator (st : State) (la : option TokenType) :
  action st la = Shift St_comparator -> la = Some COMPARATOR.
Proof.
  destruct st; simpl; try discriminate;
    destruct la as [[]|]; simpl; try discriminate; try reflexivity;
    unfold resolve; simpl; discriminate.
Qed.

Lemma action_shift_literal (st : State) (la : option TokenType) :
  action st la <> Shift St_literal.
Proof.
  destruct st; simpl; try discriminate;
    destruct la as [[]|]; simpl; try discriminate;
    unfold resolve; simpl; discriminate.
Qed.

(** Every tree the parsing loop returns stores canonical comparators. *)
Lemma run_canonical (fuel : nat) :
  forall stk toks lexerr n,
    stack_ok stk -> Forall token_ok toks ->
    run fuel stk toks lexerr = Some (inr n) ->
    canonical n = true.
Proof.
  induction fuel as [|fuel IH]; intros stk toks lexerr n Hstk Htoks; [discriminate|].
  cbn [run].
  destruct (defaulted (top_state stk)) as [p|] eqn:Hd.
  { destruct (reduce_production p stk) as [stk'|] eqn:Hr; [|discriminate].
    apply IH; [|assumption].
    apply (reduce_ok p stk stk' Hstk); [|assumption].
    intros ->. now apply defaulted_condition. }
  assert (Hstep :
            match action (top_state stk)
                         (option_map type match toks with t :: _ => Some t | [] => None end) with
            | Shift s =>
                match toks with
                | t :: toks' => run fuel ((s, V_token (value t)) :: stk) toks' lexerr
                | [] => None
                end
            | Reduce p =>
                match reduce_production p stk with
                | Some stk' => run fuel stk' toks lexerr
                | None => None
                end
            | Accept =>
                match stk with
                | (_, V_expression n) :: _ => Some (ret n)
                | _ => None
                end
            | Error => Some (raise (p_error match toks with t :: _ => Some t | [] => None end))
            end = Some (inr n) -> canonical n = true).
  { destruct (action (top_state stk)
                     (option_map type match toks with t :: _ => Some t | [] => None end))
      as [s|p| |] eqn:Ha.
    - destruct toks as [|t toks']; [discriminate|].
      apply IH; [|now inversion Htoks].
      simpl. split; [|assumption]. repeat split.
      + intros ->. apply action_shift_comparator in Ha. simpl in Ha. injection Ha as Ha.
        exists (value t). split; [reflexivity|].
        inversion Htoks as [|? ? [Hc _] _]; subst. now apply Hc.
      + intros ->. exfalso. exact (action_shift_literal _ _ Ha).
    - destruct (reduce_production p stk) as [stk'|] eqn:Hr; [|discriminate].
      apply IH; [|assumption].
      apply (reduce_ok p stk stk' Hstk); [|assumption].
      intros ->. now apply action_condition in Ha.
    - destruct stk as [|[s [v|m|v]] below]; try discriminate.
      intros H. injection H as <-. destruct Hstk as [[Hc _] _]. exact Hc.
    - discriminate. }
  destruct toks as [|t toks'].
  - destruct lexerr as [e|]; [discriminate|]. exact Hstep.
  - exact Hstep.
Qed.

(** Every condition of a tree that the parser returns stores one of the
    six canonical comparators. *)
Lemma parse_canonical (text : string) (root : QueryNode) :
  parse text = Some (inr root) -> canonical root = true.
Proof.
  unfold parse, parse_tokens, tokenize.
  destruct (tokens_from (S (String.length text)) text) as [[toks lexerr]|] eqn:E; [|discriminate].
  apply run_canonical; [exact I|]. exact (tokens_from_ok _ _ _ _ E).
Qed.

Lemma Condition_init_normalized (prop c value : string) :
  In c COMPARATOR_SPELLINGS ->
  Condition_init prop c value = Condition prop (normalized c) value
  /\ In (normalized c) CANONICAL_COMPARATORS.
Proof.
  intros H. simpl in H.
  destruct H as [<-|[<-|[<-|[<-|[<-|[<-|[<-|[<-|[]]]]]]]]]; split; try reflexivity;
    simpl; tauto.
Qed.

(** C5: the code does not treat [~~] as a comparator.  In the regular
    expression of [t_COMPARATOR] the alternative [~] comes before [~~?],
    which therefore never matches: [~~] is read as two tokens and
    [name ~~ bob] is a syntax error, where [name ~ bob] parses.  No table
    knows [~~] either: a condition constructed with it stores it
    unchanged, and its compilation for an attribute raises
    [Unsupported comparator], where [~] compiles to [icontains].

    The rest of the claim holds of the conditions that the parser builds:
    a comparator token is one of [~ = < <= > >= has is] in any letter
    case; [p_condition] lowercases it and [Condition.__init__] maps [is]
    to [=], [has] to [~] and each of the six symbols to itself; so every
    condition of a parsed tree stores one of the six symbols. *)
Theorem tilde_tilde_is_not_an_alias :
  (tokenize "name ~~ bob"
   = Some ([ {| type := TEXT; value := "name" |};
             {| type := COMPARATOR; value := "~" |};
             {| type := COMPARATOR; value := "~" |};
             {| type := TEXT; value := "bob" |} ], None)
   /\ parse "name ~~ bob" = Some (inl (SearchException "Syntax error at '~'"))
   /\ parse "name ~ bob" = Some (inr (Condition "name" "~" "bob"))
   /\ Condition_init "name" "~~" "bob" = Condition "name" "~~" "bob"
   /\ canonical (Condition_init "name" "~~" "bob") = false
   /\ as_query (ext := Example.externals) (Condition_init "name" "~~" "bob") Example.org
               [("name", PROP_ATTRIBUTE "name")]
      = inl (SearchException "Unsupported comparator ~~ for contact attribute")
   /\ as_query (ext := Example.externals) (Condition_init "name" "~" "bob") Example.org
               [("name", PROP_ATTRIBUTE "name")]
      = inr (Q_attr "name" icontains "bob"))
  /\ (forall text toks lexerr t,
         tokenize text = Some (toks, lexerr) -> In t toks -> type t = COMPARATOR ->
         In (Py.lower (value t)) ["~"; "="; "<"; "<="; ">"; ">="; "has"; "is"])
  /\ (forall prop c value,
         In c ["~"; "="; "<"; "<="; ">"; ">="; "has"; "is"] ->
         Condition_init prop c value = Condition prop (normalized c) value
         /\ In (normalized c) ["="; "~"; ">"; ">="; "<"; "<="])
  /\ (forall tp tc tv,
         type tp = TEXT -> type tc = COMPARATOR -> type tv = TEXT \/ type tv = STRING ->
         In (Py.lower (value tc)) ["~"; "="; "<"; "<="; ">"; ">="; "has"; "is"] ->
         parse_tokens [tp; tc; tv] None
         = Some (inr (Condition (Py.lower (value tp)) (normalized (Py.lower (value tc)))
                                (value tv))))
  /\ (forall text root, parse text = Some (inr root) -> canonical root = true).
Proof.
  split; [repeat split; reflexivity|].
  split; [|split; [|split]].
  - intros text toks lexerr t Htok Hin Hty.
    pose proof (tokens_from_ok _ _ _ _ Htok) as Hok.
    rewrite Forall_forall in Hok. destruct (Hok t Hin) as [Hc _].
    apply str_in_In. exact (Hc Hty).
  - exact Condition_init_normalized.
  - intros [typ p] [tyc c] [tyv v]. cbn [type value]. intros -> -> Hv Hc.
    destruct (Condition_init_normalized (Py.lower p) (Py.lower c) v Hc) as [<- _].
    destruct Hv as [-> | ->]; reflexivity.
  - exact parse_canonical.
Qed.

(** *** The parsing loop always ends with a tree or an exception *)

Lemma edge_entered (below_state s : State) (v : SymValue) :
  edge_ok below_state s v = true -> entered below_state s v.
Proof.
  destruct v as [t|n|l]; destruct below_state, s; simpl; intros H;
    try discriminate H; repeat split; eauto;
    try (exists St_start; reflexivity); try (exists St_lparen; reflexivity);
    try (exists St_and; reflexivity); try (exists St_or; reflexivity).
Qed.

Lemma State_eqb_refl (s : State) : Grammar.State_eqb s s = true.
Proof. destruct s; reflexivity. Qed.

Lemma action_reduces_by (s : State) (la : option TokenType) (p : Production) :
  action s la = Reduce p -> reduces_by s = Some p.
Proof.
  destruct s; simpl; try discriminate;
    destruct la as [[]|]; simpl; unfold resolve; simpl;
    intros H; try discriminate H; injection H as <-; reflexivity.
Qed.

Lemma defaulted_reduces_by (s : State) (p : Production) :
  defaulted s = Some p -> reduces_by s = Some p.
Proof. destruct s; simpl; intros H; try discriminate H; exact H. Qed.

Lemma push_expression_wf (stk : Stack) (n : QueryNode) :
  stack_wf stk ->
  (exists s, goto_expression (top_state stk) = Some s) ->
  exists stk', push_expression stk n = Some stk' /\ stack_wf stk'
               /\ stack_weight stk' = S (stack_weight stk).
Proof.
  intros Hwf [s Hs]. unfold push_expression. rewrite Hs.
  eexists. split; [reflexivity|]. split; [|reflexivity].
  simpl. rewrite Hs. simpl. now rewrite State_eqb_refl.
Qed.

Lemma goto_expression_entered (below_state s : State) :
  (below_state = St_start \/ below_state = St_lparen \/ below_state = St_and
   \/ below_state = St_or \/ goto_expression below_state = Some s) ->
  exists s', goto_expression below_state = Some s'.
Proof. intros [->|[->|[->|[->|H]]]]; simpl; eauto. Qed.

(** An entry whose state is entered on an expression: the state below has
    a transition on expressions. *)
Lemma expression_entry (s : State) (v : SymValue) (below : Stack) :
  (exists s', goto_expression s' = Some s) ->
  edge_ok (top_state below) s v = true ->
  (exists n, v = V_expression n)
  /\ exists s', goto_expression (top_state below) = Some s'.
Proof.
  intros [s' Hs'] He. apply edge_entered in He.
  destruct s; try (destruct s'; discriminate Hs'); simpl in He;
    destruct He as [Hb Hv]; (split; [exact Hv|]);
    try (rewrite Hb; simpl; eauto); eauto.
Qed.

Lemma reduce_total (stk : Stack) (p : Production) :
  stack_wf stk ->
  reduces_by (top_state stk) = Some p ->
  exists stk', reduce_production p stk = Some stk' /\ stack_wf stk'
               /\ (stack_weight stk' < stack_weight stk)%nat.
Proof.
  intros Hwf Hp.
  destruct stk as [|[s1 v1] b1]; [discriminate|].
  simpl in Hp. destruct Hwf as [He1 Hwf1].
  pose proof (edge_entered _ _ _ He1) as Hent1.
  destruct s1; try discriminate Hp; injection Hp as <-; simpl in Hent1.
  - (* St_text: the implicit condition *)
    destruct Hent1 as [Hgoto [t ->]].
    destruct (push_expression_wf b1 (Condition_init IMPLICIT_PROP "=" t) Hwf1 Hgoto)
      as [stk' [H1 [H2 H3]]].
    exists stk'. cbn [reduce_production]. rewrite H1. repeat split; try assumption.
    simpl. lia.
  - (* St_expr_expr: juxtaposition *)
    destruct Hent1 as [Hgoto [n2 ->]].
    destruct b1 as [|[s2 v2] b2]; [discriminate Hgoto|].
    destruct Hwf1 as [He2 Hwf2]. simpl in Hgoto.
    destruct (expression_entry s2 v2 b2) as [[n1 ->] Hg2];
      [destruct s2; try discriminate Hgoto; eauto;
       try (exists St_start; reflexivity); try (exists St_lparen; reflexivity);
       try (exists St_and; reflexivity); try (exists St_or; reflexivity)
      |exact He2|].
    destruct (push_expression_wf b2 (BoolCombination AND [n1; n2]) Hwf2 Hg2)
      as [stk' [H1 [H2 H3]]].
    exists stk'. cbn [reduce_production]. rewrite H1. repeat split; try assumption.
    simpl. lia.
  - (* St_and_expr *)
    destruct Hent1 as [Hb [n3 ->]].
    destruct b1 as [|[s2 v2] b2]; [discriminate Hb|]. simpl in Hb. subst s2.
    destruct Hwf1 as [He2 Hwf2].
    pose proof (edge_entered _ _ _ He2) as [Hfrom [t ->]].
    destruct b2 as [|[s3 v3] b3];
      [destruct Hfrom as [s' Hs']; destruct s'; discriminate Hs'|].
    destruct Hwf2 as [He3 Hwf3]. simpl in Hfrom.
    destruct (expression_entry s3 v3 b3 Hfrom He3) as [[n1 ->] Hg3].
    destruct (push_expression_wf b3 (BoolCombination AND [n1; n3]) Hwf3 Hg3)
      as [stk' [H1 [H2 H3]]].
    exists stk'. cbn [reduce_production]. rewrite H1. repeat split; try assumption.
    simpl. lia.
  - (* St_or_expr *)
    destruct Hent1 as [Hb [n3 ->]].
    destruct b1 as [|[s2 v2] b2]; [discriminate Hb|]. simpl in Hb. subst s2.
    destruct Hwf1 as [He2 Hwf2].
    pose proof (edge_entered _ _ _ He2) as [Hfrom [t ->]].
    destruct b2 as [|[s3 v3] b3];
      [destruct Hfrom as [s' Hs']; destruct s'; discriminate Hs'|].
    destruct Hwf2 as [He3 Hwf3]. simpl in Hfrom.
    destruct (expression_entry s3 v3 b3 Hfrom He3) as [[n1 ->] Hg3].
    destruct (push_expression_wf b3 (BoolCombination OR [n1; n3]) Hwf3 Hg3)
      as [stk' [H1 [H2 H3]]].
    exists stk'. cbn [reduce_production]. rewrite H1. repeat split; try assumption.
    simpl. lia.
  - (* St_rparen: grouping *)
    destruct Hent1 as [Hb [t3 ->]].
    destruct b1 as [|[s2 v2] b2]; [discriminate Hb|]. simpl in Hb. subst s2.
    destruct Hwf1 as [He2 Hwf2].
    pose proof (edge_entered _ _ _ He2) as [Hb2 [n ->]].
    destruct b2 as [|[s3 v3] b3]; [discriminate Hb2|]. simpl in Hb2. subst s3.
    destruct Hwf2 as [He3 Hwf3].
    pose proof (edge_entered _ _ _ He3) as [Hg3 [t1 ->]].
    destruct (push_expression_wf b3 n Hwf3 Hg3) as [stk' [H1 [H2 H3]]].
    exists stk'. cbn [reduce_production]. rewrite H1. repeat split; try assumption.
    simpl. lia.
  - (* St_literal: the condition *)
    destruct Hent1 as [Hb [l ->]].
    destruct b1 as [|[s2 v2] b2]; [discriminate Hb|]. simpl in Hb. subst s2.
    destruct Hwf1 as [He2 Hwf2].
    pose proof (edge_entered _ _ _ He2) as [Hb2 [c ->]].
    destruct b2 as [|[s3 v3] b3]; [discriminate Hb2|]. simpl in Hb2. subst s3.
    destruct Hwf2 as [He3 Hwf3].
    pose proof (edge_entered _ _ _ He3) as [Hg3 [t1 ->]].
    destruct (push_expression_wf b3 (Condition_init (Py.lower t1) (Py.lower c) l) Hwf3 Hg3)
      as [stk' [H1 [H2 H3]]].
    exists stk'. cbn [reduce_production]. rewrite H1. repeat split; try assumption.
    simpl. lia.
  - (* St_lit_text *)
    destruct Hent1 as [Hb [t ->]].
    cbn [reduce_production]. unfold push_literal. rewrite Hb. simpl.
    eexists. split; [reflexivity|]. split; [|simpl; lia].
    simpl. rewrite Hb. simpl. auto.
  - (* St_lit_string *)
    destruct Hent1 as [Hb [t ->]].
    cbn [reduce_production]. unfold push_literal. rewrite Hb. simpl.
    eexists. split; [reflexivity|]. split; [|simpl; lia].
    simpl. rewrite Hb. simpl. auto.
Qed.

Lemma shift_wf (stk : Stack) (t : LexToken) (s : State) :
  stack_wf stk -> action (top_state stk) (Some (type t)) = Shift s ->
  stack_wf ((s, V_token (value t)) :: stk).
Proof.
  intros Hwf Ha. simpl. split; [|assumption].
  destruct (type t); simpl; rewrite Ha; simpl; rewrite State_eqb_refl;
    repeat (reflexivity || apply orb_true_r || (apply orb_true_iff; left; reflexivity)
            || (apply orb_true_iff; right)).
Qed.

Lemma accept_top (stk : Stack) (la : option TokenType) :
  stack_wf stk -> action (top_state stk) la = Accept ->
  exists s n below, stk = (s, V_expression n) :: below.
Proof.
  intros Hwf Ha.
  destruct stk as [|[s v] below]; [destruct la as [[]|]; discriminate Ha|].
  destruct Hwf as [He _]. apply edge_entered in He. simpl in Ha.
  destruct s; simpl in Ha; try discriminate Ha;
    try (destruct la as [[]|]; simpl in Ha; unfold resolve in Ha; simpl in Ha;
         discriminate Ha).
  simpl in He. destruct He as [_ [n ->]]. eauto.
Qed.

Lemma action_shift_end (s s' : State) : action s None <> Shift s'.
Proof. destruct s; simpl; discriminate. Qed.

(** With fuel above the measure, the loop ends. *)
Lemma run_total (fuel : nat) :
  forall stk toks lexerr,
    stack_wf stk ->
    (3 * List.length toks + stack_weight stk < fuel)%nat ->
    exists r, run fuel stk toks lexerr = Some r.
Proof.
  induction fuel as [|fuel IH]; intros stk toks lexerr Hwf Hfuel; [lia|].
  cbn [run].
  destruct (defaulted (top_state stk)) as [p|] eqn:Hd.
  { apply defaulted_reduces_by in Hd.
    destruct (reduce_total stk p Hwf Hd) as [stk' [H1 [H2 H3]]].
    rewrite H1. apply IH; [assumption|lia]. }
  assert (Hstep :
            exists r,
              match action (top_state stk)
                           (option_map type match toks with t :: _ => Some t | [] => None end) with
              | Shift s =>
                  match toks with
                  | t :: toks' => run fuel ((s, V_token (value t)) :: stk) toks' lexerr
                  | [] => None
                  end
              | Reduce p =>
                  match reduce_production p stk with
                  | Some stk' => run fuel stk' toks lexerr
                  | None => None
                  end
              | Accept =>
                  match stk with
                  | (_, V_expression n) :: _ => Some (ret n)
                  | _ => None
                  end
              | Error => Some (raise (p_error match toks with t :: _ => Some t | [] => None end))
              end = Some r).
  { destruct (action (top_state stk)
                     (option_map type match toks with t :: _ => Some t | [] => None end))
      as [s|p| |] eqn:Ha.
    - destruct toks as [|t toks']; [exfalso; exact (action_shift_end _ _ Ha)|].
      apply IH; [now apply shift_wf|]. simpl in *. lia.
    - apply action_reduces_by in Ha.
      destruct (reduce_total stk p Hwf Ha) as [stk' [H1 [H2 H3]]].
      rewrite H1. apply IH; [assumption|lia].
    - destruct (accept_top stk _ Hwf Ha) as [s [n [below ->]]]. eauto.
    - eauto. }
  destruct toks as [|t toks'].
  - destruct lexerr as [e|]; [eauto|exact Hstep].
  - exact Hstep.
Qed.

Lemma parse_returns (text : string) : exists r, parse text = Some r.
Proof.
  unfold parse. destruct (tokenize_total text) as [toks [lexerr ->]].
  unfold parse_tokens. apply run_total; [exact I|]. simpl. lia.
Qed.

(** [parse] is total: every text gives a tree or an exception. *)
Lemma parse_total (text : string) : exists r, parse text = Some r.
Proof. exact (parse_returns text). Qed.

(** ** Rendering and parsing again *)

Lemma text_run_lower (w : string) : text_run (Py.lower w) = text_run w.
Proof.
  destruct w as [|c w]; [reflexivity|]. unfold text_run. cbn [Py.lower].
  cbn [list_ascii_of_string forallb]. rewrite text_char_lower. f_equal.
  induction w as [|c' w IH]; [reflexivity|].
  cbn [Py.lower list_ascii_of_string forallb]. now rewrite text_char_lower, IH.
Qed.

Lemma plain_word_lower (w : string) : plain_word w = true -> plain_word (Py.lower w) = true.
Proof. unfold plain_word. now rewrite text_run_lower, lower_idempotent. Qed.

Lemma append_empty (s : string) : s ++ "" = s.
Proof. induction s as [|c s IH]; simpl; [reflexivity|]. now rewrite IH. Qed.

Lemma plain_word_first (w : string) :
  plain_word w = true -> exists x r, w = String x r /\ is_text_char x = true.
Proof.
  unfold plain_word, text_run. destruct w as [|x r]; [discriminate|].
  simpl. intros H. apply andb_true_iff in H as [H _]. apply andb_true_iff in H as [H _].
  eauto.
Qed.

(** A condition rendered from a lowercase property, a canonical comparator
    and a literal that is a plain word lexes as its three tokens. *)
Lemma tokenize_rendered_condition (p c v : string) :
  plain_word p = true -> In c CANONICAL_COMPARATORS -> plain_word v = true ->
  tokenize (p ++ c ++ v)
  = Some ([ {| type := TEXT; value := p |};
            {| type := COMPARATOR; value := c |};
            {| type := TEXT; value := v |} ], None).
Proof.
  intros Hp Hc Hv.
  destruct (plain_word_first v Hv) as [x [r [Ev Hx]]].
  assert (Hends : ends_run (c ++ v) = true).
  { simpl in Hc. destruct Hc as [<-|[<-|[<-|[<-|[<-|[<-|[]]]]]]]; reflexivity. }
  pose proof Hp as Hp'. pose proof Hv as Hv'.
  unfold plain_word in Hp', Hv'.
  apply andb_true_iff in Hp' as [Hrp _]. apply andb_true_iff in Hv' as [Hrv _].
  rewrite tokenize_eq, (token_run p (c ++ v) Hrp Hends), (t_TEXT_plain p Hp).
  rewrite tokenize_eq. rewrite Ev at 1. rewrite (token_comparator c x r Hc Hx). rewrite <- Ev.
  rewrite tokenize_eq. rewrite <- (append_empty v) at 1.
  rewrite (token_run v "" Hrv eq_refl), (t_TEXT_plain v Hv).
  rewrite tokenize_eq, token_empty. reflexivity.
Qed.

(** C9, as stated, fails: the rendering is not query text.  An implicit
    condition is rendered with the marker [*] and a combination with commas,
    which the lexer rejects; a quoted literal is rendered without its
    quotes, so its words come back as conditions of their own, and a
    quoted reserved word comes back as an operator. *)
Lemma rendering_does_not_parse_back :
  (parse "bob" = Some (inr (Condition "*" "=" "bob"))
   /\ str (Condition "*" "=" "bob") = inr "*=bob"
   /\ parse "*=bob" = Some (inl (SearchException "Invalid character *")))
  /\ (parse "age > 30 OR age < 5"
      = Some (inr (BoolCombination OR [Condition "age" ">" "30"; Condition "age" "<" "5"]))
      /\ str (BoolCombination OR [Condition "age" ">" "30"; Condition "age" "<" "5"])
         = inr "OR(age>30, age<5)"
      /\ parse "OR(age>30, age<5)" = Some (inl (SearchException "Syntax error at 'OR'")))
  /\ (parse ("name = " ++ quoted "bob smith") = Some (inr (Condition "name" "=" "bob smith"))
      /\ str (Condition "name" "=" "bob smith") = inr "name=bob smith"
      /\ parse "name=bob smith"
         = Some (inr (BoolCombination AND [Condition "name" "=" "bob";
                                           Condition "*" "=" "smith"])))
  /\ (parse ("name = " ++ quoted "and") = Some (inr (Condition "name" "=" "and"))
      /\ str (Condition "name" "=" "and") = inr "name=and"
      /\ parse "name=and" = Some (inl (SearchException "Syntax error at 'and'"))).
Proof. repeat split; reflexivity. Qed.
(** ** Mutation of the receiver *)

(** C10: [optimized] is not read-only on its receiver: both [simplify]
    and [split_by_prop] assign the children list of the node they are
    called on.

    For the query parsed from [a OR b OR c OR d], OR(OR(OR(a, b), c), d),
    the call returns a new [ContactQuery] whose tree is the optimized
    one, and leaves the receiver's root with the children list that
    [simplify] assigned: [simplify] alone already turns the receiver's
    tree into OR(OR(a, b, c), d).

    For the query parsed from [a = 1 AND a = 2 OR b = 3],
    OR(AND(a=1, a=2), b=3), [simplify] returns the root itself and leaves
    the receiver's tree as it was; [split_by_prop], called on that root,
    assigns it the children it has split, and the receiver's tree is
    OR(AND[a](= 1, = 2), b=3) after the call.

    In both cases the receiver's tree after the call differs from the
    tree before it in structure, under [__eq__] and in its rendering. *)
Theorem optimized_mutates_receiver :
  (let a := Condition "*" "=" "a" in
   let b := Condition "*" "=" "b" in
   let c := Condition "*" "=" "c" in
   let d := Condition "*" "=" "d" in
   let before := BoolCombination OR [BoolCombination OR [BoolCombination OR [a; b]; c]; d] in
   let after := BoolCombination OR [BoolCombination OR [a; b; c]; d] in
   parse "a OR b OR c OR d" = Some (inr before)
   /\ exists query root h0 root1 h1 query' h',
        Objects.build_query before [] = (query, h0)
        /\ Objects.get h0 query = Some (Objects.O_ContactQuery root)
        /\ Objects.query_tree 8 h0 query = Some before
        /\ Objects.simplify 8 root h0 = Some (root1, h1)
        /\ root1 <> root
        /\ Objects.query_tree 8 h1 query = Some after
        /\ Objects.optimized 8 query h0 = Some (query', h')
        /\ query' <> query
        /\ Objects.query_tree 8 h' query' = Some (optimized before)
        /\ Objects.query_tree 8 h' query = Some after
        /\ after <> before
        /\ ContactQuery_eq before after = false
        /\ str before = inr "OR(OR(OR(*=a, *=b), *=c), *=d)"
        /\ str after = inr "OR(OR(*=a, *=b, *=c), *=d)")
  /\ (let a1 := Condition "a" "=" "1" in
      let a2 := Condition "a" "=" "2" in
      let b3 := Condition "b" "=" "3" in
      let before := BoolCombination OR [BoolCombination AND [a1; a2]; b3] in
      let after := BoolCombination OR [SinglePropCombination "a" AND [a1; a2]; b3] in
      parse "a = 1 AND a = 2 OR b = 3" = Some (inr before)
      /\ exists query root h0 h1 query' h',
           Objects.build_query before [] = (query, h0)
           /\ Objects.get h0 query = Some (Objects.O_ContactQuery root)
           /\ Objects.query_tree 8 h0 query = Some before
           /\ Objects.simplify 8 root h0 = Some (root, h1)
           /\ Objects.query_tree 8 h1 query = Some before
           /\ Objects.optimized 8 query h0 = Some (query', h')
           /\ query' <> query
           /\ Objects.query_tree 8 h' query' = Some (optimized before)
           /\ Objects.query_tree 8 h' query = Some after
           /\ after <> before
           /\ ContactQuery_eq before after = false
           /\ str before = inr "OR(AND(a=1, a=2), b=3)"
           /\ str after = inr "OR(AND[a](= 1, = 2), b=3)").
Proof.
  cbv zeta. split.
  - split; [reflexivity|].
    do 7 eexists.
    split; [reflexivity|]. split; [reflexivity|]. split; [reflexivity|].
    split; [reflexivity|]. split; [discriminate|]. split; [reflexivity|].
    split; [reflexivity|]. split; [discriminate|]. split; [reflexivity|].
    split; [reflexivity|]. split; [discriminate|]. repeat split; reflexivity.
  - split; [reflexivity|].
    do 6 eexists.
    split; [reflexivity|]. split; [reflexivity|]. split; [reflexivity|].
    split; [reflexivity|]. split; [reflexivity|]. split; [reflexivity|].
    split; [discriminate|]. split; [reflexivity|]. split; [reflexivity|].
    split; [discriminate|]. repeat split; reflexivity.
Qed.

(** ** The methods on objects and the functions on trees *)

Section ObjectsAndTrees.

Local Open Scope list_scope.

(** *** The store *)

Lemma get_app (h l : Objects.heap) (x : Objects.addr) :
  (x < List.length h)%nat -> Objects.get (h ++ l) x = Objects.get h x.
Proof. intros H. unfold Objects.get. now apply nth_error_app1. Qed.

Lemma get_new (o : Objects.Obj) (h : Objects.heap) :
  Objects.get (snd (Objects.new o h)) (fst (Objects.new o h)) = Some o.
Proof.
  unfold Objects.new, Objects.get. simpl.
  rewrite nth_error_app2 by lia. now rewrite Nat.sub_diag.
Qed.

Lemma get_valid (h : Objects.heap) (x : Objects.addr) (o : Objects.Obj) :
  Objects.get h x = Some o -> (x < List.length h)%nat.
Proof. unfold Objects.get. intros H. apply nth_error_Some. congruence. Qed.

Lemma length_put (h : Objects.heap) (a : Objects.addr) (o : Objects.Obj) :
  List.length (Objects.put h a o) = List.length h.
Proof.
  revert a. induction h as [|x h IH]; intros [|a]; simpl; try reflexivity.
  now rewrite IH.
Qed.

Lemma get_put_same (h : Objects.heap) (a : Objects.addr) (o : Objects.Obj) :
  (a < List.length h)%nat -> Objects.get (Objects.put h a o) a = Some o.
Proof.
  revert a. induction h as [|x h IH]; intros [|a]; simpl; intros H; try lia; try reflexivity.
  apply IH. lia.
Qed.

Lemma get_put_other (h : Objects.heap) (a x : Objects.addr) (o : Objects.Obj) :
  x <> a -> Objects.get (Objects.put h a o) x = Objects.get h x.
Proof.
  revert a x. induction h as [|y h IH]; intros [|a] [|x]; simpl; intros H;
    try reflexivity; try congruence.
  apply IH. congruence.
Qed.

Lemma length_set_children (h : Objects.heap) (a : Objects.addr) (cs : list Objects.addr) :
  List.length (Objects.set_children h a cs) = List.length h.
Proof.
  unfold Objects.set_children.
  destruct (Objects.get h a) as [[]|]; try reflexivity; apply length_put.
Qed.

Lemma get_set_children_other (h : Objects.heap) (a x : Objects.addr) (cs : list Objects.addr) :
  x <> a -> Objects.get (Objects.set_children h a cs) x = Objects.get h x.
Proof.
  intros H. unfold Objects.set_children.
  destruct (Objects.get h a) as [[]|]; try reflexivity; now apply get_put_other.
Qed.

(** *** Representations *)

Lemma rep_frame_mutual (h h' : Objects.heap) :
  (forall t a f, rep h t a f ->
                 (forall x, In x f -> Objects.get h' x = Objects.get h x) -> rep h' t a f)
  /\ (forall ts cs f, reps h ts cs f ->
                      (forall x, In x f -> Objects.get h' x = Objects.get h x) -> reps h' ts cs f).
Proof.
  apply rep_mutual_ind.
  - intros a p c v Hget Hf. constructor. rewrite Hf; [assumption|now left].
  - intros a op ts cs fs Hget Hreps IH Hf. econstructor.
    + rewrite Hf; [eassumption|now left].
    + apply IH. intros x Hx. apply Hf. now right.
  - intros a p op ts cs fs Hget Hreps IH Hf. econstructor.
    + rewrite Hf; [eassumption|now left].
    + apply IH. intros x Hx. apply Hf. now right.
  - intros _. constructor.
  - intros t ts c cs f fs Hrep IH1 Hreps IH2 Hf. constructor.
    + apply IH1. intros x Hx. apply Hf, in_or_app. now left.
    + apply IH2. intros x Hx. apply Hf, in_or_app. now right.
Qed.

Lemma rep_frame (h h' : Objects.heap) (t : QueryNode) (a : Objects.addr) (f : list Objects.addr) :
  rep h t a f -> (forall x, In x f -> Objects.get h' x = Objects.get h x) -> rep h' t a f.
Proof. apply rep_frame_mutual. Qed.

Lemma reps_frame (h h' : Objects.heap) (ts : list QueryNode) (cs f : list Objects.addr) :
  reps h ts cs f -> (forall x, In x f -> Objects.get h' x = Objects.get h x) -> reps h' ts cs f.
Proof. apply rep_frame_mutual. Qed.

Lemma rep_valid_mutual (h : Objects.heap) :
  (forall t a f, rep h t a f -> forall x, In x f -> (x < List.length h)%nat)
  /\ (forall ts cs f, reps h ts cs f -> forall x, In x f -> (x < List.length h)%nat).
Proof.
  apply rep_mutual_ind.
  - intros a p c v Hget x [<-|[]]. eapply get_valid; eauto.
  - intros a op ts cs fs Hget Hreps IH x [<-|Hx]; [eapply get_valid; eauto|now apply IH].
  - intros a p op ts cs fs Hget Hreps IH x [<-|Hx]; [eapply get_valid; eauto|now apply IH].
  - intros x [].
  - intros t ts c cs f fs Hrep IH1 Hreps IH2 x Hx.
    apply in_app_or in Hx as [Hx|Hx]; auto.
Qed.

Lemma rep_valid (h : Objects.heap) (t : QueryNode) (a : Objects.addr) (f : list Objects.addr) :
  rep h t a f -> forall x, In x f -> (x < List.length h)%nat.
Proof. apply rep_valid_mutual. Qed.

Lemma reps_valid (h : Objects.heap) (ts : list QueryNode) (cs f : list Objects.addr) :
  reps h ts cs f -> forall x, In x f -> (x < List.length h)%nat.
Proof. apply rep_valid_mutual. Qed.

Lemma reps_app (h : Objects.heap) (ts ts' : list QueryNode) (cs cs' f f' : list Objects.addr) :
  reps h ts cs f -> reps h ts' cs' f' -> reps h (ts ++ ts') (cs ++ cs') (f ++ f').
Proof.
  intros H H'. induction H as [|t ts c cs f1 fs Hrep Hreps IH]; [exact H'|].
  simpl. rewrite <- app_assoc. constructor; assumption.
Qed.

Lemma reps_length (h : Objects.heap) (ts : list QueryNode) (cs f : list Objects.addr) :
  reps h ts cs f -> List.length cs = List.length ts.
Proof. induction 1; simpl; congruence. Qed.

Lemma reps_single (h : Objects.heap) (t : QueryNode) (a : Objects.addr) (f : list Objects.addr) :
  rep h t a f -> reps h [t] [a] f.
Proof. intros H. rewrite <- (app_nil_r f). constructor; [assumption|constructor]. Qed.

Lemma reps_single_inv (h : Objects.heap) (t : QueryNode) (a : Objects.addr) (f : list Objects.addr) :
  reps h [t] [a] f -> rep h t a f.
Proof.
  intros H. inversion H as [|? ? ? ? f1 fs Hrep Hreps]; subst.
  inversion Hreps; subst. now rewrite app_nil_r.
Qed.

Lemma NoDup_app_parts {A} (l1 l2 : list A) :
  NoDup (l1 ++ l2) ->
  NoDup l1 /\ NoDup l2 /\ (forall x, In x l1 -> ~ In x l2).
Proof.
  induction l1 as [|a l1 IH]; simpl; intros H.
  - repeat split; [constructor|assumption|intros x []].
  - inversion H as [|? ? Hnotin Hnd]; subst. destruct (IH Hnd) as [H1 [H2 H3]].
    repeat split; [|assumption|].
    + constructor; [|assumption]. intros Hin. apply Hnotin, in_or_app. now left.
    + intros x [<-|Hx]; [|now apply H3]. intros Hin. apply Hnotin, in_or_app. now right.
Qed.

Lemma NoDup_app_join {A} (l1 l2 : list A) :
  NoDup l1 -> NoDup l2 -> (forall x, In x l1 -> ~ In x l2) -> NoDup (l1 ++ l2).
Proof.
  induction l1 as [|a l1 IH]; simpl; intros H1 H2 H; [assumption|].
  inversion H1 as [|? ? Hnotin Hnd]; subst. constructor.
  - intros Hin. apply in_app_or in Hin as [Hin|Hin]; [contradiction|].
    exact (H a (or_introl eq_refl) Hin).
  - apply IH; auto.
Qed.

(** *** The list comprehension over the children *)

Lemma map_heap_computes
      (M : nat -> Objects.addr -> Objects.heap -> option (Objects.addr * Objects.heap))
      (F : QueryNode -> QueryNode) (ts : list QueryNode) :
  Forall (computes M F) ts ->
  forall h cs fs fuel,
    reps h ts cs fs -> NoDup fs -> (forall t, In t ts -> (depth t < fuel)%nat) ->
    exists cs' h' fs',
      Objects.map_heap (M fuel) cs h = Some (cs', h')
      /\ reps h' (map F ts) cs' fs'
      /\ NoDup fs'
      /\ (forall x, In x fs' -> In x fs \/ (List.length h <= x)%nat)
      /\ (forall x, (x < List.length h)%nat -> ~ In x fs -> Objects.get h' x = Objects.get h x)
      /\ (List.length h <= List.length h')%nat.
Proof.
  induction 1 as [|t ts Ht Hts IH]; intros h cs fs fuel Hreps Hnd Hfuel.
  - inversion Hreps; subst. exists [], h, []. simpl.
    repeat split; auto; constructor.
  - inversion Hreps as [|? ? c cs0 f1 f2 Hrep Hreps0]; subst.
    destruct (NoDup_app_parts _ _ Hnd) as [Hnd1 [Hnd2 Hdisj]].
    destruct (Ht h c f1 fuel Hrep Hnd1 (Hfuel t (or_introl eq_refl)))
      as [c' [h1 [f1' [HM [Hrep1 [Hnd1' [Hin1 [Hframe1 Hlen1]]]]]]]].
    assert (Hreps1 : reps h1 ts cs0 f2).
    { apply (reps_frame h); [assumption|]. intros x Hx. apply Hframe1.
      - exact (reps_valid _ _ _ _ Hreps0 x Hx).
      - intros Hx1. exact (Hdisj x Hx1 Hx). }
    destruct (IH h1 cs0 f2 fuel Hreps1 Hnd2 (fun t' Ht' => Hfuel t' (or_intror Ht')))
      as [cs0' [h2 [f2' [Hmap [Hreps2 [Hnd2' [Hin2 [Hframe2 Hlen2]]]]]]]].
    assert (Hout : forall x, In x f1' -> ~ In x f2).
    { intros x Hx Hx2. destruct (Hin1 x Hx) as [Hx1|Hge].
      - exact (Hdisj x Hx1 Hx2).
      - pose proof (reps_valid _ _ _ _ Hreps0 x Hx2). lia. }
    exists (c' :: cs0'), h2, (f1' ++ f2'). simpl. rewrite HM, Hmap.
    split; [reflexivity|]. split; [|split; [|split; [|split]]].
    + constructor; [|assumption]. apply (rep_frame h1); [assumption|].
      intros x Hx. apply Hframe2; [exact (rep_valid _ _ _ _ Hrep1 x Hx)|now apply Hout].
    + apply NoDup_app_join; try assumption. intros x Hx Hx2.
      destruct (Hin2 x Hx2) as [Hx2'|Hge].
      * exact (Hout x Hx Hx2').
      * pose proof (rep_valid _ _ _ _ Hrep1 x Hx). lia.
    + intros x Hx. apply in_app_or in Hx as [Hx|Hx].
      * destruct (Hin1 x Hx); [left; apply in_or_app; now left|now right].
      * destruct (Hin2 x Hx); [left; apply in_or_app; now right|right; lia].
    + intros x Hx Hnotin. rewrite Hframe2, Hframe1; try reflexivity; try assumption.
      * intros Hx1. apply Hnotin, in_or_app. now left.
      * lia.
      * intros Hx2. apply Hnotin, in_or_app. now right.
    + lia.
Qed.

Lemma depth_children (op : BoolOp) (ts : list QueryNode) (fuel : nat) :
  (S (fold_right (fun c m => Nat.max (depth c) m) 0 ts) < S fuel)%nat ->
  forall t, In t ts -> (depth t < fuel)%nat.
Proof.
  intros H t Ht. induction ts as [|t' ts IH]; [destruct Ht|].
  simpl in H. destruct Ht as [->|Ht]; [lia|]. apply IH; [lia|assumption].
Qed.

(** *** [simplify] *)

Lemma simplify_loop_rep (h : Objects.heap) (op : BoolOp) (ts : list QueryNode) :
  forall cs f acc_t acc_c acc_f,
    reps h ts cs f -> reps h acc_t acc_c acc_f ->
    match simplify_loop op ts acc_t with
    | None => Objects.simplify_loop h op cs acc_c = Objects.ReturnSelf
    | Some simplified =>
        exists addrs fsimp,
          Objects.simplify_loop h op cs acc_c = Objects.Simplified addrs
          /\ reps h simplified addrs fsimp
          /\ (forall x, In x fsimp -> In x acc_f \/ In x f)
          /\ (NoDup (acc_f ++ f) -> NoDup fsimp)
    end.
Proof.
  induction ts as [|t ts IH]; intros cs f acc_t acc_c acc_f Hreps Hacc.
  - inversion Hreps; subst. simpl. exists acc_c, acc_f.
    rewrite app_nil_r. repeat split; auto.
  - inversion Hreps as [|? ? c cs0 f1 f2 Hrep Hreps0]; subst.
    inversion Hrep as [a p cm v Hget|a cop ts1 cs1 fs1 Hget Hreps1
                       |a p cop ts1 cs1 fs1 Hget Hreps1]; subst;
      cbn [simplify_loop Objects.simplify_loop]; rewrite Hget.
    + specialize (IH cs0 f2 (acc_t ++ [Condition p cm v]) (acc_c ++ [c]) (acc_f ++ [c])
                     Hreps0 (reps_app _ _ _ _ _ _ _ Hacc (reps_single _ _ _ _ Hrep))).
      destruct (simplify_loop op ts (acc_t ++ [Condition p cm v])) as [simplified|];
        [|exact IH].
      destruct IH as [addrs [fsimp [H1 [H2 [H3 H4]]]]].
      exists addrs, fsimp. repeat split; try assumption.
      * intros x Hx. destruct (H3 x Hx) as [Hx'|Hx'].
        -- apply in_app_or in Hx' as [Hx'|Hx']; [now left|].
           right. apply in_or_app. now left.
        -- right. apply in_or_app. now right.
      * intros Hnd. apply H4. now rewrite <- app_assoc.
    + destruct (negb (BoolOp_eqb cop op)); [reflexivity|].
      specialize (IH cs0 f2 (acc_t ++ ts1) (acc_c ++ cs1) (acc_f ++ fs1)
                     Hreps0 (reps_app _ _ _ _ _ _ _ Hacc Hreps1)).
      destruct (simplify_loop op ts (acc_t ++ ts1)) as [simplified|]; [|exact IH].
      destruct IH as [addrs [fsimp [H1 [H2 [H3 H4]]]]].
      exists addrs, fsimp. repeat split; try assumption.
      * intros x Hx. destruct (H3 x Hx) as [Hx'|Hx'].
        -- apply in_app_or in Hx' as [Hx'|Hx']; [now left|].
           right. apply in_or_app. left. now right.
        -- right. apply in_or_app. now right.
      * intros Hnd. apply H4. rewrite <- app_assoc.
        simpl in Hnd. exact (NoDup_remove_1 _ _ _ Hnd).
    + destruct (negb (BoolOp_eqb cop op)); [reflexivity|].
      specialize (IH cs0 f2 (acc_t ++ ts1) (acc_c ++ cs1) (acc_f ++ fs1)
                     Hreps0 (reps_app _ _ _ _ _ _ _ Hacc Hreps1)).
      destruct (simplify_loop op ts (acc_t ++ ts1)) as [simplified|]; [|exact IH].
      destruct IH as [addrs [fsimp [H1 [H2 [H3 H4]]]]].
      exists addrs, fsimp. repeat split; try assumption.
      * intros x Hx. destruct (H3 x Hx) as [Hx'|Hx'].
        -- apply in_app_or in Hx' as [Hx'|Hx']; [now left|].
           right. apply in_or_app. left. now right.
        -- right. apply in_or_app. now right.
      * intros Hnd. apply H4. rewrite <- app_assoc.
        simpl in Hnd. exact (NoDup_remove_1 _ _ _ Hnd).
Qed.

Lemma get_set_children_BoolCombination (h : Objects.heap) (a : Objects.addr) (op : BoolOp)
      (cs cs' : list Objects.addr) :
  Objects.get h a = Some (Objects.O_BoolCombination op cs) ->
  Objects.get (Objects.set_children h a cs') a = Some (Objects.O_BoolCombination op cs').
Proof.
  intros H. unfold Objects.set_children. rewrite H.
  apply get_put_same. eapply get_valid; eauto.
Qed.

Lemma get_set_children_SinglePropCombination (h : Objects.heap) (a : Objects.addr)
      (p : string) (op : BoolOp) (cs cs' : list Objects.addr) :
  Objects.get h a = Some (Objects.O_SinglePropCombination p op cs) ->
  Objects.get (Objects.set_children h a cs') a
  = Some (Objects.O_SinglePropCombination p op cs').
Proof.
  intros H. unfold Objects.set_children. rewrite H.
  apply get_put_same. eapply get_valid; eauto.
Qed.

(** After the children are simplified and assigned to the node: the loop
    and the node returned. *)
Lemma simplify_finish (h h1 : Objects.heap) (a : Objects.addr) (op : BoolOp)
      (ts' : list QueryNode) (cs' fs fs' : list Objects.addr) (self : QueryNode) :
  let h2 := Objects.set_children h1 a cs' in
  (a < List.length h)%nat -> ~ In a fs ->
  reps h1 ts' cs' fs' -> NoDup fs' ->
  (forall x, In x fs' -> In x fs \/ (List.length h <= x)%nat) ->
  (forall x, (x < List.length h)%nat -> ~ In x fs -> Objects.get h1 x = Objects.get h x) ->
  (List.length h <= List.length h1)%nat ->
  (reps h2 ts' cs' fs' -> rep h2 self a (a :: fs')) ->
  exists a' h' f',
    match Objects.simplify_loop h2 op cs' [] with
    | Objects.ReturnSelf => Some (a, h2)
    | Objects.Simplified simplified =>
        Some (Objects.new (Objects.O_BoolCombination op simplified) h2)
    | Objects.Dangling => None
    end = Some (a', h')
    /\ rep h' match simplify_loop op ts' [] with
              | None => self
              | Some simplified => BoolCombination op simplified
              end a' f'
    /\ NoDup f'
    /\ (forall x, In x f' -> In x (a :: fs) \/ (List.length h <= x)%nat)
    /\ (forall x, (x < List.length h)%nat -> ~ In x (a :: fs) ->
                  Objects.get h' x = Objects.get h x)
    /\ (List.length h <= List.length h')%nat.
Proof.
  intros h2 Ha Hnotin Hreps1 Hnd1 Hin1 Hframe1 Hlen1 Hself.
  assert (Hlen2 : List.length h2 = List.length h1) by apply length_set_children.
  assert (Hnotin1 : ~ In a fs').
  { intros Hin. destruct (Hin1 a Hin); [contradiction|lia]. }
  assert (Hreps2 : reps h2 ts' cs' fs').
  { apply (reps_frame h1); [assumption|]. intros x Hx.
    apply get_set_children_other. intros ->. contradiction. }
  assert (Hframe2 : forall x, (x < List.length h)%nat -> ~ In x (a :: fs) ->
                              Objects.get h2 x = Objects.get h x).
  { intros x Hx Hnot. unfold h2. rewrite get_set_children_other.
    - apply Hframe1; [assumption|]. intros Hin. apply Hnot. now right.
    - intros ->. apply Hnot. now left. }
  pose proof (simplify_loop_rep h2 op ts' cs' fs' [] [] [] Hreps2 (reps_nil h2)) as Hloop.
  destruct (simplify_loop op ts' []) as [simplified|].
  - destruct Hloop as [addrs [fsimp [Hl [Hrs [Hsub Hnds]]]]]. rewrite Hl.
    exists (List.length h2), (h2 ++ [Objects.O_BoolCombination op addrs]),
      (List.length h2 :: fsimp).
    split; [reflexivity|].
    assert (Hvalid : forall x, In x fsimp -> (x < List.length h2)%nat).
    { exact (reps_valid _ _ _ _ Hrs). }
    split; [|split; [|split; [|split]]].
    + econstructor.
      * exact (get_new (Objects.O_BoolCombination op addrs) h2).
      * apply (reps_frame h2); [assumption|]. intros x Hx. apply get_app. now apply Hvalid.
    + constructor; [|now apply Hnds].
      intros Hin. apply Hvalid in Hin. lia.
    + intros x [<-|Hx]; [right; lia|].
      destruct (Hsub x Hx) as [[]|Hx']. destruct (Hin1 x Hx'); [left; now right|now right].
    + intros x Hx Hnot. rewrite get_app by lia. now apply Hframe2.
    + rewrite length_app. simpl. lia.
  - rewrite Hloop. exists a, h2, (a :: fs').
    split; [reflexivity|]. split; [now apply Hself|].
    split; [now constructor|]. split; [|split].
    + intros x [<-|Hx]; [left; now left|].
      destruct (Hin1 x Hx); [left; now right|now right].
    + exact Hframe2.
    + lia.
Qed.

(** On a tree of distinct objects, the method [simplify] returns the tree
    that the function [simplify] gives. *)
Lemma simplify_computes (t : QueryNode) : computes Objects.simplify simplify t.
Proof.
  induction t as [p c v|op ts IH|p op ts IH] using QueryNode_tree_ind;
    intros h a f fuel Hrep Hnd Hfuel;
    (destruct fuel as [|fuel]; [lia|]).
  - inversion Hrep as [? ? ? ? Hget| |]; subst.
    exists a, h, [a]. cbn [Objects.simplify]. rewrite Hget.
    repeat split; auto.
  - inversion Hrep as [|? ? ? cs fs Hget Hreps|]; subst.
    inversion Hnd as [|? ? Hnotin Hndfs]; subst.
    pose proof (get_valid _ _ _ Hget) as Ha.
    destruct (map_heap_computes _ _ ts IH h cs fs fuel Hreps Hndfs
                                (depth_children op ts fuel Hfuel))
      as [cs' [h1 [fs' [Hmap [Hreps1 [Hnd1 [Hin1 [Hframe1 Hlen1]]]]]]]].
    cbn [Objects.simplify simplify]. rewrite Hget, Hmap.
    apply (simplify_finish h h1 a op (map simplify ts) cs' fs fs'); try assumption.
    intros Hreps2. econstructor; [|exact Hreps2].
    apply get_set_children_BoolCombination with (cs := cs).
    rewrite Hframe1; assumption.
  - inversion Hrep as [| |? ? ? ? cs fs Hget Hreps]; subst.
    inversion Hnd as [|? ? Hnotin Hndfs]; subst.
    pose proof (get_valid _ _ _ Hget) as Ha.
    destruct (map_heap_computes _ _ ts IH h cs fs fuel Hreps Hndfs
                                (depth_children op ts fuel Hfuel))
      as [cs' [h1 [fs' [Hmap [Hreps1 [Hnd1 [Hin1 [Hframe1 Hlen1]]]]]]]].
    cbn [Objects.simplify simplify]. rewrite Hget, Hmap.
    apply (simplify_finish h h1 a op (map simplify ts) cs' fs fs'); try assumption.
    intros Hreps2. econstructor; [|exact Hreps2].
    apply get_set_children_SinglePropCombination with (cs := cs).
    rewrite Hframe1; assumption.
Qed.

(** *** [split_by_prop] *)

Lemma child_prop_rep (h : Objects.heap) (t : QueryNode) (c : Objects.addr) (f : list Objects.addr) :
  rep h t c f -> Objects.child_prop h c = child_prop t.
Proof.
  intros H. unfold Objects.child_prop.
  inversion H as [? ? ? ? Hget|? ? ? ? ? Hget _|? ? ? ? ? ? Hget _]; subst;
    rewrite Hget; reflexivity.
Qed.

Lemma dreps_frame (h h' : Objects.heap) (d_t : OrderedDict) (d_c : Objects.OrderedDict)
      (F : list Objects.addr) :
  dreps h d_t d_c F -> (forall x, In x F -> Objects.get h' x = Objects.get h x) ->
  dreps h' d_t d_c F.
Proof.
  induction 1 as [|k ts cs f d_t d_c fs Hreps Hd IH]; intros Hf; constructor.
  - apply (reps_frame h); [assumption|]. intros x Hx. apply Hf, in_or_app. now left.
  - apply IH. intros x Hx. apply Hf, in_or_app. now right.
Qed.

Lemma dreps_valid (h : Objects.heap) (d_t : OrderedDict) (d_c : Objects.OrderedDict)
      (F : list Objects.addr) :
  dreps h d_t d_c F -> forall x, In x F -> (x < List.length h)%nat.
Proof.
  induction 1 as [|k ts cs f d_t d_c fs Hreps Hd IH]; intros x Hx; [destruct Hx|].
  apply in_app_or in Hx as [Hx|Hx]; [exact (reps_valid _ _ _ _ Hreps x Hx)|now apply IH].
Qed.

Lemma od_append_rep (h : Objects.heap) (k : option string) (t : QueryNode)
      (c : Objects.addr) (f : list Objects.addr)
      (d_t : OrderedDict) (d_c : Objects.OrderedDict) (F : list Objects.addr) :
  dreps h d_t d_c F -> rep h t c f ->
  exists F', dreps h (od_append d_t k t) (Objects.od_append d_c k c) F'
             /\ Permutation F' (F ++ f).
Proof.
  intros Hd Hrep. induction Hd as [|k' ts cs f1 d_t d_c fs Hreps Hd IH].
  - exists (f ++ []). split.
    + simpl. constructor; [now apply reps_single|constructor].
    + rewrite app_nil_r. apply Permutation_refl.
  - simpl. destruct (key_eqb k k').
    + exists ((f1 ++ f) ++ fs). split.
      * constructor; [|assumption]. apply reps_app; [assumption|now apply reps_single].
      * rewrite <- !app_assoc. apply Permutation_app_head, Permutation_app_comm.
    + destruct IH as [F' [Hd' Hperm]]. exists (f1 ++ F'). split.
      * constructor; assumption.
      * rewrite <- app_assoc. now apply Permutation_app_head.
Qed.

Lemma children_by_prop_fold_rep (h : Objects.heap) (ts : list QueryNode) :
  forall cs fs d_t d_c F,
    reps h ts cs fs -> dreps h d_t d_c F ->
    exists F',
      dreps h (fold_left (fun d child => od_append d (child_prop child) child) ts d_t)
            (fold_left (fun d child => Objects.od_append d (Objects.child_prop h child) child)
                       cs d_c)
            F'
      /\ Permutation F' (F ++ fs).
Proof.
  induction ts as [|t ts IH]; intros cs fs d_t d_c F Hreps Hd.
  - inversion Hreps; subst. exists F. simpl. rewrite app_nil_r. split; [assumption|reflexivity].
  - inversion Hreps as [|? ? c cs0 f1 f2 Hrep Hreps0]; subst.
    cbn [fold_left]. rewrite (child_prop_rep _ _ _ _ Hrep).
    destruct (od_append_rep h (child_prop t) t c f1 d_t d_c F Hd Hrep) as [F1 [Hd1 Hp1]].
    destruct (IH cs0 f2 _ _ F1 Hreps0 Hd1) as [F' [Hd' Hp']].
    exists F'. split; [assumption|].
    rewrite Hp', app_assoc. now apply Permutation_app_tail.
Qed.

Lemma children_by_prop_rep (h : Objects.heap) (ts : list QueryNode) (cs fs : list Objects.addr) :
  reps h ts cs fs ->
  exists F', dreps h (children_by_prop ts) (Objects.children_by_prop h cs) F'
             /\ Permutation F' fs.
Proof.
  intros H. exact (children_by_prop_fold_rep h ts cs fs [] [] [] H (dreps_nil h)).
Qed.

Lemma new_children_rep (op : BoolOp) (d_t : OrderedDict) :
  forall h d_c F,
    dreps h d_t d_c F -> NoDup F ->
    exists nc h' F',
      Objects.new_children op d_c h = (nc, h')
      /\ reps h' (new_children op d_t) nc F'
      /\ NoDup F'
      /\ (forall x, In x F' -> In x F \/ (List.length h <= x)%nat)
      /\ (forall x, (x < List.length h)%nat -> Objects.get h' x = Objects.get h x)
      /\ (List.length h <= List.length h')%nat.
Proof.
  induction d_t as [|[k ts] d_t IH]; intros h d_c F Hd Hnd.
  - inversion Hd; subst. exists [], h, []. simpl. repeat split; auto; constructor.
  - inversion Hd as [|? ? cs f ? d_c0 fs Hreps Hd0]; subst.
    destruct (NoDup_app_parts _ _ Hnd) as [Hndf [Hndfs Hdisj]].
    pose proof (reps_length _ _ _ _ Hreps) as Hlen.
    assert (Hplain :
              exists nc h' F',
                (let (r, h2) := Objects.new_children op d_c0 h in ((cs ++ r), h2)) = (nc, h')
                /\ reps h' (ts ++ new_children op d_t) nc F'
                /\ NoDup F'
                /\ (forall x, In x F' -> In x (f ++ fs) \/ (List.length h <= x)%nat)
                /\ (forall x, (x < List.length h)%nat -> Objects.get h' x = Objects.get h x)
                /\ (List.length h <= List.length h')%nat).
    { destruct (IH h d_c0 fs Hd0 Hndfs) as [r [h2 [Fr [Hn [Hr [Hndr [Hinr [Hext Hl]]]]]]]].
      rewrite Hn. exists (cs ++ r), h2, (f ++ Fr). split; [reflexivity|].
      split; [|split; [|split; [|split]]]; try assumption.
      - apply reps_app; [|assumption]. apply (reps_frame h); [assumption|].
        intros x Hx. apply Hext. exact (reps_valid _ _ _ _ Hreps x Hx).
      - apply NoDup_app_join; try assumption. intros x Hx Hxr.
        destruct (Hinr x Hxr) as [Hxfs|Hge]; [exact (Hdisj x Hx Hxfs)|].
        pose proof (reps_valid _ _ _ _ Hreps x Hx). lia.
      - intros x Hx. apply in_app_or in Hx as [Hx|Hx].
        + left. apply in_or_app. now left.
        + destruct (Hinr x Hx); [left; apply in_or_app; now right|now right]. }
    unfold new_children. cbn [flat_map Objects.new_children]. fold (new_children op d_t).
    destruct k as [p|]; [|exact Hplain].
    rewrite Hlen. destruct (1 <? List.length ts)%nat; [|exact Hplain].
    clear Hplain.
    set (obj := Objects.O_SinglePropCombination p op cs).
    assert (Hd1 : dreps (h ++ [obj]) d_t d_c0 fs).
    { apply (dreps_frame h); [assumption|]. intros x Hx. apply get_app.
      exact (dreps_valid _ _ _ _ Hd0 x Hx). }
    destruct (IH (h ++ [obj]) d_c0 fs Hd1 Hndfs)
      as [r [h2 [Fr [Hn [Hr [Hndr [Hinr [Hext Hl]]]]]]]].
    rewrite length_app in Hinr, Hext, Hl. simpl in Hinr, Hext, Hl.
    unfold Objects.new. fold obj. rewrite Hn.
    exists (List.length h :: r), h2, ((List.length h :: f) ++ Fr).
    split; [reflexivity|].
    split; [|split; [|split; [|split]]].
    + constructor; [|assumption]. econstructor.
      * rewrite Hext by lia. exact (get_new obj h).
      * apply (reps_frame h); [assumption|]. intros x Hx.
        pose proof (reps_valid _ _ _ _ Hreps x Hx).
        rewrite Hext by lia. now apply get_app.
    + simpl. constructor.
      * intros Hin. apply in_app_or in Hin as [Hin|Hin].
        -- pose proof (reps_valid _ _ _ _ Hreps _ Hin). lia.
        -- destruct (Hinr _ Hin) as [Hx|Hge]; [|lia].
           pose proof (dreps_valid _ _ _ _ Hd0 _ Hx). lia.
      * apply NoDup_app_join; try assumption. intros x Hx Hxr.
        destruct (Hinr x Hxr) as [Hxfs|Hge]; [exact (Hdisj x Hx Hxfs)|].
        pose proof (reps_valid _ _ _ _ Hreps x Hx). lia.
    + intros x [<-|Hx]; [now right|].
      apply in_app_or in Hx as [Hx|Hx].
      * left. apply in_or_app. now left.
      * destruct (Hinr x Hx); [left; apply in_or_app; now right|right; lia].
    + intros x Hx. rewrite Hext by lia. now apply get_app.
    + lia.
Qed.

Lemma Permutation_NoDup_in (l l' : list Objects.addr) :
  Permutation l l' -> NoDup l' -> NoDup l /\ (forall x, In x l -> In x l').
Proof.
  intros Hp Hnd. split.
  - exact (Permutation_NoDup (Permutation_sym Hp) Hnd).
  - intros x. exact (Permutation_in x Hp).
Qed.

(** After the children are split and assigned to the node: the groups and
    the node returned. *)
Lemma split_finish (h h1 : Objects.heap) (a : Objects.addr) (op : BoolOp)
      (ts' : list QueryNode) (cs' fs fs' : list Objects.addr) :
  let h2 := Objects.set_children h1 a cs' in
  (a < List.length h)%nat -> ~ In a fs ->
  reps h1 ts' cs' fs' -> NoDup fs' ->
  (forall x, In x fs' -> In x fs \/ (List.length h <= x)%nat) ->
  (forall x, (x < List.length h)%nat -> ~ In x fs -> Objects.get h1 x = Objects.get h x) ->
  (List.length h <= List.length h1)%nat ->
  exists a' h' f',
    (let (nc, h3) := Objects.new_children op (Objects.children_by_prop h2 cs') h2 in
     match nc with
     | [only] => Some (only, h3)
     | _ => Some (Objects.new (Objects.O_BoolCombination op nc) h3)
     end) = Some (a', h')
    /\ rep h' (split_node op ts') a' f'
    /\ NoDup f'
    /\ (forall x, In x f' -> In x (a :: fs) \/ (List.length h <= x)%nat)
    /\ (forall x, (x < List.length h)%nat -> ~ In x (a :: fs) ->
                  Objects.get h' x = Objects.get h x)
    /\ (List.length h <= List.length h')%nat.
Proof.
  intros h2 Ha Hnotin Hreps1 Hnd1 Hin1 Hframe1 Hlen1.
  assert (Hlen2 : List.length h2 = List.length h1) by apply length_set_children.
  assert (Hnotin1 : ~ In a fs').
  { intros Hin. destruct (Hin1 a Hin); [contradiction|lia]. }
  assert (Hreps2 : reps h2 ts' cs' fs').
  { apply (reps_frame h1); [assumption|]. intros x Hx.
    apply get_set_children_other. intros ->. contradiction. }
  assert (Hframe2 : forall x, (x < List.length h)%nat -> ~ In x (a :: fs) ->
                              Objects.get h2 x = Objects.get h x).
  { intros x Hx Hnot. unfold h2. rewrite get_set_children_other.
    - apply Hframe1; [assumption|]. intros Hin. apply Hnot. now right.
    - intros ->. apply Hnot. now left. }
  destruct (children_by_prop_rep h2 ts' cs' fs' Hreps2) as [F [Hd Hperm]].
  destruct (Permutation_NoDup_in _ _ Hperm Hnd1) as [HndF HinF].
  destruct (new_children_rep op _ h2 _ F Hd HndF)
    as [nc [h3 [F' [Hn [Hr [Hnd' [Hin' [Hext Hl]]]]]]]].
  rewrite Hn. unfold split_node.
  pose proof (reps_length _ _ _ _ Hr) as Hlen.
  assert (Hbound : forall x, In x F' -> In x (a :: fs) \/ (List.length h <= x)%nat).
  { intros x Hx. destruct (Hin' x Hx) as [HxF|Hge]; [|right; lia].
    destruct (Hin1 x (HinF x HxF)); [left; now right|now right]. }
  assert (Hframe3 : forall x, (x < List.length h)%nat -> ~ In x (a :: fs) ->
                              Objects.get h3 x = Objects.get h x).
  { intros x Hx Hnot. rewrite Hext by lia. now apply Hframe2. }
  assert (Hnew :
            exists a' h' f',
              Some (Objects.new (Objects.O_BoolCombination op nc) h3) = Some (a', h')
              /\ rep h' (BoolCombination op (new_children op (children_by_prop ts'))) a' f'
              /\ NoDup f'
              /\ (forall x, In x f' -> In x (a :: fs) \/ (List.length h <= x)%nat)
              /\ (forall x, (x < List.length h)%nat -> ~ In x (a :: fs) ->
                            Objects.get h' x = Objects.get h x)
              /\ (List.length h <= List.length h')%nat).
  { exists (List.length h3), (h3 ++ [Objects.O_BoolCombination op nc]), (List.length h3 :: F').
    split; [reflexivity|].
    assert (Hvalid : forall x, In x F' -> (x < List.length h3)%nat).
    { exact (reps_valid _ _ _ _ Hr). }
    split; [|split; [|split; [|split]]].
    - econstructor.
      + exact (get_new (Objects.O_BoolCombination op nc) h3).
      + apply (reps_frame h3); [assumption|]. intros x Hx. apply get_app. now apply Hvalid.
    - constructor; [|assumption]. intros Hin. apply Hvalid in Hin. lia.
    - intros x [<-|Hx]; [right; lia|now apply Hbound].
    - intros x Hx Hnot. rewrite get_app by lia. now apply Hframe3.
    - rewrite length_app. simpl. lia. }
  destruct (new_children op (children_by_prop ts')) as [|t1 [|t2 r]] eqn:Epure.
  - destruct nc as [|c1 nc]; [|discriminate Hlen]. exact Hnew.
  - destruct nc as [|c1 [|c2 nc]]; try discriminate Hlen.
    exists c1, h3, F'. split; [reflexivity|].
    split; [now apply reps_single_inv|]. split; [assumption|].
    split; [assumption|]. split; [assumption|lia].
  - destruct nc as [|c1 [|c2 nc]]; try discriminate Hlen. exact Hnew.
Qed.

(** On a tree of distinct objects, the method [split_by_prop] returns the
    tree that the function [split_by_prop] gives. *)
Lemma split_by_prop_computes (t : QueryNode) :
  computes Objects.split_by_prop split_by_prop t.
Proof.
  induction t as [p c v|op ts IH|p op ts IH] using QueryNode_tree_ind;
    intros h a f fuel Hrep Hnd Hfuel;
    (destruct fuel as [|fuel]; [lia|]).
  - inversion Hrep as [? ? ? ? Hget| |]; subst.
    exists a, h, [a]. cbn [Objects.split_by_prop]. rewrite Hget.
    repeat split; auto.
  - inversion Hrep as [|? ? ? cs fs Hget Hreps|]; subst.
    inversion Hnd as [|? ? Hnotin Hndfs]; subst.
    pose proof (get_valid _ _ _ Hget) as Ha.
    destruct (map_heap_computes _ _ ts IH h cs fs fuel Hreps Hndfs
                                (depth_children op ts fuel Hfuel))
      as [cs' [h1 [fs' [Hmap [Hreps1 [Hnd1 [Hin1 [Hframe1 Hlen1]]]]]]]].
    cbn [Objects.split_by_prop split_by_prop]. rewrite Hget, Hmap.
    now apply (split_finish h h1 a op (map split_by_prop ts) cs' fs fs').
  - inversion Hrep as [| |? ? ? ? cs fs Hget Hreps]; subst.
    inversion Hnd as [|? ? Hnotin Hndfs]; subst.
    pose proof (get_valid _ _ _ Hget) as Ha.
    destruct (map_heap_computes _ _ ts IH h cs fs fuel Hreps Hndfs
                                (depth_children op ts fuel Hfuel))
      as [cs' [h1 [fs' [Hmap [Hreps1 [Hnd1 [Hin1 [Hframe1 Hlen1]]]]]]]].
    cbn [Objects.split_by_prop split_by_prop]. rewrite Hget, Hmap.
    now apply (split_finish h h1 a op (map split_by_prop ts) cs' fs fs').
Qed.

(** *** Reading a tree back and building one *)

Lemma tree_of_rep_mutual (h : Objects.heap) :
  (forall t a f, rep h t a f ->
                 forall fuel, (depth t < fuel)%nat -> Objects.tree_of fuel h a = Some t)
  /\ (forall ts cs f, reps h ts cs f ->
                      forall fuel, (forall t, In t ts -> (depth t < fuel)%nat) ->
                                   (fix go (l : list Objects.addr) : option (list QueryNode) :=
                                      match l with
                                      | [] => Some []
                                      | c :: r =>
                                          match Objects.tree_of fuel h c, go r with
                                          | Some t, Some ts => Some (t :: ts)
                                          | _, _ => None
                                          end
                                      end) cs = Some ts).
Proof.
  apply rep_mutual_ind.
  - intros a p c v Hget [|fuel] Hfuel; [lia|]. simpl. now rewrite Hget.
  - intros a op ts cs fs Hget Hreps IH [|fuel] Hfuel; [lia|].
    cbn [Objects.tree_of]. rewrite Hget.
    rewrite (IH fuel (depth_children op ts fuel Hfuel)). reflexivity.
  - intros a p op ts cs fs Hget Hreps IH [|fuel] Hfuel; [lia|].
    cbn [Objects.tree_of]. rewrite Hget.
    rewrite (IH fuel (depth_children op ts fuel Hfuel)). reflexivity.
  - reflexivity.
  - intros t ts c cs f fs Hrep IH1 Hreps IH2 fuel Hfuel.
    rewrite (IH1 fuel (Hfuel t (or_introl eq_refl))).
    rewrite (IH2 fuel (fun t' Ht' => Hfuel t' (or_intror Ht'))). reflexivity.
Qed.

Lemma tree_of_rep (h : Objects.heap) (t : QueryNode) (a : Objects.addr) (f : list Objects.addr)
      (fuel : nat) :
  rep h t a f -> (depth t < fuel)%nat -> Objects.tree_of fuel h a = Some t.
Proof. intros H. now apply (proj1 (tree_of_rep_mutual h)) with (f := f). Qed.

(** The objects built for a list of trees, given what is built for each. *)
Lemma build_all_rep
      (build_all : list QueryNode -> Objects.heap -> list Objects.addr * Objects.heap) :
  (forall h, build_all [] h = ([], h)) ->
  (forall c r h, build_all (c :: r) h
                 = let (a, h1) := Objects.build c h in
                   let (r', h2) := build_all r h1 in (a :: r', h2)) ->
  forall l,
    Forall (fun t => forall h a h', Objects.build t h = (a, h') ->
               exists f, rep h' t a f /\ NoDup f
                 /\ (forall x, In x f -> (List.length h <= x)%nat)
                 /\ (forall x, (x < List.length h)%nat -> Objects.get h' x = Objects.get h x)
                 /\ (List.length h <= List.length h')%nat) l ->
    forall h cs h', build_all l h = (cs, h') ->
      exists fs, reps h' l cs fs /\ NoDup fs
        /\ (forall x, In x fs -> (List.length h <= x)%nat)
        /\ (forall x, (x < List.length h)%nat -> Objects.get h' x = Objects.get h x)
        /\ (List.length h <= List.length h')%nat.
Proof.
  intros Hnil Hcons. induction 1 as [|t l Ht Hl IHl]; intros h cs h' Hb.
  - rewrite Hnil in Hb. injection Hb as <- <-. exists [].
    split; [constructor|]. split; [constructor|]. split; [intros x []|]. auto.
  - rewrite Hcons in Hb. destruct (Objects.build t h) as [a h1] eqn:E1.
    destruct (build_all l h1) as [r h2] eqn:E2. injection Hb as <- <-.
    destruct (Ht h a h1 E1) as [f [Hrep [Hnd [Hlo [Hext Hlen]]]]].
    destruct (IHl h1 r h2 E2) as [fs [Hreps [Hnds [Hlos [Hexts Hlens]]]]].
    exists (f ++ fs). split; [|split; [|split; [|split]]].
    + constructor; [|assumption]. apply (rep_frame h1); [assumption|].
      intros x Hx. apply Hexts. exact (rep_valid _ _ _ _ Hrep x Hx).
    + apply NoDup_app_join; try assumption. intros x Hx Hxs.
      pose proof (rep_valid _ _ _ _ Hrep x Hx). specialize (Hlos x Hxs). lia.
    + intros x Hx. apply in_app_or in Hx as [Hx|Hx]; [now apply Hlo|].
      specialize (Hlos x Hx). lia.
    + intros x Hx. rewrite Hexts by lia. now apply Hext.
    + lia.
Qed.

(** The objects built for a tree are distinct new objects that represent
    it. *)
Lemma build_rep (t : QueryNode) :
  forall h a h',
    Objects.build t h = (a, h') ->
    exists f,
      rep h' t a f
      /\ NoDup f
      /\ (forall x, In x f -> (List.length h <= x)%nat)
      /\ (forall x, (x < List.length h)%nat -> Objects.get h' x = Objects.get h x)
      /\ (List.length h <= List.length h')%nat.
Proof.
  induction t as [p c v|op ts IH|p op ts IH] using QueryNode_tree_ind; intros h a h' Hb.
  - simpl in Hb. injection Hb as <- <-. exists [List.length h].
    split; [constructor; exact (get_new (Objects.O_Condition p c v) h)|].
    split; [constructor; [intros []|constructor]|].
    split; [intros x [<-|[]]; lia|].
    split; [intros x Hx; now apply get_app|]. rewrite length_app. simpl. lia.
  - cbn [Objects.build] in Hb.
    match type of Hb with
    | (let (_, _) := ?go ts h in _) = _ => set (build_all := go) in Hb
    end.
    destruct (build_all ts h) as [cs h1] eqn:E. injection Hb as <- <-.
    destruct (build_all_rep build_all (fun _ => eq_refl) (fun _ _ _ => eq_refl) ts IH h cs h1 E)
      as [fs [Hreps [Hnds [Hlos [Hexts Hlens]]]]].
    exists (List.length h1 :: fs).
    pose proof (reps_valid _ _ _ _ Hreps) as Hvalid.
    split; [|split; [|split; [|split]]].
    + econstructor; [exact (get_new (Objects.O_BoolCombination op cs) h1)|].
      apply (reps_frame h1); [assumption|]. intros x Hx. apply get_app. now apply Hvalid.
    + constructor; [|assumption]. intros Hin. apply Hvalid in Hin. lia.
    + intros x [<-|Hx]; [lia|now apply Hlos].
    + intros x Hx. simpl. rewrite get_app by lia. now apply Hexts.
    + simpl. rewrite length_app. simpl. lia.
  - cbn [Objects.build] in Hb.
    match type of Hb with
    | (let (_, _) := ?go ts h in _) = _ => set (build_all := go) in Hb
    end.
    destruct (build_all ts h) as [cs h1] eqn:E. injection Hb as <- <-.
    destruct (build_all_rep build_all (fun _ => eq_refl) (fun _ _ _ => eq_refl) ts IH h cs h1 E)
      as [fs [Hreps [Hnds [Hlos [Hexts Hlens]]]]].
    exists (List.length h1 :: fs).
    pose proof (reps_valid _ _ _ _ Hreps) as Hvalid.
    split; [|split; [|split; [|split]]].
    + econstructor; [exact (get_new (Objects.O_SinglePropCombination p op cs) h1)|].
      apply (reps_frame h1); [assumption|]. intros x Hx. apply get_app. now apply Hvalid.
    + constructor; [|assumption]. intros Hin. apply Hvalid in Hin. lia.
    + intros x [<-|Hx]; [lia|now apply Hlos].
    + intros x Hx. simpl. rewrite get_app by lia. now apply Hexts.
    + simpl. rewrite length_app. simpl. lia.
Qed.

(** *** [optimized] *)

Lemma max_depth_bound (ts : list QueryNode) (n : nat) :
  (forall t, In t ts -> (depth t <= n)%nat) ->
  (fold_right (fun c m => Nat.max (depth c) m) 0 ts <= n)%nat.
Proof.
  induction ts as [|t ts IH]; simpl; intros H; [lia|].
  pose proof (H t (or_introl eq_refl)). specialize (IH (fun t' Ht' => H t' (or_intror Ht'))). lia.
Qed.

Lemma max_depth_member (ts : list QueryNode) (t : QueryNode) :
  In t ts -> (depth t <= fold_right (fun c m => Nat.max (depth c) m) 0 ts)%nat.
Proof.
  induction ts as [|t' ts IH]; simpl; intros H; [destruct H|].
  destruct H as [->|H]; [lia|]. specialize (IH H). lia.
Qed.

Lemma depth_splice (c g : QueryNode) : In g (splice c) -> (depth g <= depth c)%nat.
Proof.
  destruct c as [p cm v|op cs|p op cs]; simpl.
  - intros [<-|[]]. simpl. lia.
  - intros H. apply max_depth_member in H. lia.
  - intros H. apply max_depth_member in H. lia.
Qed.

(** [simplify] does not make a tree higher. *)
Lemma depth_simplify (t : QueryNode) : (depth (simplify t) <= depth t)%nat.
Proof.
  induction t as [p c v|op ts IH|p op ts IH] using QueryNode_tree_ind; [simpl; lia| |].
  - rewrite simplify_BoolCombination.
    assert (Hmap : forall t', In t' (map simplify ts) ->
                              (depth t' <= fold_right (fun c m => Nat.max (depth c) m) 0 ts)%nat).
    { intros t' Ht'. apply in_map_iff in Ht' as [t0 [<- Ht0]].
      rewrite Forall_forall in IH. specialize (IH t0 Ht0).
      pose proof (max_depth_member ts t0 Ht0). lia. }
    destruct (existsb (other_op op) (map simplify ts)); cbn [depth]; apply le_n_S.
    + now apply max_depth_bound.
    + apply max_depth_bound. intros g Hg. apply in_flat_map in Hg as [c [Hc Hg]].
      apply depth_splice in Hg. specialize (Hmap c Hc). lia.
  - rewrite simplify_SinglePropCombination.
    assert (Hmap : forall t', In t' (map simplify ts) ->
                              (depth t' <= fold_right (fun c m => Nat.max (depth c) m) 0 ts)%nat).
    { intros t' Ht'. apply in_map_iff in Ht' as [t0 [<- Ht0]].
      rewrite Forall_forall in IH. specialize (IH t0 Ht0).
      pose proof (max_depth_member ts t0 Ht0). lia. }
    destruct (existsb (other_op op) (map simplify ts)); cbn [depth]; apply le_n_S.
    + now apply max_depth_bound.
    + apply max_depth_bound. intros g Hg. apply in_flat_map in Hg as [c [Hc Hg]].
      apply depth_splice in Hg. specialize (Hmap c Hc). lia.
Qed.

(** For the objects that the parser builds for a tree, [query.optimized()]
    returns a new [ContactQuery] whose tree is the one the functions on
    trees give: [split_by_prop (simplify root)]. *)
Theorem optimized_on_objects (t : QueryNode) (h : Objects.heap) :
  let query := fst (Objects.build_query t h) in
  let h0 := snd (Objects.build_query t h) in
  exists query' h',
    Objects.optimized (S (depth t)) query h0 = Some (query', h')
    /\ query' <> query
    /\ Objects.query_tree (S (depth t)) h0 query = Some t
    /\ Objects.query_tree (S (depth (optimized t))) h' query' = Some (optimized t).
Proof.
  unfold Objects.build_query.
  destruct (Objects.build t h) as [root h1] eqn:Eb.
  destruct (build_rep t h root h1 Eb) as [f [Hrep [Hnd [Hlo [Hext Hlen]]]]].
  cbn [fst snd Objects.new].
  set (h0 := h1 ++ [Objects.O_ContactQuery root]).
  assert (Hq : Objects.get h0 (List.length h1) = Some (Objects.O_ContactQuery root)).
  { exact (get_new (Objects.O_ContactQuery root) h1). }
  assert (Hrep0 : rep h0 t root f).
  { apply (rep_frame h1); [assumption|]. intros x Hx. apply get_app.
    exact (rep_valid _ _ _ _ Hrep x Hx). }
  destruct (simplify_computes t h0 root f (S (depth t)) Hrep0 Hnd ltac:(lia))
    as [r1 [h2 [f1 [Hs [Hrep1 [Hnd1 [Hin1 [Hframe1 Hlen1]]]]]]]].
  pose proof (depth_simplify t) as Hdepth.
  destruct (split_by_prop_computes (simplify t) h2 r1 f1 (S (depth t)) Hrep1 Hnd1 ltac:(lia))
    as [r2 [h3 [f2 [Hsp [Hrep2 [Hnd2 [Hin2 [Hframe2 Hlen2]]]]]]]].
  assert (Hlen0 : List.length h0 = S (List.length h1)).
  { unfold h0. rewrite length_app. simpl. lia. }
  exists (List.length h3), (h3 ++ [Objects.O_ContactQuery r2]).
  unfold Objects.optimized, Objects.query_tree. rewrite Hq, Hs, Hsp.
  split; [reflexivity|]. split; [lia|]. split.
  - apply (tree_of_rep h0 t root f); [assumption|lia].
  - assert (Hq' : Objects.get (h3 ++ [Objects.O_ContactQuery r2]) (List.length h3)
                  = Some (Objects.O_ContactQuery r2)).
    { exact (get_new (Objects.O_ContactQuery r2) h3). }
    rewrite Hq'.
    apply (tree_of_rep _ _ _ f2); [|unfold optimized; lia].
    apply (rep_frame h3); [assumption|]. intros x Hx. apply get_app.
    exact (rep_valid _ _ _ _ Hrep2 x Hx).
Qed.

End ObjectsAndTrees.

(** ** [simplify] and what a query selects *)

Section SimplifySelection.

Context {ext : Externals}.
Variable org : Org.
Variable prop_map : dict PropEntry.

Local Open Scope list_scope.

Lemma as_query_BoolCombination (op : BoolOp) (children : list QueryNode) :
  as_query (BoolCombination op children) org prop_map
  = (qs <- mapM (fun child => as_query child org prop_map) children ;;
     reduce (apply_op op) qs).
Proof.
  cbn [as_query]. f_equal.
  induction children as [|c r IH]; [reflexivity|]. cbn [mapM]. now rewrite IH.
Qed.

Lemma eval_fold (op : BoolOp) (st : Store) (c : Contact) (qs : list Q) (q : Q) :
  eval_Q st (fold_left (apply_op op) qs q) c = eval_all op st c (q :: qs).
Proof.
  revert q. induction qs as [|q' qs IH]; intros q.
  - destruct op; simpl; [now rewrite andb_true_r|now rewrite orb_false_r].
  - cbn [fold_left]. rewrite IH. destruct op; simpl.
    + now rewrite andb_assoc.
    + now rewrite orb_assoc.
Qed.

Lemma eval_all_app (op : BoolOp) (st : Store) (c : Contact) (qs qs' : list Q) :
  eval_all op st c (qs ++ qs')
  = match op with
    | AND => andb (eval_all op st c qs) (eval_all op st c qs')
    | OR => orb (eval_all op st c qs) (eval_all op st c qs')
    end.
Proof. destruct op; simpl; [apply forallb_app|apply existsb_app]. Qed.

(** Combining the children: results that agree as lists give results that
    agree. *)
Lemma reduce_same_selection (op : BoolOp) (r r' : result (list Q)) :
  same_selection_all op r r' ->
  same_selection (qs <- r ;; reduce (apply_op op) qs) (qs <- r' ;; reduce (apply_op op) qs).
Proof.
  destruct r as [e|qs], r' as [e'|qs']; simpl; try tauto.
  intros [Hne [Hne' H]].
  destruct qs as [|q qs]; [congruence|]. destruct qs' as [|q' qs']; [congruence|].
  simpl. intros st c. rewrite !eval_fold. apply H.
Qed.

Lemma mapM_app {A B} (f : A -> result B) (l l' : list A) :
  mapM f (l ++ l') = (a <- mapM f l ;; b <- mapM f l' ;; ret (a ++ b)).
Proof.
  induction l as [|x l IH]; simpl.
  - destruct (mapM f l'); reflexivity.
  - destruct (f x) as [e|y]; [reflexivity|]. simpl. rewrite IH.
    destruct (mapM f l) as [e|ys]; [reflexivity|]. simpl.
    destruct (mapM f l') as [e|zs]; reflexivity.
Qed.

Lemma mapM_nonempty {A B} (f : A -> result B) (l : list A) (r : list B) :
  l <> [] -> mapM f l = inr r -> r <> [].
Proof.
  destruct l as [|x l]; [congruence|]. intros _. simpl.
  destruct (f x) as [e|y]; [discriminate|]. simpl.
  destruct (mapM f l) as [e|ys]; [discriminate|]. simpl.
  intros H. injection H as <-. discriminate.
Qed.

(** The children compiled one by one and the simplified children compiled
    one by one. *)
Lemma children_same_selection (op : BoolOp) (children : list QueryNode) :
  children <> [] ->
  Forall (fun c => same_selection (as_query c org prop_map)
                                  (as_query (simplify c) org prop_map)) children ->
  same_selection_all op (mapM (fun c => as_query c org prop_map) children)
                     (mapM (fun c => as_query c org prop_map) (map simplify children)).
Proof.
  intros Hne H. induction H as [|t ts Ht Hts IH]; [congruence|].
  cbn [map mapM].
  destruct (as_query t org prop_map) as [e|q], (as_query (simplify t) org prop_map) as [e'|q'];
    simpl in Ht; try tauto; simpl; try exact Ht.
  destruct ts as [|t' ts].
  - simpl. repeat split; try discriminate. intros st c.
    destruct op; simpl; now rewrite Ht.
  - specialize (IH ltac:(discriminate)).
    destruct (mapM (fun c => as_query c org prop_map) (t' :: ts)) as [e|qs],
        (mapM (fun c => as_query c org prop_map) (map simplify (t' :: ts))) as [e'|qs'];
      simpl in IH; try tauto; simpl; try exact IH.
    destruct IH as [_ [_ IH]]. repeat split; try discriminate. intros st c.
    specialize (IH st c). destruct op; simpl in *; now rewrite Ht, IH.
Qed.

(** The children compiled one by one and the spliced children compiled
    one by one, when every child combination has the operator of the
    parent. *)
Lemma splice_same_selection (op : BoolOp) (children : list QueryNode) :
  children <> [] ->
  forallb parsed_shape children = true ->
  existsb (other_op op) children = false ->
  same_selection_all op (mapM (fun c => as_query c org prop_map) children)
                     (mapM (fun c => as_query c org prop_map) (flat_map splice children)).
Proof.
  intros Hne Hshape Hop. induction children as [|t ts IH]; [congruence|].
  cbn [forallb existsb] in Hshape, Hop.
  apply andb_true_iff in Hshape as [Ht Hts]. apply orb_false_iff in Hop as [Hot Hots].
  cbn [flat_map]. rewrite mapM_app. cbn [mapM].
  assert (Hrest :
            match ts with
            | [] => mapM (fun c => as_query c org prop_map) (flat_map splice ts) = inr []
            | _ :: _ =>
                same_selection_all op (mapM (fun c => as_query c org prop_map) ts)
                                   (mapM (fun c => as_query c org prop_map)
                                         (flat_map splice ts))
            end).
  { destruct ts as [|t' ts']; [reflexivity|]. apply IH; [discriminate|assumption|assumption]. }
  clear IH.
  assert (Hhead :
            match as_query t org prop_map,
                  mapM (fun c => as_query c org prop_map) (splice t) with
            | inl e, inl e' => e = e'
            | inr q, inr qs =>
                qs <> [] /\ forall st c, eval_Q st q c = eval_all op st c qs
            | _, _ => False
            end).
  { destruct t as [p cm v|cop cs|p cop cs]; [| |discriminate Ht].
    - cbn [splice mapM].
      destruct (as_query (Condition p cm v) org prop_map) as [e|q]; [reflexivity|].
      simpl. split; [discriminate|]. intros st c.
      destruct op; simpl; [now rewrite andb_true_r|now rewrite orb_false_r].
    - unfold other_op in Hot. simpl in Hot. apply negb_false_iff, BoolOp_eqb_eq in Hot.
      subst cop. cbn [splice]. rewrite as_query_BoolCombination.
      simpl in Ht. apply andb_true_iff in Ht as [Hcs _].
      destruct (mapM (fun child => as_query child org prop_map) cs) as [e|qs] eqn:E;
        [reflexivity|].
      assert (Hqs : qs <> []).
      { apply (mapM_nonempty (fun child => as_query child org prop_map) cs qs); [|exact E].
        destruct cs; [discriminate|discriminate]. }
      destruct qs as [|q qs]; [congruence|]. simpl. split; [discriminate|].
      intros st c. apply eval_fold. }
  destruct (as_query t org prop_map) as [e|q],
      (mapM (fun c => as_query c org prop_map) (splice t)) as [e'|qs];
    try tauto; simpl; try exact Hhead.
  destruct Hhead as [Hqs Hq].
  destruct ts as [|t' ts'].
  - rewrite Hrest. simpl. rewrite app_nil_r. repeat split; try discriminate; try assumption.
    intros st c. rewrite <- Hq. destruct op; simpl; [now rewrite andb_true_r|now rewrite orb_false_r].
  - destruct (mapM (fun c => as_query c org prop_map) (t' :: ts')) as [e|qr],
        (mapM (fun c => as_query c org prop_map) (flat_map splice (t' :: ts'))) as [e'|qr'];
      simpl in Hrest; try tauto; simpl; try exact Hrest.
    destruct Hrest as [_ [_ Hrest]]. repeat split; try discriminate.
    + intros H. apply app_eq_nil in H as [H _]. contradiction.
    + intros st c. rewrite eval_all_app. specialize (Hrest st c). specialize (Hq st c).
      destruct op; simpl in *; now rewrite Hq, Hrest.
Qed.

Lemma same_selection_trans (r1 r2 r3 : result Q) :
  same_selection r1 r2 -> same_selection r2 r3 -> same_selection r1 r3.
Proof.
  destruct r1, r2, r3; simpl; try tauto; try congruence;
    try (intros H1 H2 st c; now rewrite H1, H2).
Qed.

Lemma same_selection_refl (r : result Q) : same_selection r r.
Proof. destruct r; simpl; auto. Qed.

Lemma parsed_shape_splice (children : list QueryNode) :
  forallb parsed_shape children = true ->
  forallb parsed_shape (flat_map splice children) = true.
Proof.
  induction children as [|c r IH]; [reflexivity|]. cbn [forallb flat_map].
  intros H. apply andb_true_iff in H as [Hc Hr]. rewrite forallb_app, (IH Hr), andb_true_r.
  destruct c as [p cm v|op cs|p op cs]; simpl in *; try discriminate.
  - reflexivity.
  - now apply andb_true_iff in Hc as [_ Hc].
Qed.

Lemma flat_map_splice_nonempty (children : list QueryNode) :
  children <> [] -> forallb parsed_shape children = true -> flat_map splice children <> [].
Proof.
  destruct children as [|c r]; [congruence|]. intros _. cbn [forallb flat_map].
  intros H. apply andb_true_iff in H as [Hc _].
  destruct c as [p cm v|op [|c' cs]|p op cs]; simpl in *; discriminate.
Qed.

(** [simplify] keeps the shape of parsed trees. *)
Lemma parsed_shape_simplify (n : QueryNode) :
  parsed_shape n = true -> parsed_shape (simplify n) = true.
Proof.
  induction n as [p c v|op children IH|prop op children IH] using QueryNode_tree_ind;
    [reflexivity| |discriminate].
  intros H. simpl in H. apply andb_true_iff in H as [Hne Hall].
  assert (Hkids : forallb parsed_shape (map simplify children) = true).
  { rewrite forallb_forall in *. intros x Hx. apply in_map_iff in Hx as [y [<- Hy]].
    rewrite Forall_forall in IH. apply IH; auto. }
  assert (Hne' : map simplify children <> []).
  { destruct children; [discriminate|discriminate]. }
  rewrite simplify_BoolCombination.
  destruct (existsb (other_op op) (map simplify children)); cbn [parsed_shape].
  - rewrite Hkids. destruct (map simplify children); [congruence|reflexivity].
  - rewrite (parsed_shape_splice _ Hkids).
    pose proof (flat_map_splice_nonempty _ Hne' Hkids) as Hflat.
    destruct (flat_map splice (map simplify children)); [congruence|reflexivity].
Qed.

(** For a tree of the shape the parser builds, the simplified tree compiles
    to the same exception or to a predicate that selects the same contacts
    in every store. *)
Theorem simplify_same_selection (n : QueryNode) :
  parsed_shape n = true ->
  same_selection (as_query n org prop_map) (as_query (simplify n) org prop_map).
Proof.
  induction n as [p c v|op children IH|prop op children IH] using QueryNode_tree_ind;
    [intros _; apply same_selection_refl| |discriminate].
  intros H. pose proof (parsed_shape_simplify _ H) as Hsimp.
  simpl in H. apply andb_true_iff in H as [Hne Hall].
  assert (Hne0 : children <> []) by (destruct children; [discriminate|discriminate]).
  assert (Hne' : map simplify children <> []) by (destruct children; [discriminate|discriminate]).
  assert (Hkids : forallb parsed_shape (map simplify children) = true).
  { rewrite forallb_forall in *. intros x Hx. apply in_map_iff in Hx as [y [<- Hy]].
    now apply parsed_shape_simplify, Hall. }
  assert (IH' : Forall (fun c => same_selection (as_query c org prop_map)
                                                (as_query (simplify c) org prop_map)) children).
  { rewrite Forall_forall in *. intros x Hx. apply IH; [assumption|].
    rewrite forallb_forall in Hall. now apply Hall. }
  apply same_selection_trans with (as_query (BoolCombination op (map simplify children)) org prop_map).
  - rewrite !as_query_BoolCombination. apply reduce_same_selection.
    now apply children_same_selection.
  - rewrite simplify_BoolCombination.
    destruct (existsb (other_op op) (map simplify children)) eqn:Ho;
      [apply same_selection_refl|].
    rewrite !as_query_BoolCombination. apply reduce_same_selection.
    now apply splice_same_selection.
Qed.

End SimplifySelection.

(** *** The shape of parsed trees *)

Section ParsedTrees.

Variable P : QueryNode -> Prop.
Hypothesis P_condition :
  forall prop comparator value, P (Condition_init (Py.lower prop) (Py.lower comparator) value).
Hypothesis P_implicit : forall value, P (Condition_init IMPLICIT_PROP "=" value).
Hypothesis P_combination : forall op a b, P a -> P b -> P (BoolCombination op [a; b]).

Lemma push_expression_closed (stk stk' : Stack) (n : QueryNode) :
  expressions_satisfy P stk -> P n -> push_expression stk n = Some stk' ->
  expressions_satisfy P stk'.
Proof.
  intros Hstk Hn. unfold push_expression.
  destruct (goto_expression (top_state stk)) as [s|]; [|discriminate].
  intros H. injection H as <-. intros s' m [Heq|Hin].
  - injection Heq as _ <-. exact Hn.
  - exact (Hstk s' m Hin).
Qed.

Lemma push_literal_closed (stk stk' : Stack) (v : string) :
  expressions_satisfy P stk -> push_literal stk v = Some stk' -> expressions_satisfy P stk'.
Proof.
  intros Hstk. unfold push_literal.
  destruct (goto_literal (top_state stk)) as [s|]; [|discriminate].
  intros H. injection H as <-. intros s' m [Heq|Hin]; [discriminate Heq|].
  exact (Hstk s' m Hin).
Qed.

Lemma reduce_closed (p : Production) (stk stk' : Stack) :
  expressions_satisfy P stk -> reduce_production p stk = Some stk' -> expressions_satisfy P stk'.
Proof.
  intros Hstk.
  assert (Hbelow : forall e stk0, expressions_satisfy P (e :: stk0) -> expressions_satisfy P stk0).
  { intros e stk0 H s n Hin. apply (H s n). now right. }
  assert (Htop : forall s n stk0, expressions_satisfy P ((s, V_expression n) :: stk0) -> P n).
  { intros s n stk0 H. apply (H s n). now left. }
  destruct p; simpl;
    repeat match goal with
           | |- match ?l with [] => _ | _ :: _ => _ end = _ -> _ =>
               destruct l as [|[? ?] ?]; [discriminate|]
           | |- match ?v with V_token _ => _ | V_expression _ => _ | V_literal _ => _ end = _ -> _ =>
               destruct v; try discriminate
           end;
    intros H;
    first [ eapply push_literal_closed; [|exact H]; eauto
          | eapply push_expression_closed; [| |exact H]; eauto 6 ].
Qed.

Lemma run_closed (fuel : nat) :
  forall stk toks lexerr n,
    expressions_satisfy P stk -> run fuel stk toks lexerr = Some (inr n) -> P n.
Proof.
  induction fuel as [|fuel IH]; intros stk toks lexerr n Hstk; [discriminate|].
  cbn [run].
  destruct (defaulted (top_state stk)) as [p|].
  { destruct (reduce_production p stk) as [stk'|] eqn:Hr; [|discriminate].
    apply IH. exact (reduce_closed p stk stk' Hstk Hr). }
  assert (Hstep :
            match action (top_state stk)
                         (option_map type match toks with t :: _ => Some t | [] => None end) with
            | Shift s =>
                match toks with
                | t :: toks' => run fuel ((s, V_token (value t)) :: stk) toks' lexerr
                | [] => None
                end
            | Reduce p =>
                match reduce_production p stk with
                | Some stk' => run fuel stk' toks lexerr
                | None => None
                end
            | Accept =>
                match stk with
                | (_, V_expression n) :: _ => Some (ret n)
                | _ => None
                end
            | Error => Some (raise (p_error match toks with t :: _ => Some t | [] => None end))
            end = Some (inr n) -> P n).
  { destruct (action (top_state stk)
                     (option_map type match toks with t :: _ => Some t | [] => None end))
      as [s|p| |].
    - destruct toks as [|t toks']; [discriminate|].
      apply IH. intros s' m [Heq|Hin]; [discriminate Heq|exact (Hstk s' m Hin)].
    - destruct (reduce_production p stk) as [stk'|] eqn:Hr; [|discriminate].
      apply IH. exact (reduce_closed p stk stk' Hstk Hr).
    - destruct stk as [|[s [v|m|v]] below]; try discriminate.
      intros H. injection H as <-. apply (Hstk s m). now left.
    - discriminate. }
  destruct toks as [|t toks'].
  - destruct lexerr as [e|]; [discriminate|]. exact Hstep.
  - exact Hstep.
Qed.

(** A property of every condition that two-child combinations keep holds
    of every tree the parser returns. *)
Lemma parse_closed (text : string) (root : QueryNode) :
  parse text = Some (inr root) -> P root.
Proof.
  unfold parse, parse_tokens.
  destruct (tokenize text) as [[toks lexerr]|]; [|discriminate].
  apply run_closed. intros s n [].
Qed.

End ParsedTrees.

(** The parser builds binary [BoolCombination]s over conditions. *)
Lemma parse_parsed_shape (text : string) (root : QueryNode) :
  parse text = Some (inr root) -> parsed_shape root = true.
Proof.
  apply (parse_closed (fun n => parsed_shape n = true)).
  - reflexivity.
  - reflexivity.
  - intros op a b Ha Hb. simpl. now rewrite Ha, Hb.
Qed.

(** For every query the parser returns, the simplified tree compiles to the
    same exception or to a predicate that selects the same contacts in
    every store. *)
Theorem simplify_keeps_selection (ext : Externals) (text : string) (root : QueryNode)
        (org : Org) (prop_map : dict PropEntry) :
  parse text = Some (inr root) ->
  same_selection (as_query root org prop_map) (as_query (simplify root) org prop_map).
Proof. intros H. apply simplify_same_selection. exact (parse_parsed_shape text root H). Qed.

(** The theorem at the text [email = x OR email = y OR ann]. *)
Lemma simplify_keeps_selection_witness :
  same_selection
    (as_query (ext := Example.externals)
              (BoolCombination OR [BoolCombination OR [Condition "email" "=" "x";
                                                       Condition "email" "=" "y"];
                                   Condition "*" "=" "ann"])
              Example.org [("email", PROP_FIELD Example.email)])
    (as_query (ext := Example.externals)
              (simplify
                 (BoolCombination OR [BoolCombination OR [Condition "email" "=" "x";
                                                          Condition "email" "=" "y"];
                                      Condition "*" "=" "ann"]))
              Example.org [("email", PROP_FIELD Example.email)]).
Proof.
  apply (simplify_keeps_selection Example.externals "email = x OR email = y OR ann").
  reflexivity.
Defined.
(** ** Invariants of the parsing loop *)

Section RunInvariant.

Variable J : Stack -> Prop.
Variable P : QueryNode -> Prop.

Hypothesis J_shift :
  forall stk t s,
    stack_wf stk -> J stk -> token_ok t ->
    action (top_state stk) (Some (type t)) = Shift s ->
    J ((s, V_token (value t)) :: stk).
Hypothesis J_reduce :
  forall stk p stk',
    stack_wf stk -> J stk -> reduces_by (top_state stk) = Some p ->
    reduce_production p stk = Some stk' -> J stk'.
Hypothesis J_accept :
  forall n below,
    stack_wf ((St_expr, V_expression n) :: below) ->
    J ((St_expr, V_expression n) :: below) -> P n.

Lemma action_accept (st : State) (la : option TokenType) :
  action st la = Accept -> st = St_expr.
Proof.
  destruct st; simpl; try discriminate; try reflexivity;
    destruct la as [[]|]; simpl; try discriminate;
    unfold resolve; simpl; discriminate.
Qed.

Lemma reduce_step (stk stk' : Stack) (p : Production) :
  stack_wf stk -> J stk -> reduces_by (top_state stk) = Some p ->
  reduce_production p stk = Some stk' -> stack_wf stk' /\ J stk'.
Proof.
  intros Hwf HJ Hp Hr. split; [|exact (J_reduce stk p stk' Hwf HJ Hp Hr)].
  destruct (reduce_total stk p Hwf Hp) as [stk'' [H1 [H2 _]]]. congruence.
Qed.

(** A property of the stack kept by every shift and every reduction
    holds when the loop accepts. *)
Lemma run_invariant (fuel : nat) :
  forall stk toks lexerr n,
    stack_wf stk -> J stk -> Forall token_ok toks ->
    run fuel stk toks lexerr = Some (inr n) -> P n.
Proof.
  induction fuel as [|fuel IH]; intros stk toks lexerr n Hwf HJ Htoks; [discriminate|].
  cbn [run].
  destruct (defaulted (top_state stk)) as [p|] eqn:Hd.
  { destruct (reduce_production p stk) as [stk'|] eqn:Hr; [|discriminate].
    destruct (reduce_step stk stk' p Hwf HJ (defaulted_reduces_by _ _ Hd) Hr) as [Hwf' HJ'].
    now apply IH. }
  assert (Hstep :
            match action (top_state stk)
                         (option_map type match toks with t :: _ => Some t | [] => None end) with
            | Shift s =>
                match toks with
                | t :: toks' => run fuel ((s, V_token (value t)) :: stk) toks' lexerr
                | [] => None
                end
            | Reduce p =>
                match reduce_production p stk with
                | Some stk' => run fuel stk' toks lexerr
                | None => None
                end
            | Accept =>
                match stk with
                | (_, V_expression n) :: _ => Some (ret n)
                | _ => None
                end
            | Error => Some (raise (p_error match toks with t :: _ => Some t | [] => None end))
            end = Some (inr n) -> P n).
  { destruct (action (top_state stk)
                     (option_map type match toks with t :: _ => Some t | [] => None end))
      as [s|p| |] eqn:Ha.
    - destruct toks as [|t toks']; [discriminate|].
      inversion Htoks as [|? ? Ht Htoks']; subst.
      apply IH; [now apply shift_wf|now apply J_shift|assumption].
    - destruct (reduce_production p stk) as [stk'|] eqn:Hr; [|discriminate].
      destruct (reduce_step stk stk' p Hwf HJ (action_reduces_by _ _ _ Ha) Hr) as [Hwf' HJ'].
      now apply IH.
    - apply action_accept in Ha.
      destruct stk as [|[s [v|m|v]] below]; try discriminate.
      intros H. injection H as <-. simpl in Ha. subst s. now apply (J_accept m below).
    - discriminate. }
  destruct toks as [|t toks'].
  - destruct lexerr as [e|]; [discriminate|]. exact Hstep.
  - exact Hstep.
Qed.

End RunInvariant.

(** *** Property names of parsed trees *)

Lemma action_shift_text (st : State) (la : option TokenType) :
  action st la = Shift St_text -> la = Some TEXT.
Proof.
  destruct st; simpl; try discriminate;
    destruct la as [[]|]; simpl; try discriminate; try reflexivity;
    unfold resolve; simpl; discriminate.
Qed.

Lemma push_expression_plain (stk stk' : Stack) (n : QueryNode) :
  stack_plain stk -> props_plain n = true -> push_expression stk n = Some stk' ->
  stack_plain stk'.
Proof.
  intros Hstk Hn. unfold push_expression.
  destruct (goto_expression (top_state stk)) as [s|]; [|discriminate].
  intros H. injection H as <-. simpl. auto.
Qed.

Lemma push_literal_plain (stk stk' : Stack) (v : string) :
  stack_plain stk -> push_literal stk v = Some stk' -> stack_plain stk'.
Proof.
  intros Hstk. unfold push_literal.
  destruct (goto_literal (top_state stk)) as [s|]; [|discriminate].
  intros H. injection H as <-. simpl. auto.
Qed.

Lemma Condition_init_prop (prop comparator value : string) :
  exists c, Condition_init prop comparator value = Condition prop c value.
Proof. unfold Condition_init. eauto. Qed.

Lemma reduce_plain (stk stk' : Stack) (p : Production) :
  stack_wf stk -> stack_plain stk -> reduces_by (top_state stk) = Some p ->
  reduce_production p stk = Some stk' -> stack_plain stk'.
Proof.
  intros Hwf Hstk Hp.
  destruct p; simpl;
    repeat match goal with
           | |- match ?l with [] => _ | _ :: _ => _ end = _ -> _ =>
               destruct l as [|[? ?] ?]; [discriminate|]
           | |- match ?v with V_token _ => _ | V_expression _ => _ | V_literal _ => _ end = _ -> _ =>
               destruct v; try discriminate
           end;
    simpl in Hstk; intros H.
  - eapply push_expression_plain; [| |exact H]; [tauto|].
    simpl. destruct Hstk as [H3 [_ [H1 _]]]. now rewrite H1, H3.
  - eapply push_expression_plain; [| |exact H]; [tauto|].
    simpl. destruct Hstk as [H3 [_ [H1 _]]]. now rewrite H1, H3.
  - eapply push_expression_plain; [| |exact H]; [tauto|].
    simpl. destruct Hstk as [H2 [H1 _]]. now rewrite H1, H2.
  - eapply push_expression_plain; [| |exact H]; [tauto|]. tauto.
  - (* the condition: the token under the comparator led to St_text *)
    eapply push_expression_plain; [| |exact H]; [tauto|].
    simpl in Hp.
    match goal with
    | Hwf : stack_wf ((?s1, _) :: (?s2, _) :: (?s3, _) :: _) |- _ =>
        destruct Hwf as [He1 [He2 [He3 _]]];
        apply edge_entered in He1, He2; simpl in He1, He2;
        destruct s1; try discriminate Hp; simpl in He1;
        destruct He1 as [Hb1 _]; simpl in Hb1; subst s2; simpl in He2;
        destruct He2 as [Hb2 _]; simpl in Hb2; subst s3
    end.
    destruct Hstk as [_ [_ [Hplain _]]]. specialize (Hplain eq_refl).
    unfold Condition_init. cbn [props_plain].
    rewrite (plain_word_lower _ Hplain), lower_idempotent, String.eqb_refl.
    apply orb_true_r.
  - eapply push_expression_plain; [| |exact H]; [tauto|]. reflexivity.
  - eapply push_literal_plain; [|exact H]. tauto.
  - eapply push_literal_plain; [|exact H]. tauto.
Qed.

Lemma run_plain (fuel : nat) (stk : Stack) (toks : list LexToken) (lexerr : option exn)
      (n : QueryNode) :
  stack_wf stk -> stack_plain stk -> Forall token_ok toks ->
  run fuel stk toks lexerr = Some (inr n) -> props_plain n = true.
Proof.
  apply (run_invariant stack_plain (fun n => props_plain n = true)).
  - intros stk0 t s Hwf Hstk [_ Ht] Ha. simpl. split; [|assumption].
    intros ->. apply action_shift_text in Ha. injection Ha as Ha. now apply Ht.
  - intros stk0 p stk' Hwf Hstk Hp Hr. exact (reduce_plain stk0 stk' p Hwf Hstk Hp Hr).
  - intros m below _ [Hm _]. exact Hm.
Qed.

Lemma parse_props_plain (text : string) (root : QueryNode) :
  parse text = Some (inr root) -> props_plain root = true.
Proof.
  unfold parse, parse_tokens, tokenize.
  destruct (tokens_from (S (String.length text)) text) as [[toks lexerr]|] eqn:E; [|discriminate].
  apply run_plain; [exact I|exact I|]. exact (tokens_from_ok _ _ _ _ E).
Qed.

(** *** What follows a first expression *)

Lemma bottom_cons (e : State * SymValue) (stk : Stack) :
  stk <> [] -> bottom (e :: stk) = bottom stk.
Proof. destruct stk; [congruence|reflexivity]. Qed.

Lemma push_expression_after (stk stk' : Stack) (n : QueryNode) :
  push_expression stk n = Some stk' ->
  (stk = [] -> isinstance_Condition n = false) ->
  (stk <> [] -> exists m, bottom stk = Some (St_expr, V_expression m)) ->
  after_expression stk'.
Proof.
  unfold push_expression.
  destruct (goto_expression (top_state stk)) as [s|] eqn:Hg; [|discriminate].
  intros H Hn Hb. injection H as <-.
  destruct stk as [|e below].
  - simpl in Hg. injection Hg as <-. exists n. split; [reflexivity|]. intros _. now apply Hn.
  - destruct (Hb ltac:(discriminate)) as [m Hm].
    exists m. split; [|simpl; discriminate].
    rewrite bottom_cons by discriminate. exact Hm.
Qed.

Lemma push_literal_after (stk stk' : Stack) (v : string) :
  push_literal stk v = Some stk' ->
  (exists m, bottom stk = Some (St_expr, V_expression m)) ->
  after_expression stk'.
Proof.
  unfold push_literal.
  destruct (goto_literal (top_state stk)) as [s|] eqn:Hg; [|discriminate].
  intros H [m Hm]. injection H as <-.
  destruct stk as [|e below]; [discriminate Hm|].
  exists m. split; [|simpl; discriminate].
  rewrite bottom_cons by discriminate. exact Hm.
Qed.

Lemma reduce_after (stk stk' : Stack) (p : Production) :
  after_expression stk -> reduce_production p stk = Some stk' -> after_expression stk'.
Proof.
  intros [m [Hm _]].
  destruct p; simpl;
    repeat match goal with
           | |- match ?l with [] => _ | _ :: _ => _ end = _ -> _ =>
               destruct l as [|[? ?] ?]; [discriminate|]
           | |- match ?v with V_token _ => _ | V_expression _ => _ | V_literal _ => _ end = _ -> _ =>
               destruct v; try discriminate
           end;
    intros H;
    first [ eapply push_expression_after; [exact H| |]
          | eapply push_literal_after; [exact H|] ];
    try (intros ->; simpl in Hm; first [discriminate Hm | reflexivity]);
    try (intros Hne; exists m;
         repeat (rewrite bottom_cons in Hm by (try discriminate; assumption));
         exact Hm).
  all: match goal with
       | |- exists _, bottom ?l = _ =>
           destruct l; [simpl in Hm; discriminate Hm|];
           exists m; repeat (rewrite bottom_cons in Hm by discriminate); exact Hm
       end.
Qed.

Lemma St_expr_is_bottom (s : State) (v : SymValue) (below : Stack) :
  stack_wf ((s, v) :: below) -> s = St_expr -> below = [].
Proof.
  intros [He Hwf] ->. apply edge_entered in He. simpl in He. destruct He as [Hb _].
  destruct below as [|[s' v'] below']; [reflexivity|].
  simpl in Hb. subst s'. destruct Hwf as [He' _]. apply edge_entered in He'. contradiction.
Qed.

Lemma run_after_expression (fuel : nat) (stk : Stack) (toks : list LexToken)
      (lexerr : option exn) (n : QueryNode) :
  stack_wf stk -> after_expression stk -> Forall token_ok toks ->
  run fuel stk toks lexerr = Some (inr n) -> isinstance_Condition n = false.
Proof.
  apply (run_invariant after_expression (fun n => isinstance_Condition n = false)).
  - intros stk0 t s Hwf [m [Hm _]] _ _.
    destruct stk0 as [|e below]; [discriminate Hm|].
    exists m. split; [|simpl; discriminate].
    rewrite bottom_cons by discriminate. exact Hm.
  - intros stk0 p stk' _ Hafter _ Hr. exact (reduce_after stk0 stk' p Hafter Hr).
  - intros m below Hwf [m' [Hm Hone]].
    rewrite (St_expr_is_bottom _ _ _ Hwf eq_refl) in *.
    simpl in Hm. injection Hm as <-. now apply Hone.
Qed.

(** When a token follows a first expression, the loop returns a
    combination or raises. *)
Lemma run_continued (fuel : nat) (first : QueryNode) (t : LexToken) (toks : list LexToken)
      (lexerr : option exn) (n : QueryNode) :
  Forall token_ok (t :: toks) ->
  run fuel [(St_expr, V_expression first)] (t :: toks) lexerr = Some (inr n) ->
  isinstance_Condition n = false.
Proof.
  intros Htoks. destruct fuel as [|fuel]; [discriminate|]. cbn [run defaulted top_state].
  inversion Htoks as [|? ? Ht Htoks']; subst.
  cbn [option_map].
  destruct (action St_expr (Some (type t))) as [s|p| |] eqn:Ha.
  - apply run_after_expression; [|exists first; split; [reflexivity|simpl; discriminate]|assumption].
    apply (shift_wf [(St_expr, V_expression first)] t s); [|exact Ha].
    simpl. auto.
  - destruct (type t); discriminate Ha.
  - destruct (type t); discriminate Ha.
  - discriminate.
Qed.
(** ** What [split_by_prop] keeps and what it groups *)

Section SplitByProp.

Local Open Scope list_scope.

Lemma od_append_concat (d : OrderedDict) (k : option string) (c : QueryNode) :
  Permutation (concat (map snd (od_append d k c))) (concat (map snd d) ++ [c]).
Proof.
  induction d as [|[k' cs] rest IH]; simpl; [reflexivity|].
  destruct (key_eqb k k'); simpl.
  - rewrite <- !app_assoc. apply Permutation_app_head, Permutation_app_comm.
  - rewrite <- app_assoc. now apply Permutation_app_head.
Qed.

Lemma children_by_prop_concat (children : list QueryNode) :
  Permutation (concat (map snd (children_by_prop children))) children.
Proof.
  unfold children_by_prop.
  assert (G : forall l d,
             Permutation
               (concat (map snd (fold_left (fun d child => od_append d (child_prop child) child)
                                           l d)))
               (concat (map snd d) ++ l)).
  { induction l as [|c r IH]; intros d; simpl; [now rewrite app_nil_r|].
    rewrite IH, od_append_concat, <- app_assoc. reflexivity. }
  exact (G children []).
Qed.

Lemma new_children_leaves (op : BoolOp) (d : OrderedDict) :
  flat_map leaves (new_children op d) = flat_map leaves (concat (map snd d)).
Proof.
  unfold new_children.
  induction d as [|[k g] rest IH]; [reflexivity|].
  cbn [flat_map map concat snd]. rewrite !flat_map_app, IH. f_equal.
  destruct k as [p|]; [|reflexivity].
  destruct (1 <? List.length g)%nat; [|reflexivity].
  simpl. apply app_nil_r.
Qed.

Lemma split_node_leaves (op : BoolOp) (children : list QueryNode) :
  Permutation (leaves (split_node op children)) (flat_map leaves children).
Proof.
  assert (H : leaves (split_node op children)
              = flat_map leaves (new_children op (children_by_prop children))).
  { unfold split_node.
    destruct (new_children op (children_by_prop children)) as [|x [|y r]]; try reflexivity.
    simpl. now rewrite app_nil_r. }
  rewrite H, new_children_leaves.
  apply Permutation_flat_map, children_by_prop_concat.
Qed.

Lemma flat_map_leaves_pointwise (f : QueryNode -> QueryNode) (children : list QueryNode) :
  Forall (fun c => Permutation (leaves (f c)) (leaves c)) children ->
  Permutation (flat_map leaves (map f children)) (flat_map leaves children).
Proof.
  induction 1 as [|c r Hc Hr IH]; simpl; [reflexivity|]. now apply Permutation_app.
Qed.

Lemma leaves_split_by_prop (n : QueryNode) :
  Permutation (leaves (split_by_prop n)) (leaves n).
Proof.
  induction n as [p c v|op children IH|prop op children IH] using QueryNode_tree_ind;
    [reflexivity| |]; cbn [split_by_prop leaves];
    rewrite split_node_leaves; now apply flat_map_leaves_pointwise.
Qed.

(** [split_by_prop] re-arranges the conditions of a tree: the result has
    the same conditions, each as many times, in some order. *)
Theorem split_by_prop_keeps_conditions (n : QueryNode) :
  Permutation (leaves (split_by_prop n)) (leaves n).
Proof. exact (leaves_split_by_prop n). Qed.

Lemma get_prop_names_leaves (n : QueryNode) :
  get_prop_names n = flat_map get_prop_names (leaves n).
Proof.
  induction n as [p c v|op children IH|prop op children IH] using QueryNode_tree_ind;
    [reflexivity| |]; cbn [get_prop_names leaves];
    induction IH as [|c r Hc Hr IHr]; simpl; try reflexivity;
    now rewrite flat_map_app, <- Hc, IHr.
Qed.

Lemma get_prop_names_optimized (n : QueryNode) :
  Permutation (get_prop_names (optimized n)) (get_prop_names n).
Proof.
  unfold optimized.
  rewrite (get_prop_names_leaves (split_by_prop (simplify n))), (get_prop_names_leaves n).
  apply Permutation_flat_map. rewrite leaves_split_by_prop. now rewrite leaves_simplify.
Qed.

(** *** Children that are conditions *)

Lemma map_split_by_prop_conditions (children : list QueryNode) :
  forallb isinstance_Condition children = true ->
  map split_by_prop children = children.
Proof.
  induction children as [|c r IH]; [reflexivity|]. simpl.
  intros H. apply andb_true_iff in H as [Hc Hr]. rewrite (IH Hr).
  destruct c; try discriminate. reflexivity.
Qed.

Lemma children_by_prop_one_key (p : string) (children g : list QueryNode) :
  Forall (fun c => child_prop c = Some p) children ->
  fold_left (fun d child => od_append d (child_prop child) child) children [(Some p, g)]
  = [(Some p, g ++ children)].
Proof.
  intros H. revert g.
  induction H as [|c r Hc Hr IH]; intros g; simpl; [now rewrite app_nil_r|].
  rewrite Hc. simpl. rewrite String.eqb_refl, IH, <- app_assoc. reflexivity.
Qed.

Lemma child_prop_Condition (p : string) (c : QueryNode) :
  child_prop c = Some p -> isinstance_Condition c = true.
Proof. destruct c; simpl; congruence. Qed.

(** The scenario of the docstring of [split_by_prop], in general: a
    combination of two or more conditions that are all on one property
    becomes one [SinglePropCombination] on that property, with the same
    operator and the same children in the same order. *)
Theorem split_by_prop_one_property (p : string) (op : BoolOp) (children : list QueryNode) :
  Forall (fun c => child_prop c = Some p) children ->
  (2 <= List.length children)%nat ->
  split_by_prop (BoolCombination op children) = SinglePropCombination p op children.
Proof.
  intros Hall Hlen. cbn [split_by_prop].
  rewrite map_split_by_prop_conditions.
  2:{ rewrite forallb_forall. intros c Hc. rewrite Forall_forall in Hall.
      exact (child_prop_Condition p c (Hall c Hc)). }
  unfold split_node, children_by_prop.
  destruct children as [|c r]; [simpl in Hlen; lia|].
  inversion Hall as [|? ? Hc Hr]; subst.
  cbn [fold_left od_append]. rewrite Hc, (children_by_prop_one_key p r [c] Hr).
  change ([c] ++ r) with (c :: r). cbn [new_children flat_map].
  destruct (1 <? List.length (c :: r))%nat eqn:Hlt; [reflexivity|].
  apply Nat.ltb_ge in Hlt. simpl in Hlt, Hlen. lia.
Qed.

Lemma od_append_new_key (d : OrderedDict) (k : option string) (c : QueryNode) :
  ~ In k (map fst d) -> od_append d k c = d ++ [(k, [c])].
Proof.
  induction d as [|[k' cs] rest IH]; simpl; [reflexivity|].
  intros Hnot. destruct (key_eqb k k') eqn:Hk.
  - apply key_eqb_eq in Hk. subst. exfalso. apply Hnot. now left.
  - rewrite IH; [reflexivity|]. intros Hin. apply Hnot. now right.
Qed.

Lemma children_by_prop_distinct (children : list QueryNode) (d : OrderedDict) :
  NoDup (map fst d ++ map child_prop children) ->
  fold_left (fun d child => od_append d (child_prop child) child) children d
  = d ++ map (fun c => (child_prop c, [c])) children.
Proof.
  revert d. induction children as [|c r IH]; intros d Hnd; simpl; [now rewrite app_nil_r|].
  simpl in Hnd.
  rewrite od_append_new_key.
  2:{ apply NoDup_remove_2 in Hnd. intros Hin. apply Hnd. apply in_or_app. now left. }
  rewrite IH.
  - rewrite <- app_assoc. reflexivity.
  - rewrite map_app, <- app_assoc. exact Hnd.
Qed.

Lemma new_children_singletons (op : BoolOp) (children : list QueryNode) :
  new_children op (map (fun c => (child_prop c, [c])) children) = children.
Proof.
  unfold new_children.
  induction children as [|c r IH]; [reflexivity|].
  cbn [map flat_map]. rewrite IH. destruct (child_prop c); reflexivity.
Qed.

(** What [split_by_prop] never does: a combination of conditions on
    pairwise different properties is returned as it is (one condition
    alone is returned without its combination). *)
Theorem split_by_prop_different_properties (op : BoolOp) (children : list QueryNode) :
  forallb isinstance_Condition children = true ->
  NoDup (map child_prop children) ->
  split_by_prop (BoolCombination op children)
  = match children with
    | [only] => only
    | _ => BoolCombination op children
    end.
Proof.
  intros Hall Hnd. cbn [split_by_prop].
  rewrite (map_split_by_prop_conditions children Hall).
  unfold split_node, children_by_prop.
  rewrite (children_by_prop_distinct children [] Hnd).
  cbn [app]. rewrite new_children_singletons.
  destruct children as [|x [|y r]]; reflexivity.
Qed.

End SplitByProp.

(** The theorem at [age = 1 OR age = 2 OR age = 3], flattened. *)
Lemma split_by_prop_one_property_witness :
  split_by_prop (BoolCombination OR [Condition "age" "=" "1"; Condition "age" "=" "2";
                                     Condition "age" "=" "3"])
  = SinglePropCombination "age" OR [Condition "age" "=" "1"; Condition "age" "=" "2";
                                    Condition "age" "=" "3"].
Proof.
  apply (split_by_prop_one_property "age" OR).
  - repeat constructor.
  - simpl. lia.
Defined.

(** The theorem at [name = bob AND age > 3]. *)
Lemma split_by_prop_different_properties_witness :
  split_by_prop (BoolCombination AND [Condition "name" "=" "bob"; Condition "age" ">" "3"])
  = BoolCombination AND [Condition "name" "=" "bob"; Condition "age" ">" "3"].
Proof.
  apply (split_by_prop_different_properties
           AND [Condition "name" "=" "bob"; Condition "age" ">" "3"]).
  - reflexivity.
  - repeat constructor; simpl; intuition discriminate.
Defined.

(** ** [SinglePropCombination.as_query] on a field *)

Section SinglePropField.

Context {ext : Externals}.
Variable org : Org.
Variable prop_map : dict PropEntry.
Variable prop : string.
Variable field : ContactField.
Hypothesis prop_explicit : prop <> IMPLICIT_PROP.
Hypothesis prop_is_field : dict_get prop_map prop = Some (PROP_FIELD field).

Local Open Scope list_scope.

Lemma build_value_query_params_shape (comparator value : string) (params : list ValueParam) :
  build_value_query_params comparator value field = inr params ->
  exists rest, params = kw_contact_field field :: rest /\ del_contact_field params = rest.
Proof.
  unfold build_value_query_params, _build_text_field_params, _build_decimal_field_params,
    _build_datetime_field_params, _build_location_field_params.
  destruct (value_type field);
    repeat match goal with
           | |- context [match dict_get ?d ?k with _ => _ end] => destruct (dict_get d k) as [[]|]
           | |- context [match Decimal ?v with _ => _ end] => destruct (Decimal v)
           | |- context [match str_to_datetime ?a ?b ?c with _ => _ end] =>
               destruct (str_to_datetime a b c)
           end;
    intros H; try discriminate H; injection H as <-; eexists; split; reflexivity.
Qed.

Lemma children_compile_alike (children : list QueryNode) :
  forallb (plain_comparison prop) children = true ->
  match mapM (fun child => child_value_query child field) children,
        mapM (fun child => as_query child org prop_map) children with
  | inl e, inl e' => e = e'
  | inr vqs, inr qs => Forall2 (child_queries field) vqs qs
  | _, _ => False
  end.
Proof.
  induction children as [|child r IH]; [intros _; constructor|].
  cbn [forallb mapM]. intros H. apply andb_true_iff in H as [Hc Hr]. specialize (IH Hr).
  destruct child as [p comparator value| |]; try discriminate Hc.
  cbn [plain_comparison] in Hc. apply andb_true_iff in Hc as [Hp Habs].
  apply String.eqb_eq in Hp. subst p. apply negb_true_iff in Habs.
  assert (Hq : as_query (Condition prop comparator value) org prop_map
               = (params <- build_value_query_params comparator value field ;;
                  ret (Q_id__in_values (VQ_kwargs params)))).
  { cbn [as_query]. unfold Condition_as_query, prop_map_get.
    apply String.eqb_neq in prop_explicit. rewrite prop_explicit, prop_is_field.
    cbn [bind ret]. rewrite Habs. reflexivity. }
  rewrite Hq. cbn [child_value_query].
  destruct (build_value_query_params comparator value field) as [e|params] eqn:Hparams;
    cbn [bind ret]; [reflexivity|].
  destruct (build_value_query_params_shape _ _ _ Hparams) as [rest [-> Hdel]].
  rewrite Hdel.
  destruct (mapM (fun child => child_value_query child field) r) as [e|vqs],
           (mapM (fun child => as_query child org prop_map) r) as [e'|qs];
    cbn [bind ret]; try exact IH.
  constructor; [|exact IH]. exists rest. split; reflexivity.
Qed.

Lemma eval_VQ_fold (op : BoolOp) (st : Store) (row : ValueRow) (vqs : list VQ) (vq : VQ) :
  eval_VQ st (fold_left (apply_op_VQ op) vqs vq) row
  = match op with
    | AND => forallb (fun v => eval_VQ st v row) (vq :: vqs)
    | OR => existsb (fun v => eval_VQ st v row) (vq :: vqs)
    end.
Proof.
  revert vq. induction vqs as [|v r IH]; intros vq.
  - destruct op; simpl; [now rewrite andb_true_r | now rewrite orb_false_r].
  - cbn [fold_left]. rewrite IH.
    destruct op; simpl; [now rewrite andb_assoc | now rewrite orb_assoc].
Qed.

Lemma eval_child_query (st : Store) (c : Contact) (vq : VQ) (q : Q) :
  child_queries field vq q ->
  eval_Q st q c = existsb (fun row => andb (in_slot field c row) (eval_VQ st vq row)) (values st).
Proof.
  intros [rest [-> ->]]. cbn [eval_Q]. apply existsb_pointwise. intros row.
  unfold in_slot. cbn. now rewrite andb_assoc.
Qed.

Lemma existsb_orb {A} (f g : A -> bool) (l : list A) :
  existsb (fun a => orb (f a) (g a)) l = orb (existsb f l) (existsb g l).
Proof.
  induction l as [|a r IH]; [reflexivity|]. simpl. rewrite IH.
  destruct (f a), (g a), (existsb f r), (existsb g r); reflexivity.
Qed.

Lemma one_value_per_field_unique (rows : list ValueRow) (r r' : ValueRow) :
  one_value_per_field rows = true ->
  In r rows -> In r' rows -> same_slot r r' = true -> r = r'.
Proof.
  assert (Hsym : forall a b, same_slot a b = same_slot b a).
  { intros a b. unfold same_slot. now rewrite (Z.eqb_sym (value_contact_id a)),
                                        (Z.eqb_sym (value_contact_field a)). }
  induction rows as [|x rest IH]; [intros _ []|].
  cbn [one_value_per_field]. intros H. apply andb_true_iff in H as [Hx Hrest].
  apply negb_true_iff in Hx.
  assert (Hnone : forall y, In y rest -> same_slot x y = false).
  { intros y Hy. destruct (same_slot x y) eqn:Hs; [|reflexivity].
    assert (existsb (same_slot x) rest = true) by (apply existsb_exists; eauto).
    congruence. }
  intros [<-|Hr] [<-|Hr'] Hs.
  - reflexivity.
  - rewrite (Hnone r' Hr') in Hs. discriminate.
  - rewrite Hsym, (Hnone r Hr) in Hs. discriminate.
  - now apply IH.
Qed.

Lemma in_slot_same (c : Contact) (r r' : ValueRow) :
  in_slot field c r = true -> in_slot field c r' = true -> same_slot r r' = true.
Proof.
  unfold in_slot, same_slot. intros H H'.
  apply andb_true_iff in H as [H1 H2]. apply andb_true_iff in H' as [H1' H2'].
  apply Z.eqb_eq in H1, H2, H1', H2'. apply andb_true_iff.
  split; apply Z.eqb_eq; congruence.
Qed.

Lemma existsb_andb_one_row (c : Contact) (rows : list ValueRow) (f g : ValueRow -> bool) :
  one_value_per_field rows = true ->
  existsb (fun row => andb (in_slot field c row) (andb (f row) (g row))) rows
  = andb (existsb (fun row => andb (in_slot field c row) (f row)) rows)
         (existsb (fun row => andb (in_slot field c row) (g row)) rows).
Proof.
  intros Hone. apply eq_true_iff_eq. rewrite andb_true_iff, !existsb_exists. split.
  - intros [row [Hin H]]. apply andb_true_iff in H as [Hs H].
    apply andb_true_iff in H as [Hf Hg].
    split; exists row; (split; [exact Hin|]); apply andb_true_iff; auto.
  - intros [[row [Hin H]] [row' [Hin' H']]].
    apply andb_true_iff in H as [Hs Hf]. apply andb_true_iff in H' as [Hs' Hg].
    assert (row = row').
    { apply (one_value_per_field_unique rows); auto. now apply (in_slot_same c). }
    subst row'. exists row. split; [exact Hin|]. now rewrite Hs, Hf, Hg.
Qed.

Lemma eval_or_children (st : Store) (c : Contact) (vqs : list VQ) (qs : list Q) :
  Forall2 (child_queries field) vqs qs ->
  existsb (fun row => andb (in_slot field c row) (existsb (fun v => eval_VQ st v row) vqs)) (values st)
  = existsb (fun q => eval_Q st q c) qs.
Proof.
  induction 1 as [|vq q vqs qs Hq Hqs IH].
  - simpl. induction (values st) as [|row r IHr]; [reflexivity|].
    simpl. now rewrite andb_false_r.
  - cbn [existsb]. rewrite <- IH, (eval_child_query st c vq q Hq), <- existsb_orb.
    apply existsb_pointwise. intros row. now rewrite andb_orb_distrib_r.
Qed.

Lemma eval_and_children (st : Store) (c : Contact) (vqs : list VQ) (qs : list Q)
      (vq : VQ) (q : Q) :
  one_value_per_field (values st) = true ->
  child_queries field vq q ->
  Forall2 (child_queries field) vqs qs ->
  existsb (fun row => andb (in_slot field c row) (forallb (fun v => eval_VQ st v row) (vq :: vqs)))
          (values st)
  = forallb (fun q => eval_Q st q c) (q :: qs).
Proof.
  intros Hone Hq Hqs. revert vq q Hq.
  induction Hqs as [|vq' q' vqs qs Hq' Hqs IH]; intros vq q Hq.
  - simpl. rewrite andb_true_r, (eval_child_query st c vq q Hq).
    apply existsb_pointwise. intros row. now rewrite andb_true_r.
  - cbn [forallb] in *. rewrite <- (IH vq' q' Hq'), (eval_child_query st c vq q Hq).
    now apply existsb_andb_one_row.
Qed.

(** On a field, and for children that are not the test for a missing
    value, [SinglePropCombination.as_query] agrees with the compilation
    of the same children as a [BoolCombination]: both raise the same
    exception, or the two predicates select the same contacts, under OR
    in every store, under AND in the stores where no contact has two
    values for one field. *)
Theorem single_prop_query_agrees (op : BoolOp) (children : list QueryNode) :
  forallb (plain_comparison prop) children = true ->
  match as_query (SinglePropCombination prop op children) org prop_map,
        as_query (BoolCombination op children) org prop_map with
  | inl e, inl e' => e = e'
  | inr q, inr q' =>
      forall st c,
        op = OR \/ one_value_per_field (values st) = true ->
        eval_Q st q c = eval_Q st q' c
  | _, _ => False
  end.
Proof.
  intros Hall. rewrite as_query_BoolCombination.
  cbn [as_query]. unfold prop_map_get. rewrite prop_is_field. cbn [bind ret].
  pose proof (children_compile_alike children Hall) as H.
  destruct (mapM (fun child => child_value_query child field) children) as [e|vqs],
           (mapM (fun child => as_query child org prop_map) children) as [e'|qs];
    cbn [bind ret]; cbv beta iota in H; try exact H; try contradiction.
  destruct H as [|vq q vqs qs Hq Hqs]; [reflexivity|].
  cbn [reduce bind ret]. intros st c Hst.
  rewrite eval_fold. cbn [eval_Q].
  rewrite (existsb_pointwise _
             (fun row => andb (in_slot field c row)
                              (eval_VQ st (fold_left (apply_op_VQ op) vqs vq) row))).
  2:{ intros row. unfold in_slot. cbn. now rewrite andb_true_r, andb_assoc. }
  rewrite (existsb_pointwise _
             (fun row => andb (in_slot field c row)
                              match op with
                              | AND => forallb (fun v => eval_VQ st v row) (vq :: vqs)
                              | OR => existsb (fun v => eval_VQ st v row) (vq :: vqs)
                              end)).
  2:{ intros row. now rewrite eval_VQ_fold. }
  destruct op; unfold eval_all.
  - destruct Hst as [Hop|Hone]; [discriminate Hop|]. now apply eval_and_children.
  - apply eval_or_children. now constructor.
Qed.

End SinglePropField.

(** The theorem at [email = x OR email ~ y], grouped. *)
Lemma single_prop_query_agrees_witness :
  match as_query (ext := Example.externals)
                 (SinglePropCombination "email" OR [Condition "email" "=" "x";
                                                    Condition "email" "~" "y"])
                 Example.org [("email", PROP_FIELD Example.email)],
        as_query (ext := Example.externals)
                 (BoolCombination OR [Condition "email" "=" "x"; Condition "email" "~" "y"])
                 Example.org [("email", PROP_FIELD Example.email)] with
  | inl e, inl e' => e = e'
  | inr q, inr q' =>
      forall st c,
        OR = OR \/ one_value_per_field (values st) = true ->
        eval_Q st q c = eval_Q st q' c
  | _, _ => False
  end.
Proof.
  apply (single_prop_query_agrees
           (ext := Example.externals) Example.org [("email", PROP_FIELD Example.email)]
           "email" Example.email).
  - discriminate.
  - reflexivity.
  - reflexivity.
Defined.

(** Under AND the hypothesis on the store is needed: for a contact with
    two values of one field, the conditions of [email ~ a AND email ~ b]
    can hold of different values, which the grouped predicate, a test of
    one row, does not select. *)
Lemma single_prop_and_reads_one_row :
  let st := {| urns := [];
               values := [ {| value_contact_id := 1; value_contact_field := 1;
                              string_value := Some "a"; decimal_value := None;
                              datetime_value := None; location_value := None |};
                           {| value_contact_id := 1; value_contact_field := 1;
                              string_value := Some "b"; decimal_value := None;
                              datetime_value := None; location_value := None |} ];
               boundaries := [] |} in
  let children := [Condition "email" "~" "a"; Condition "email" "~" "b"] in
  let prop_map := [("email", PROP_FIELD Example.email)] in
  one_value_per_field (values st) = false
  /\ (exists q, as_query (ext := Example.externals) (BoolCombination AND children)
                         Example.org prop_map = inr q
                /\ eval_Q st q Example.ann = true)
  /\ (exists q, as_query (ext := Example.externals)
                         (SinglePropCombination "email" AND children)
                         Example.org prop_map = inr q
                /\ eval_Q st q Example.ann = false).
Proof.
  cbv zeta. split; [reflexivity|]. split; eexists; split; reflexivity.
Qed.

(** ** The exceptions of the lexer and of the parser *)

Lemma skip_ignore_head (s : string) (c : ascii) (r : string) :
  skip_ignore s = String c r -> is_ignore c = false.
Proof.
  induction s as [|x s IH]; [discriminate|]. simpl.
  destruct (is_ignore x) eqn:Hx; [exact IH|]. intros H. injection H as <- _. exact Hx.
Qed.

Lemma re_TEXT_none (c : ascii) (r : string) :
  re_TEXT (String c r) = None -> is_text_char c = false.
Proof.
  unfold re_TEXT, plus, seq, cls, star.
  destruct (is_text_char c); [|reflexivity].
  destruct (star_cls is_text_char r). discriminate.
Qed.

Lemma token_error (s : string) (e : exn) :
  token s = inl e ->
  exists c, e = SearchException ("Invalid character " ++ String c "")
            /\ is_ignore c = false /\ is_text_char c = false.
Proof.
  unfold token. destruct (skip_ignore s) as [|c r] eqn:Hs; [discriminate|].
  destruct (re_COMPARATOR (String c r)) as [[? ?]|]; [discriminate|].
  destruct (re_STRING (String c r)) as [[? ?]|]; [discriminate|].
  destruct (re_TEXT (String c r)) as [[? ?]|] eqn:Ht; [discriminate|].
  destruct (re_LPAREN (String c r)) as [[? ?]|]; [discriminate|].
  destruct (re_RPAREN (String c r)) as [[? ?]|]; [discriminate|].
  intros H. injection H as <-. exists c. repeat split.
  - exact (skip_ignore_head s c r Hs).
  - exact (re_TEXT_none c r Ht).
Qed.

Lemma tokens_from_error (fuel : nat) (s : string) (toks : list LexToken) (e : exn) :
  tokens_from fuel s = Some (toks, Some e) ->
  exists c, e = SearchException ("Invalid character " ++ String c "")
            /\ is_ignore c = false /\ is_text_char c = false.
Proof.
  revert s toks. induction fuel as [|fuel IH]; intros s toks; [discriminate|].
  cbn [tokens_from]. destruct (token s) as [e'|[[t r]|]] eqn:Ht.
  - intros H. injection H as _ <-. exact (token_error s e' Ht).
  - destruct (tokens_from fuel r) as [[ts e']|] eqn:Hr; [|discriminate].
    intros H. injection H as _ ->. exact (IH r ts Hr).
  - discriminate.
Qed.

Lemma run_error (fuel : nat) :
  forall stk toks lexerr e,
    run fuel stk toks lexerr = Some (inl e) ->
    lexerr = Some e \/ (exists t, In t toks /\ e = p_error (Some t)) \/ e = p_error None.
Proof.
  induction fuel as [|fuel IH]; intros stk toks lexerr e; [discriminate|].
  cbn [run].
  destruct (defaulted (top_state stk)) as [p|].
  { destruct (reduce_production p stk) as [stk'|]; [|discriminate]. apply IH. }
  assert (Hstep :
            match action (top_state stk)
                         (option_map type match toks with t :: _ => Some t | [] => None end) with
            | Shift s =>
                match toks with
                | t :: toks' => run fuel ((s, V_token (value t)) :: stk) toks' lexerr
                | [] => None
                end
            | Reduce p =>
                match reduce_production p stk with
                | Some stk' => run fuel stk' toks lexerr
                | None => None
                end
            | Accept =>
                match stk with
                | (_, V_expression n) :: _ => Some (ret n)
                | _ => None
                end
            | Error => Some (raise (p_error match toks with t :: _ => Some t | [] => None end))
            end = Some (inl e) ->
            lexerr = Some e \/ (exists t, In t toks /\ e = p_error (Some t)) \/ e = p_error None).
  { destruct (action (top_state stk)
                     (option_map type match toks with t :: _ => Some t | [] => None end))
      as [s|p| |].
    - destruct toks as [|t toks']; [discriminate|].
      intros H. destruct (IH _ _ _ _ H) as [Hl|[[t' [Hin He]]|He]]; auto.
      right. left. exists t'. split; [now right|exact He].
    - destruct (reduce_production p stk) as [stk'|]; [|discriminate]. apply IH.
    - destruct stk as [|[s [v|m|v]] below]; discriminate.
    - intros H. injection H as <-. destruct toks as [|t toks']; auto.
      right. left. exists t. split; [now left|reflexivity]. }
  destruct toks as [|t toks'].
  - destruct lexerr as [e'|]; [|exact Hstep]. intros H. injection H as <-. now left.
  - exact Hstep.
Qed.

Lemma parse_error (text : string) (e : exn) :
  parse text = Some (inl e) ->
  (exists c, e = SearchException ("Invalid character " ++ String c "")
             /\ is_ignore c = false /\ is_text_char c = false)
  \/ (exists toks lexerr t,
        tokenize text = Some (toks, lexerr) /\ In t toks
        /\ e = SearchException ("Syntax error at '" ++ value t ++ "'"))
  \/ e = SearchException "Syntax error".
Proof.
  unfold parse. destruct (tokenize text) as [[toks lexerr]|] eqn:Htok; [|discriminate].
  unfold parse_tokens. intros H.
  destruct (run_error _ _ _ _ _ H) as [->|[[t [Hin ->]] | ->]].
  - left. exact (tokens_from_error _ _ _ _ Htok).
  - right. left. exists toks, lexerr, t. auto.
  - right. right. reflexivity.
Qed.

Lemma parse_error_SearchException (text : string) (e : exn) :
  parse text = Some (inl e) -> exists message, e = SearchException message.
Proof.
  intros H. destruct (parse_error text e H) as [[c [-> _]]|[[toks [lexerr [t [_ [_ ->]]]]] | ->]];
    eexists; reflexivity.
Qed.

(** The parser raises nothing but [SearchException]: for a character
    that is neither ignored nor a character of a text and that starts no
    token, with the message of [t_error]; at a token that the grammar
    does not allow there, with the message of [p_error] that quotes the
    token's text; or at the end of the text. *)
Theorem parse_raises_SearchException (text : string) (e : exn) :
  parse text = Some (inl e) ->
  (exists c, e = SearchException ("Invalid character " ++ String c "")
             /\ is_ignore c = false /\ is_text_char c = false)
  \/ (exists toks lexerr t,
        tokenize text = Some (toks, lexerr) /\ In t toks
        /\ e = SearchException ("Syntax error at '" ++ value t ++ "'"))
  \/ e = SearchException "Syntax error".
Proof. exact (parse_error text e). Qed.

(** The theorem at a text with a character of no token. *)
Lemma parse_raises_SearchException_witness :
  (exists c, SearchException "Invalid character @"
             = SearchException ("Invalid character " ++ String c "")
             /\ is_ignore c = false /\ is_text_char c = false)
  \/ (exists toks lexerr t,
        tokenize "name = bob@x" = Some (toks, lexerr) /\ In t toks
        /\ SearchException "Invalid character @"
           = SearchException ("Syntax error at '" ++ value t ++ "'"))
  \/ SearchException "Invalid character @" = SearchException "Syntax error".
Proof.
  apply (parse_raises_SearchException "name = bob@x" (SearchException "Invalid character @")).
  reflexivity.
Defined.

(** ** Property names of parsed queries *)

Lemma props_plain_names (n : QueryNode) :
  props_plain n = true ->
  forall p, In p (get_prop_names n) ->
            p = IMPLICIT_PROP \/ (plain_word p = true /\ Py.lower p = p).
Proof.
  induction n as [prop c v|op children IH|prop op children IH] using QueryNode_tree_ind;
    cbn [props_plain get_prop_names].
  - intros H p [<-|[]]. apply orb_true_iff in H as [H|H].
    + left. now apply String.eqb_eq.
    + right. apply andb_true_iff in H as [H1 H2]. split; [exact H1|now apply String.eqb_eq].
  - intros H p Hp. apply in_flat_map in Hp as [c [Hc Hp]].
    rewrite Forall_forall in IH. rewrite forallb_forall in H. exact (IH c Hc (H c Hc) p Hp).
  - intros H p Hp. apply in_flat_map in Hp as [c [Hc Hp]].
    rewrite Forall_forall in IH. rewrite forallb_forall in H. exact (IH c Hc (H c Hc) p Hp).
Qed.

Lemma text_char_ascii (c : ascii) : is_text_char c = true -> is_ascii c = true.
Proof. each_ascii c; intros H; try reflexivity; discriminate H. Qed.

Lemma text_run_ascii (s : string) : text_run s = true -> ascii_text s = true.
Proof.
  intros H. assert (Hall : forallb is_text_char (list_ascii_of_string s) = true)
    by (destruct s; [discriminate H|exact H]).
  unfold ascii_text. rewrite forallb_forall in Hall |- *.
  intros c Hc. exact (text_char_ascii c (Hall c Hc)).
Qed.

Lemma lower_char_not_upper (c : ascii) : is_upper (Py.lower_char c) = false.
Proof. each_ascii c; reflexivity. Qed.

Lemma lower_no_upper (s : string) : no_upper (Py.lower s) = true.
Proof.
  unfold no_upper. induction s as [|c r IH]; [reflexivity|].
  cbn [Py.lower list_ascii_of_string forallb]. now rewrite lower_char_not_upper, IH.
Qed.

(** [p_condition] lowercases the property: every property name of a
    query parsed from ASCII text is in lower case and ASCII, with no
    letter from A to Z (the implicit property is a star). *)
Theorem parsed_property_names_are_lowercase (text : string) (root : QueryNode) :
  ascii_text text = true ->
  parse text = Some (inr root) ->
  forall p, In p (get_prop_names root) ->
            Py.lower p = p /\ no_upper p = true /\ ascii_text p = true.
Proof.
  intros _ Hparse p Hp.
  destruct (props_plain_names root (parse_props_plain text root Hparse) p Hp)
    as [->|[Hplain Hlow]].
  - repeat split; reflexivity.
  - split; [exact Hlow|]. split.
    + rewrite <- Hlow. apply lower_no_upper.
    + apply text_run_ascii. unfold plain_word in Hplain.
      now apply andb_true_iff in Hplain as [H _].
Qed.

(** The theorem at [AGE > 3]. *)
Lemma parsed_property_names_are_lowercase_witness :
  Py.lower "age" = "age" /\ no_upper "age" = true /\ ascii_text "age" = true.
Proof.
  apply (parsed_property_names_are_lowercase "AGE > 3" (Condition "age" ">" "3")).
  - reflexivity.
  - reflexivity.
  - left. reflexivity.
Defined.

(** ** The exceptions of the compilation *)

Section CompileErrors.

Context {ext : Externals}.
Variable org : Org.

Local Open Scope list_scope.

Lemma build_value_query_params_error (comparator value : string) (field : ContactField)
      (e : exn) :
  build_value_query_params comparator value field = inl e -> reported e.
Proof.
  unfold build_value_query_params, _build_text_field_params, _build_decimal_field_params,
    _build_datetime_field_params, _build_location_field_params.
  destruct (value_type field);
    repeat match goal with
           | |- context [match dict_get ?d ?k with _ => _ end] => destruct (dict_get d k) as [[]|]
           | |- context [match Decimal ?v with _ => _ end] => destruct (Decimal v)
           | |- context [match str_to_datetime ?a ?b ?c with _ => _ end] =>
               destruct (str_to_datetime a b c)
           end;
    intros H; try discriminate H; injection H as <-;
    solve [left; eexists; reflexivity | right; eexists; reflexivity].
Qed.

Lemma Condition_as_query_error (prop_map : dict PropEntry) (prop comparator value : string)
      (e : exn) :
  (prop <> IMPLICIT_PROP -> exists entry, dict_get prop_map prop = Some entry) ->
  Condition_as_query prop comparator value org prop_map = inl e -> reported e.
Proof.
  intros Hmap. unfold Condition_as_query, prop_map_get.
  destruct (String.eqb prop IMPLICIT_PROP) eqn:Hp; [discriminate|].
  apply String.eqb_neq in Hp. destruct (Hmap Hp) as [entry ->]. cbn [bind ret].
  destruct entry as [attr|sch|field].
  - unfold _build_attr_query. destruct (dict_get TEXT_LOOKUPS comparator); [discriminate|].
    intros H. injection H as <-. left. eexists. reflexivity.
  - destruct (is_anon org); [discriminate|].
    unfold _build_urn_query. destruct (dict_get TEXT_LOOKUPS comparator); [discriminate|].
    intros H. injection H as <-. left. eexists. reflexivity.
  - destruct (andb _ _); [discriminate|]. unfold _build_value_query.
    destruct (build_value_query_params comparator value field) as [e'|params] eqn:Hb;
      [|discriminate].
    intros H. injection H as <-. exact (build_value_query_params_error _ _ _ _ Hb).
Qed.

Lemma mapM_error {A B} (f : A -> result B) (l : list A) (e : exn) :
  mapM f l = inl e -> exists a, In a l /\ f a = inl e.
Proof.
  induction l as [|a r IH]; [discriminate|]. cbn [mapM].
  destruct (f a) as [e'|b] eqn:Ha; cbn [bind].
  - intros H. injection H as <-. exists a. split; [now left|exact Ha].
  - destruct (mapM f r) as [e'|bs]; cbn [bind ret]; [|discriminate].
    intros H. injection H as <-. destruct (IH eq_refl) as [x [Hx Hfx]].
    exists x. split; [now right|exact Hfx].
Qed.

Lemma as_query_error (prop_map : dict PropEntry) (n : QueryNode) (e : exn) :
  parsed_shape n = true ->
  (forall p, In p (get_prop_names n) -> p <> IMPLICIT_PROP ->
             exists entry, dict_get prop_map p = Some entry) ->
  as_query n org prop_map = inl e -> reported e.
Proof.
  induction n as [p c v|op children IH|prop op children IH] using QueryNode_tree_ind;
    intros Hshape Hmap; [| |discriminate Hshape].
  - cbn [as_query]. apply Condition_as_query_error. intros Hp. apply Hmap; [now left|exact Hp].
  - rewrite as_query_BoolCombination.
    cbn [parsed_shape] in Hshape. apply andb_true_iff in Hshape as [Hne Hall].
    destruct (mapM (fun child => as_query child org prop_map) children) as [e'|qs] eqn:Hm;
      cbn [bind].
    + intros H. injection H as <-.
      destruct (mapM_error _ _ _ Hm) as [child [Hin Hchild]].
      rewrite Forall_forall in IH. rewrite forallb_forall in Hall.
      apply (IH child Hin (Hall child Hin)); [|exact Hchild].
      intros p Hp. apply Hmap. cbn [get_prop_names]. apply in_flat_map. eauto.
    + destruct qs as [|q qs]; [|discriminate].
      exfalso. destruct children as [|child r]; [discriminate Hne|].
      exact (mapM_nonempty _ (child :: r) [] ltac:(discriminate) Hm eq_refl).
Qed.

Lemma get_prop_map_covers (root : QueryNode) (prop_map : dict PropEntry) :
  get_prop_map org root = inr prop_map ->
  forall p, In p (get_prop_names root) -> p <> IMPLICIT_PROP ->
            exists entry, dict_get prop_map p = Some entry /\ resolution org p = Some entry.
Proof.
  unfold get_prop_map. intros H p Hin Hp.
  pose proof (resolved_get org (get_prop_names root) p) as Hget.
  apply str_in_In in Hin. apply String.eqb_neq in Hp. rewrite Hin, Hp in Hget.
  destruct (check_resolved_inr _ _ H p _ Hget) as [entry [He Hd]]. eauto.
Qed.

Lemma get_prop_map_error (root : QueryNode) (e : exn) :
  get_prop_map org root = inl e -> exists message, e = SearchException message.
Proof.
  unfold get_prop_map. intros H.
  destruct (check_resolved_inl _ _ H) as [p [_ ->]]. eexists. reflexivity.
Qed.

(** A query parsed without optimization compiles or raises a
    [SearchException] (or the [ValueError] of a field of an unknown
    type): no property is missing from the property map and no
    combination is empty. *)
Theorem unoptimized_query_raises_reported (text : string) (root : QueryNode) (e : exn) :
  parse_query text false = Some (inr root) ->
  ContactQuery_as_query root org = inl e ->
  reported e.
Proof.
  unfold parse_query. destruct (parse text) as [[e'|root']|] eqn:Hparse; try discriminate.
  intros H. injection H as <-. unfold ContactQuery_as_query.
  destruct (get_prop_map org root') as [e'|prop_map] eqn:Hmap; cbn [bind].
  - intros H. injection H as <-. left. exact (get_prop_map_error _ _ Hmap).
  - apply as_query_error; [exact (parse_parsed_shape text root' Hparse)|].
    intros p Hin Hp. destruct (get_prop_map_covers _ _ Hmap p Hin Hp) as [entry [Hd _]]. eauto.
Qed.

End CompileErrors.

(** The theorem at [name > 5], which raises for its comparator. *)
Lemma unoptimized_query_raises_reported_witness :
  reported (SearchException "Unsupported comparator > for contact attribute").
Proof.
  apply (unoptimized_query_raises_reported
           (ext := Example.externals) Example.org "name > 5" (Condition "name" ">" "5")).
  - reflexivity.
  - reflexivity.
Defined.

(** ** [extract_fields] *)

Section ExtractFields.

Local Open Scope list_scope.

Lemma dict_get_Some_In {V} (d : dict V) (k : string) (v : V) :
  dict_get d k = Some v -> In (k, v) d.
Proof.
  induction d as [|[k' v'] r IH]; [discriminate|]. simpl.
  destruct (String.eqb k k') eqn:Hk.
  - apply String.eqb_eq in Hk. subst. intros H. injection H as <-. now left.
  - intros H. right. now apply IH.
Qed.

Lemma check_resolved_In (items : dict (option PropEntry)) (prop_map : dict PropEntry) :
  check_resolved items = inr prop_map ->
  forall p entry, In (p, entry) prop_map <-> In (p, Some entry) items.
Proof.
  revert prop_map. induction items as [|[k [v|]] r IH]; intros prop_map; cbn [check_resolved].
  - intros H. injection H as <-. intros p entry. split; intros [].
  - destruct (check_resolved r) as [e|d]; cbn [bind ret]; [discriminate|].
    intros H. injection H as <-. intros p entry. specialize (IH d eq_refl p entry).
    split; intros [Heq|Hin].
    + injection Heq as <- <-. now left.
    + right. now apply IH.
    + injection Heq as <- <-. now left.
    + right. now apply IH.
  - discriminate.
Qed.

Lemma field_objects_In (prop_map : dict PropEntry) (field : ContactField) :
  In field (field_objects prop_map) <-> exists p, In (p, PROP_FIELD field) prop_map.
Proof.
  unfold field_objects. rewrite in_flat_map. split.
  - intros [[p entry] [Hin H]]. simpl in H. destruct entry; try contradiction.
    destruct H as [<-|[]]. eauto.
  - intros [p Hin]. exists (p, PROP_FIELD field). split; [exact Hin|now left].
Qed.

Lemma get_prop_map_fields (org : Org) (root : QueryNode) (prop_map : dict PropEntry) :
  get_prop_map org root = inr prop_map ->
  forall field,
    In field (field_objects prop_map)
    <-> exists p, In p (get_prop_names root) /\ p <> IMPLICIT_PROP
                  /\ resolution org p = Some (PROP_FIELD field).
Proof.
  unfold get_prop_map. intros H field. rewrite field_objects_In.
  pose proof (resolved_NoDup org (get_prop_names root)) as Hnd.
  split.
  - intros [p Hin]. apply (check_resolved_In _ _ H) in Hin.
    apply (dict_get_In _ _ _ Hnd) in Hin. rewrite resolved_get in Hin.
    destruct (Py.str_in p (get_prop_names root)) eqn:Hnames; [|discriminate].
    destruct (String.eqb p IMPLICIT_PROP) eqn:Hp; [discriminate|].
    injection Hin as Hres. exists p. repeat split.
    + now apply str_in_In.
    + now apply String.eqb_neq.
    + exact Hres.
  - intros [p [Hin [Hp Hres]]]. exists p. apply (check_resolved_In _ _ H).
    apply dict_get_Some_In. rewrite resolved_get.
    apply str_in_In in Hin. apply String.eqb_neq in Hp. rewrite Hin, Hp, Hres. reflexivity.
Qed.

Lemma extract_fields_spec_aux (org : Org) (text : string) :
  match extract_fields org text with
  | Some (inr fields) =>
      exists root,
        parse text = Some (inr root)
        /\ forall field,
             In field fields
             <-> exists p, In p (get_prop_names root) /\ p <> IMPLICIT_PROP
                           /\ resolution org p = Some (PROP_FIELD field)
  | Some (inl e) => exists message, e = SearchException message
  | None => False
  end.
Proof.
  unfold extract_fields, parse_query.
  destruct (parse_returns text) as [[e|root] Hparse]; rewrite Hparse.
  - exact (parse_error_SearchException text e Hparse).
  - unfold ret at 1. cbv beta iota.
    destruct (get_prop_map org (optimized root)) as [e|prop_map] eqn:Hmap; cbn [bind ret].
    + exact (get_prop_map_error org _ e Hmap).
    + exists root. split; [reflexivity|]. intros field.
      rewrite (get_prop_map_fields org _ _ Hmap field).
      split; intros [p [Hin H]]; exists p; (split; [|exact H]).
      * exact (Permutation_in p (get_prop_names_optimized root) Hin).
      * exact (Permutation_in p (Permutation_sym (get_prop_names_optimized root)) Hin).
Qed.

(** [extract_fields] returns a list or raises a [SearchException].  The
    list holds the fields that the property names of the query resolve
    to, and nothing else: a field is in it when some condition of the
    parsed query names a property, not the implicit one, that resolves to
    that field. *)
Theorem extract_fields_resolved_fields (org : Org) (text : string) :
  match extract_fields org text with
  | Some (inr fields) =>
      exists root,
        parse text = Some (inr root)
        /\ forall field,
             In field fields
             <-> exists p, In p (get_prop_names root) /\ p <> IMPLICIT_PROP
                           /\ resolution org p = Some (PROP_FIELD field)
  | Some (inl e) => exists message, e = SearchException message
  | None => False
  end.
Proof. exact (extract_fields_spec_aux org text). Qed.

Lemma resolution_field (org : Org) (p : string) (field : ContactField) :
  resolution org p = Some (PROP_FIELD field) ->
  In field (org_fields org) /\ key field = p /\ is_active field = true
  /\ ~ In p SEARCHABLE_ATTRIBUTES /\ ~ In p SEARCHABLE_SCHEMES.
Proof.
  unfold resolution.
  destruct (Py.str_in p SEARCHABLE_SCHEMES) eqn:Hs; [discriminate|].
  destruct (Py.str_in p SEARCHABLE_ATTRIBUTES) eqn:Ha; [discriminate|].
  unfold last_active_field.
  destruct (find _ (rev (org_fields org))) as [f|] eqn:Hfind; [|discriminate].
  intros H. injection H as <-. apply find_some in Hfind as [Hin Hf].
  apply andb_true_iff in Hf as [Hk Hact]. apply String.eqb_eq in Hk.
  repeat split; auto.
  - now apply in_rev.
  - intros Hin'. apply str_in_In in Hin'. congruence.
  - intros Hin'. apply str_in_In in Hin'. congruence.
Qed.

(** Every field that [extract_fields] returns is an active field of the
    organization whose key is a property name of the query and is neither
    a searchable attribute nor a URN scheme. *)
Theorem extract_fields_active_fields (org : Org) (text : string)
        (fields : list ContactField) (field : ContactField) :
  extract_fields org text = Some (inr fields) ->
  In field fields ->
  In field (org_fields org) /\ is_active field = true
  /\ ~ In (key field) SEARCHABLE_ATTRIBUTES /\ ~ In (key field) SEARCHABLE_SCHEMES
  /\ exists root, parse text = Some (inr root) /\ In (key field) (get_prop_names root).
Proof.
  intros Hext Hin. pose proof (extract_fields_spec_aux org text) as H.
  rewrite Hext in H. destruct H as [root [Hparse Hiff]].
  apply Hiff in Hin. destruct Hin as [p [Hp [_ Hres]]].
  apply resolution_field in Hres as [H1 [<- [H2 [H3 H4]]]]. eauto 8.
Qed.

End ExtractFields.

(** The theorem at [email = x OR name = bob]. *)
Lemma extract_fields_active_fields_witness :
  In Example.email (org_fields Example.org) /\ is_active Example.email = true
  /\ ~ In (key Example.email) SEARCHABLE_ATTRIBUTES
  /\ ~ In (key Example.email) SEARCHABLE_SCHEMES
  /\ exists root, parse "email = x OR name = bob" = Some (inr root)
                  /\ In (key Example.email) (get_prop_names root).
Proof.
  apply (extract_fields_active_fields Example.org "email = x OR name = bob" [Example.email]).
  - reflexivity.
  - left. reflexivity.
Defined.

(** ** [contact_search] *)

Section ContactSearch.

Context {ext : Externals}.

Local Open Scope list_scope.

Lemma as_query_SinglePropCombination (org : Org) (prop_map : dict PropEntry)
      (prop : string) (op : BoolOp) (children : list QueryNode) :
  as_query (SinglePropCombination prop op children) org prop_map
  = (entry <- prop_map_get prop_map prop ;;
     match entry with
     | PROP_FIELD prop_obj =>
         value_queries <- mapM (fun child => child_value_query child prop_obj) children ;;
         combined <- reduce (apply_op_VQ op) value_queries ;;
         ret (Q_id__in_values (VQ_and (VQ_kwargs [kw_contact_field prop_obj]) combined))
     | _ =>
         qs <- mapM (fun child => as_query child org prop_map) children ;;
         reduce (apply_op op) qs
     end).
Proof.
  cbn [as_query]. f_equal.
  assert (H : (fix go (children : list QueryNode) : result (list Q) :=
                 match children with
                 | [] => ret []
                 | child :: r => q <- as_query child org prop_map ;; qs <- go r ;; ret (q :: qs)
                 end) children
              = mapM (fun child => as_query child org prop_map) children).
  { induction children as [|c r IH]; [reflexivity|]. cbn [mapM]. now rewrite IH. }
  destruct (prop_map_get prop_map prop) as [e|[attr|sch|field]]; cbn [bind];
    try reflexivity; now rewrite H.
Qed.

Lemma eval_VQ_boundaries (st st' : Store) (vq : VQ) (row : ValueRow) :
  boundaries st = boundaries st' -> eval_VQ st vq row = eval_VQ st' vq row.
Proof.
  intros Hb. induction vq as [params|a IHa b IHb|a IHa b IHb]; cbn [eval_VQ].
  - induction params as [|p r IH]; [reflexivity|]. cbn [forallb]. rewrite IH. f_equal.
    destruct p; cbn [eval_param]; try reflexivity. now rewrite Hb.
  - now rewrite IHa, IHb.
  - now rewrite IHa, IHb.
Qed.

Lemma eval_Q_without_urns (st st' : Store) (q : Q) (c : Contact) :
  reads_urns q = false ->
  values st = values st' -> boundaries st = boundaries st' ->
  eval_Q st q c = eval_Q st' q c.
Proof.
  intros Hq Hv Hb.
  induction q as [attr l v|i|sch l v|f|a IHa|a IHa b IHb|a IHa b IHb]; cbn [eval_Q];
    cbn [reads_urns] in Hq; try reflexivity; try discriminate.
  - rewrite Hv. apply existsb_pointwise. intros row.
    now rewrite (eval_VQ_boundaries st st' f row Hb).
  - now rewrite IHa.
  - apply orb_false_iff in Hq as [H1 H2]. now rewrite IHa, IHb.
  - apply orb_false_iff in Hq as [H1 H2]. now rewrite IHa, IHb.
Qed.

Lemma reads_urns_fold (op : BoolOp) (qs : list Q) (q : Q) :
  reads_urns q = false -> Forall (fun q => reads_urns q = false) qs ->
  reads_urns (fold_left (apply_op op) qs q) = false.
Proof.
  intros Hq Hqs. revert q Hq.
  induction Hqs as [|q' qs Hq' Hqs IH]; intros q Hq; [exact Hq|].
  cbn [fold_left]. apply IH. destruct op; simpl; now rewrite Hq, Hq'.
Qed.

Lemma mapM_Forall {A B} (f : A -> result B) (P : B -> Prop) (l : list A) (bs : list B) :
  Forall (fun a => forall b, f a = inr b -> P b) l ->
  mapM f l = inr bs -> Forall P bs.
Proof.
  intros H. revert bs. induction H as [|a r Ha Hr IH]; intros bs; cbn [mapM].
  - intros E. injection E as <-. constructor.
  - destruct (f a) as [e|b]; cbn [bind]; [discriminate|].
    destruct (mapM f r) as [e|bs']; cbn [bind ret]; [discriminate|].
    intros E. injection E as <-. constructor; auto.
Qed.

Lemma reduce_without_urns (op : BoolOp) (qs : list Q) (q : Q) :
  Forall (fun q => reads_urns q = false) qs ->
  reduce (apply_op op) qs = inr q -> reads_urns q = false.
Proof.
  intros Hqs. destruct Hqs as [|q0 qs H0 Hqs]; [discriminate|].
  cbn [reduce ret]. intros E. injection E as <-. now apply reads_urns_fold.
Qed.

Lemma as_query_anon (org : Org) (prop_map : dict PropEntry) (n : QueryNode) :
  is_anon org = true ->
  forall q, as_query n org prop_map = inr q -> reads_urns q = false.
Proof.
  intros Hanon.
  induction n as [p c v|op children IH|prop op children IH] using QueryNode_tree_ind; intros q.
  - cbn [as_query]. unfold Condition_as_query, _build_implicit_prop_query, prop_map_get.
    rewrite Hanon.
    destruct (String.eqb p IMPLICIT_PROP).
    { intros E. injection E as <-. destruct (int v); reflexivity. }
    destruct (dict_get prop_map p) as [[attr|sch|field]|]; cbn [bind ret]; [| | |discriminate].
    + unfold _build_attr_query. destruct (dict_get TEXT_LOOKUPS c); [|discriminate].
      intros E. injection E as <-. reflexivity.
    + intros E. injection E as <-. reflexivity.
    + destruct (andb _ _).
      * intros E. injection E as <-. reflexivity.
      * unfold _build_value_query.
        destruct (build_value_query_params c v field); cbn [bind ret]; [discriminate|].
        intros E. injection E as <-. reflexivity.
  - rewrite as_query_BoolCombination.
    destruct (mapM (fun child => as_query child org prop_map) children) as [e|qs] eqn:Hm;
      cbn [bind]; [discriminate|].
    apply reduce_without_urns. exact (mapM_Forall _ _ _ _ IH Hm).
  - rewrite as_query_SinglePropCombination.
    destruct (prop_map_get prop_map prop) as [e|[attr|sch|field]]; cbn [bind]; [discriminate| | |].
    + destruct (mapM (fun child => as_query child org prop_map) children) as [e|qs] eqn:Hm;
        cbn [bind]; [discriminate|].
      apply reduce_without_urns. exact (mapM_Forall _ _ _ _ IH Hm).
    + destruct (mapM (fun child => as_query child org prop_map) children) as [e|qs] eqn:Hm;
        cbn [bind]; [discriminate|].
      apply reduce_without_urns. exact (mapM_Forall _ _ _ _ IH Hm).
    + destruct (mapM (fun child => child_value_query child field) children) as [e|vqs];
        cbn [bind]; [discriminate|].
      destruct (reduce (apply_op_VQ op) vqs) as [e|combined]; cbn [bind ret]; [discriminate|].
      intros E. injection E as <-. reflexivity.
Qed.

(** In an anonymous organization a search reads no URN: whatever the
    query, [contact_search] returns the same contacts, or raises the
    same exception, in two stores that differ only in their URNs. *)
Theorem anonymous_search_reads_no_urn (org : Org) (text : string)
        (base_queryset : list Contact) (st st' : Store) :
  is_anon org = true ->
  values st = values st' ->
  boundaries st = boundaries st' ->
  contact_search org text base_queryset st = contact_search org text base_queryset st'.
Proof.
  intros Hanon Hv Hb. unfold contact_search.
  destruct (parse_query text true) as [[e|parsed]|]; try reflexivity.
  unfold ContactQuery_as_query.
  destruct (get_prop_map org parsed) as [e|prop_map]; cbn [bind]; [reflexivity|].
  destruct (as_query parsed org prop_map) as [e|q] eqn:Hq; cbn [bind ret]; [reflexivity|].
  do 2 f_equal. apply filter_ext. intros c.
  apply eval_Q_without_urns; auto. exact (as_query_anon org prop_map parsed Hanon q Hq).
Qed.

Lemma tokenize_plain_word (word : string) :
  plain_word word = true ->
  tokenize word = Some ([{| type := TEXT; value := word |}], None).
Proof.
  intros Hw. pose proof Hw as Hrun. unfold plain_word in Hrun.
  apply andb_true_iff in Hrun as [Hrun _].
  rewrite tokenize_eq. rewrite <- (append_empty word) at 1.
  rewrite (token_run word "" Hrun eq_refl), (t_TEXT_plain word Hw). reflexivity.
Qed.

(** A query that is one word, not a reserved one, selects from the base
    queryset the contacts whose name contains the word, without regard
    to case, and those with a URN whose path contains it; in an
    anonymous organization, instead of the URNs, the contact whose id
    the word spells. *)
Theorem bare_word_search (org : Org) (word : string)
        (base_queryset : list Contact) (st : Store) :
  plain_word word = true ->
  contact_search org word base_queryset st
  = Some (inr (filter (bare_word_selects org st word) base_queryset)).
Proof.
  intros Hw. unfold contact_search, parse_query, parse.
  rewrite (tokenize_plain_word word Hw).
  change (parse_tokens [{| type := TEXT; value := word |}] None)
    with (Some (inr (A := exn) (Condition IMPLICIT_PROP "=" word))).
  cbv beta iota. unfold ret at 1. cbv beta iota.
  change (optimized (Condition IMPLICIT_PROP "=" word)) with (Condition IMPLICIT_PROP "=" word).
  unfold ContactQuery_as_query.
  rewrite (get_prop_map_implicit_only org (Condition IMPLICIT_PROP "=" word) eq_refl).
  cbn [bind as_query]. unfold Condition_as_query.
  rewrite String.eqb_refl. cbn [bind ret]. unfold ret.
  do 2 f_equal. apply filter_ext. intros c.
  unfold _build_implicit_prop_query, bare_word_selects, name_contains, urn_path_contains.
  destruct (is_anon org); [destruct (int word)|]; reflexivity.
Qed.

End ContactSearch.

(** The theorem at the query [7] in an anonymous organization, for the
    store of the examples with and without the URN of Ann. *)
Lemma anonymous_search_reads_no_urn_witness :
  contact_search (ext := Example.externals) Example.anon_org "7"
                 [Example.ann; Example.bob] Example.store
  = contact_search (ext := Example.externals) Example.anon_org "7"
                   [Example.ann; Example.bob] Example.store_with_urn.
Proof.
  apply (anonymous_search_reads_no_urn (ext := Example.externals)); reflexivity.
Defined.

(** The theorem at the query [ann]. *)
Lemma bare_word_search_witness :
  contact_search (ext := Example.externals) Example.org "ann"
                 [Example.ann; Example.bob] Example.store
  = Some (inr (filter (bare_word_selects (ext := Example.externals)
                                         Example.org Example.store "ann")
                      [Example.ann; Example.bob])).
Proof.
  apply (bare_word_search (ext := Example.externals)). reflexivity.
Defined.

(** ** Chains of operands joined by one operator *)

Section Chains.

Local Open Scope list_scope.

Lemma links_continue (op : BoolOp) (links : list (Connective * Operand)) :
  Forall (fun l => connective_op (fst l) = op) links ->
  continues op (links_tokens links).
Proof.
  intros H. destruct H as [|[k a] links Hk _]; [exact I|].
  simpl in Hk. subst op. destruct k, a; simpl; auto.
Qed.

(** Reading one joined operand: the steps taken are at most three per
    token read. *)
Lemma run_link (k : Connective) (a : Operand) (acc : QueryNode) (rest : list LexToken) :
  continues (connective_op k) rest ->
  exists n,
    (n <= 3 * List.length (connective_tokens k ++ operand_tokens a))%nat
    /\ forall fuel,
         run (n + fuel) [(St_expr, V_expression acc)]
             (connective_tokens k ++ operand_tokens a ++ rest) None
         = run fuel [(St_expr, V_expression
                                 (BoolCombination (connective_op k) [acc; operand_tree a]))]
               rest None.
Proof.
  intros Hrest.
  destruct k as [text|text|], a as [word|prop comparator literal [|]];
    match goal with
    | |- context [by_juxtaposition] =>
        match goal with
        | |- context [Bare _] => exists 3
        | |- _ => exists 6
        end
    | |- _ =>
        match goal with
        | |- context [Bare _] => exists 4
        | |- _ => exists 7
        end
    end;
    (split; [simpl; lia|]); intros fuel;
    destruct rest as [|[ty v] rest]; try reflexivity;
    simpl in Hrest; try (destruct Hrest as [Hty|Hty]); try (rename Hrest into Hty);
    simpl in Hty; subst ty; reflexivity.
Qed.

Lemma run_first (a : Operand) (op : BoolOp) (rest : list LexToken) :
  continues op rest ->
  exists n,
    (n < 3 * List.length (operand_tokens a))%nat
    /\ forall fuel,
         run (n + fuel) [] (operand_tokens a ++ rest) None
         = run fuel [(St_expr, V_expression (operand_tree a))] rest None.
Proof.
  intros Hrest.
  destruct a as [word|prop comparator literal [|]];
    match goal with
    | |- context [Bare _] => exists 2
    | |- _ => exists 5
    end;
    (split; [simpl; lia|]); intros fuel;
    destruct rest as [|[ty v] rest]; try reflexivity;
    destruct op; simpl in Hrest; try (destruct Hrest as [Hty|Hty]);
    try (rename Hrest into Hty); simpl in Hty; subst ty; reflexivity.
Qed.

Lemma run_links (op : BoolOp) (links : list (Connective * Operand)) :
  Forall (fun l => connective_op (fst l) = op) links ->
  forall acc fuel,
    (3 * List.length (links_tokens links) < fuel)%nat ->
    run fuel [(St_expr, V_expression acc)] (links_tokens links) None
    = Some (inr (left_nested op acc (map (fun l => operand_tree (snd l)) links))).
Proof.
  induction 1 as [|[k a] links Hk Hlinks IH]; intros acc fuel Hfuel.
  - destruct fuel as [|fuel]; [simpl in Hfuel; lia|]. reflexivity.
  - simpl in Hk. subst op.
    destruct (run_link k a acc (links_tokens links) (links_continue _ _ Hlinks))
      as [n [Hn Hrun]].
    change (links_tokens ((k, a) :: links))
      with ((connective_tokens k ++ operand_tokens a) ++ links_tokens links) in *.
    rewrite length_app in Hfuel.
    replace fuel with (n + (fuel - n))%nat by lia.
    rewrite <- app_assoc, Hrun. cbn [map left_nested fold_left snd].
    apply IH. lia.
Qed.

(** Operands joined by [or] alone, or by [and] and juxtaposition alone,
    parse to combinations of two children nested to the left:
    [a OR b OR c] is OR(OR(a, b), c). *)
Theorem parse_chain_nests_left (op : BoolOp) (first : Operand)
        (links : list (Connective * Operand)) :
  Forall (fun l => connective_op (fst l) = op) links ->
  parse_tokens (chain_tokens first links) None
  = Some (inr (left_nested op (operand_tree first)
                           (map (fun l => operand_tree (snd l)) links))).
Proof.
  intros Hlinks. unfold parse_tokens, chain_tokens.
  destruct (run_first first op (links_tokens links) (links_continue _ _ Hlinks))
    as [n [Hn Hrun]].
  rewrite length_app.
  replace (3 * (List.length (operand_tokens first) + List.length (links_tokens links)) + 2)%nat
    with (n + (3 * (List.length (operand_tokens first) + List.length (links_tokens links))
               + 2 - n))%nat by lia.
  rewrite Hrun. apply run_links; [exact Hlinks|lia].
Qed.

Lemma left_nested_snoc (op : BoolOp) (first : QueryNode) (rest : list QueryNode)
      (c : QueryNode) :
  left_nested op first (rest ++ [c]) = BoolCombination op [left_nested op first rest; c].
Proof. unfold left_nested. now rewrite fold_left_app. Qed.

Lemma simplify_loop_conditions (op : BoolOp) (children simplified : list QueryNode) :
  forallb isinstance_Condition children = true ->
  simplify_loop op children simplified = Some (simplified ++ children).
Proof.
  revert simplified. induction children as [|c r IH]; intros simplified; simpl.
  - now rewrite app_nil_r.
  - intros H. apply andb_true_iff in H as [Hc Hr].
    destruct c; try discriminate Hc. rewrite (IH _ Hr), <- app_assoc. reflexivity.
Qed.

Lemma simplify_Condition (c : QueryNode) : isinstance_Condition c = true -> simplify c = c.
Proof. destruct c; try discriminate. reflexivity. Qed.

(** The docstring of [simplify], in general: for conditions
    [x, y, ..., z], two or more, [simplify] turns the nesting
    [op(op(op(x, y), ...), z)] that the parser builds into
    [op(x, y, ..., z)]. *)
Theorem simplify_flattens_chain (op : BoolOp) (first : QueryNode) (rest : list QueryNode) :
  isinstance_Condition first = true ->
  forallb isinstance_Condition rest = true ->
  rest <> [] ->
  simplify (left_nested op first rest) = BoolCombination op (first :: rest).
Proof.
  intros Hfirst. induction rest as [|c rest IH] using rev_ind; [congruence|].
  intros Hrest _. rewrite forallb_app in Hrest. apply andb_true_iff in Hrest as [Hrest Hc].
  simpl in Hc. rewrite andb_true_r in Hc.
  rewrite left_nested_snoc. cbn [simplify map]. rewrite (simplify_Condition c Hc).
  destruct rest as [|c' rest].
  - cbn [left_nested fold_left]. rewrite (simplify_Condition first Hfirst).
    rewrite simplify_loop_conditions; [reflexivity|]. simpl. now rewrite Hfirst, Hc.
  - rewrite (IH Hrest ltac:(discriminate)).
    destruct c; try discriminate Hc. cbn [simplify_loop]. 
    destruct op; reflexivity.
Qed.

End Chains.

(** The theorem at [a or Age > 3 OR c]. *)
Lemma parse_chain_nests_left_witness :
  parse_tokens (chain_tokens (Bare "a") [(by_OR "or", Compared "Age" ">" "3" false);
                                         (by_OR "OR", Bare "c")]) None
  = Some (inr (left_nested OR (operand_tree (Bare "a"))
                           (map (fun l : Connective * Operand => operand_tree (snd l))
                                [(by_OR "or", Compared "Age" ">" "3" false);
                                 (by_OR "OR", Bare "c")]))).
Proof.
  apply (parse_chain_nests_left OR). repeat constructor.
Defined.

(** The theorem at OR(OR(x, y), z). *)
Lemma simplify_flattens_chain_witness :
  simplify (left_nested OR (Condition "*" "=" "x")
                        [Condition "*" "=" "y"; Condition "*" "=" "z"])
  = BoolCombination OR [Condition "*" "=" "x"; Condition "*" "=" "y"; Condition "*" "=" "z"].
Proof.
  apply (simplify_flattens_chain OR).
  - reflexivity.
  - reflexivity.
  - discriminate.
Defined.

(** ** Quoted literals *)

Section QuotedLiterals.

Lemma skip_ignore_run (ws rest : string) :
  forallb is_ignore (list_ascii_of_string ws) = true ->
  skip_ignore (ws ++ rest) = skip_ignore rest.
Proof.
  induction ws as [|x ws IH]; [reflexivity|]. simpl.
  intros H. apply andb_true_iff in H as [Hx Hws]. rewrite Hx. exact (IH Hws).
Qed.

Lemma token_after_ignored (ws rest : string) :
  forallb is_ignore (list_ascii_of_string ws) = true ->
  token (ws ++ rest) = token rest.
Proof. intros H. unfold token. now rewrite (skip_ignore_run ws rest H). Qed.

Lemma ignore_not_text_char (x : ascii) : is_ignore x = true -> is_text_char x = false.
Proof.
  intros H. destruct (is_text_char x) eqn:Hx; [|reflexivity].
  rewrite (text_char_not_ignore x Hx) in H. discriminate.
Qed.

Lemma star_cls_until (p : ascii -> bool) (s : string) (x : ascii) (rest : string) :
  forallb p (list_ascii_of_string s) = true -> p x = false ->
  star_cls p (s ++ String x rest) = (s, String x rest).
Proof.
  intros Hs Hx. induction s as [|c s IH]; simpl.
  - now rewrite Hx.
  - simpl in Hs. apply andb_true_iff in Hs as [Hc Hs]. now rewrite Hc, (IH Hs).
Qed.

Lemma drop_last_snoc (s : string) (x : ascii) : drop_last (s ++ String x "") = s.
Proof.
  induction s as [|c s IH]; [reflexivity|].
  cbn [append drop_last]. rewrite IH.
  destruct s; reflexivity.
Qed.

Lemma token_quoted (literal : string) :
  forallb is_not_quote (list_ascii_of_string literal) = true ->
  token (quoted literal) = inr (Some ({| type := STRING; value := literal |}, "")).
Proof.
  intros H. unfold token, quoted.
  change (skip_ignore (String dquote (literal ++ String dquote "")))
    with (String dquote (literal ++ String dquote "")).
  change (re_COMPARATOR (String dquote (literal ++ String dquote ""))) with (@None (string * string)).
  cbv beta iota.
  assert (Hre : re_STRING (String dquote (literal ++ String dquote ""))
                = Some (String dquote (literal ++ String dquote ""), "")).
  { unfold re_STRING, seq, lit, star. cbn [cls]. rewrite Ascii.eqb_refl.
    rewrite (star_cls_until is_not_quote literal dquote "" H eq_refl).
    cbn [cls]. rewrite Ascii.eqb_refl. reflexivity. }
  rewrite Hre. unfold t_STRING. cbn [strip_quotes]. now rewrite drop_last_snoc.
Qed.

Lemma token_comparator_then (c : string) (y : ascii) (rest : string) :
  In c CANONICAL_COMPARATORS -> Ascii.eqb "=" y = false ->
  token (c ++ String y rest) = inr (Some (t_COMPARATOR c, String y rest)).
Proof.
  intros Hc Hy. simpl in Hc.
  destruct Hc as [<-|[<-|[<-|[<-|[<-|[<-|[]]]]]]]; try reflexivity;
    each_ascii y; try discriminate Hy; reflexivity.
Qed.

Lemma Condition_init_comparator (prop c value : string) :
  In c CANONICAL_COMPARATORS ->
  Condition_init prop (Py.lower c) value = Condition prop c value.
Proof.
  intros Hc. simpl in Hc.
  destruct Hc as [<-|[<-|[<-|[<-|[<-|[<-|[]]]]]]]; reflexivity.
Qed.

(** A literal between double quotes is taken as it is written: any
    characters but the double quote, spaces and reserved words among
    them, in their letter case, and the empty literal too.  The spaces
    and tabs around the comparator are optional. *)
Theorem quoted_literal_is_verbatim (prop comparator literal ws1 ws2 : string) :
  plain_word prop = true ->
  In comparator CANONICAL_COMPARATORS ->
  forallb is_ignore (list_ascii_of_string ws1) = true ->
  forallb is_ignore (list_ascii_of_string ws2) = true ->
  forallb is_not_quote (list_ascii_of_string literal) = true ->
  parse (prop ++ ws1 ++ comparator ++ ws2 ++ quoted literal)
  = Some (inr (Condition (Py.lower prop) comparator literal)).
Proof.
  intros Hp Hc Hws1 Hws2 Hlit.
  assert (Hhead : exists y r, ws2 ++ quoted literal = String y r /\ Ascii.eqb "=" y = false).
  { destruct ws2 as [|y ws2].
    - exists dquote, (literal ++ String dquote ""). split; reflexivity.
    - exists y, (ws2 ++ quoted literal). split; [reflexivity|].
      simpl in Hws2. apply andb_true_iff in Hws2 as [Hy _].
      destruct (Ascii.eqb "=" y) eqn:E; [|reflexivity].
      apply Ascii.eqb_eq in E. subst y. discriminate Hy. }
  destruct Hhead as [y [r [Ehead Hy]]].
  assert (Hends : ends_run (ws1 ++ comparator ++ ws2 ++ quoted literal) = true).
  { destruct ws1 as [|x ws1].
    - simpl in Hc. destruct Hc as [<-|[<-|[<-|[<-|[<-|[<-|[]]]]]]]; reflexivity.
    - simpl in Hws1 |- *. apply andb_true_iff in Hws1 as [Hx _].
      now rewrite (ignore_not_text_char x Hx). }
  pose proof Hp as Hrun. unfold plain_word in Hrun. apply andb_true_iff in Hrun as [Hrun _].
  assert (Htok : tokenize (prop ++ ws1 ++ comparator ++ ws2 ++ quoted literal)
                 = Some ([ {| type := TEXT; value := prop |};
                           {| type := COMPARATOR; value := comparator |};
                           {| type := STRING; value := literal |} ], None)).
  { rewrite tokenize_eq, (token_run prop _ Hrun Hends), (t_TEXT_plain prop Hp).
    rewrite tokenize_eq, (token_after_ignored ws1 _ Hws1).
    rewrite Ehead, (token_comparator_then comparator y r Hc Hy), <- Ehead.
    rewrite tokenize_eq, (token_after_ignored ws2 _ Hws2), (token_quoted literal Hlit).
    rewrite tokenize_eq, token_empty. reflexivity. }
  unfold parse. rewrite Htok.
  change (parse_tokens [ {| type := TEXT; value := prop |};
                         {| type := COMPARATOR; value := comparator |};
                         {| type := STRING; value := literal |} ] None)
    with (Some (inr (A := exn) (Condition_init (Py.lower prop) (Py.lower comparator) literal))).
  now rewrite (Condition_init_comparator _ comparator literal Hc).
Qed.

End QuotedLiterals.

(** The theorem at a literal with spaces and a reserved word. *)
Lemma quoted_literal_is_verbatim_witness :
  parse ("Name" ++ " " ++ "=" ++ " " ++ quoted "Bob and Ann")
  = Some (inr (Condition (Py.lower "Name") "=" "Bob and Ann")).
Proof.
  apply (quoted_literal_is_verbatim "Name" "=" "Bob and Ann" " " " ").
  - reflexivity.
  - simpl. auto.
  - reflexivity.
  - reflexivity.
  - reflexivity.
Defined.

(** ** Comparisons on a field *)

Section FieldComparisons.

Context {ext : Externals}.
Variable org : Org.
Variable prop_map : dict PropEntry.
Variable prop : string.
Variable field : ContactField.
Hypothesis prop_explicit : prop <> IMPLICIT_PROP.
Hypothesis prop_is_field : dict_get prop_map prop = Some (PROP_FIELD field).

Local Open Scope list_scope.

Lemma in_slot_has_value (st : Store) (c : Contact) (f : ValueRow -> bool) :
  existsb (fun row => andb (in_slot field c row) (f row)) (values st) = true ->
  has_value st c field = true.
Proof.
  unfold has_value. rewrite !existsb_exists. intros [row [Hin H]].
  apply andb_true_iff in H as [H _]. exists row. split; [exact Hin|exact H].
Qed.

(** A comparison on a field that is not the test for a missing value
    selects only contacts that have a value for the field. *)
Theorem field_comparison_needs_value (comparator value : string) (q : Q) :
  plain_comparison prop (Condition prop comparator value) = true ->
  as_query (Condition prop comparator value) org prop_map = inr q ->
  forall st c, eval_Q st q c = true -> has_value st c field = true.
Proof.
  intros Hplain Hq st c.
  pose proof (children_compile_alike org prop_map prop field prop_explicit prop_is_field
                [Condition prop comparator value]) as H.
  cbn [forallb] in H. rewrite Hplain in H. specialize (H eq_refl).
  cbn [mapM] in H. rewrite Hq in H.
  destruct (child_value_query (Condition prop comparator value) field) as [e|vq];
    cbn [bind ret] in H; [contradiction|].
  inversion H as [|? ? ? ? Hchild _]; subst.
  rewrite (eval_child_query field st c vq q Hchild). apply in_slot_has_value.
Qed.

(** A [SinglePropCombination] on a field selects only contacts that have
    a value for the field, whatever its children: the test for a missing
    value among them selects no contact without one. *)
Theorem single_prop_query_needs_value (op : BoolOp) (children : list QueryNode) (q : Q) :
  as_query (SinglePropCombination prop op children) org prop_map = inr q ->
  forall st c, eval_Q st q c = true -> has_value st c field = true.
Proof.
  rewrite as_query_SinglePropCombination. unfold prop_map_get. rewrite prop_is_field.
  cbn [bind ret].
  destruct (mapM (fun child => child_value_query child field) children) as [e|vqs];
    cbn [bind]; [discriminate|].
  destruct (reduce (apply_op_VQ op) vqs) as [e|combined]; cbn [bind ret]; [discriminate|].
  intros H. injection H as <-. intros st c. cbn [eval_Q].
  rewrite (existsb_pointwise _
             (fun row => andb (in_slot field c row) (eval_VQ st combined row))).
  - apply in_slot_has_value.
  - intros row. unfold in_slot. cbn. now rewrite andb_true_r, andb_assoc.
Qed.

End FieldComparisons.

(** The theorem at [email = x] and Bob, whose email is x. *)
Lemma field_comparison_needs_value_witness :
  has_value Example.store Example.bob Example.email = true.
Proof.
  apply (field_comparison_needs_value
           (ext := Example.externals) Example.org [("email", PROP_FIELD Example.email)]
           "email" Example.email ltac:(discriminate) eq_refl "=" "x"
           (Q_id__in_values (VQ_kwargs [kw_contact_field Example.email;
                                        kw_string_value iexact "x"]))).
  - reflexivity.
  - reflexivity.
  - reflexivity.
Defined.

(** The theorem at the grouped [email = x OR email = ""] and Bob. *)
Lemma single_prop_query_needs_value_witness :
  has_value Example.store Example.bob Example.email = true.
Proof.
  apply (single_prop_query_needs_value
           (ext := Example.externals) Example.org [("email", PROP_FIELD Example.email)]
           "email" Example.email eq_refl OR
           [Condition "email" "=" "x"; Condition "email" "=" ""]
           (Q_id__in_values
              (VQ_and (VQ_kwargs [kw_contact_field Example.email])
                      (VQ_or (VQ_kwargs [kw_string_value iexact "x"])
                             (VQ_kwargs [kw_string_value iexact ""]))))).
  - reflexivity.
  - reflexivity.
Defined.

(** ** Comparators and kinds of property *)

Section Comparators.

Context {ext : Externals}.
Variable org : Org.
Variable prop_map : dict PropEntry.

Local Open Scope list_scope.

(** A comparator that the kind of the property does not accept raises
    [Unsupported comparator], naming the comparator and the kind,
    whatever the literal: the comparator is looked up before the literal
    is converted.  (A URN scheme in an anonymous organization is set
    apart: its conditions never raise.) *)
Theorem unaccepted_comparator_raises (prop comparator value : string) (entry : PropEntry) :
  prop <> IMPLICIT_PROP ->
  dict_get prop_map prop = Some entry ->
  In comparator CANONICAL_COMPARATORS ->
  ~ In comparator (accepted_comparators entry) ->
  match entry with
  | PROP_SCHEME _ => is_anon org = false
  | PROP_FIELD field => forall code, value_type field <> TYPE_OTHER code
  | PROP_ATTRIBUTE _ => True
  end ->
  as_query (Condition prop comparator value) org prop_map
  = inl (SearchException ("Unsupported comparator " ++ comparator ++ " for "
                          ++ kind_name entry)).
Proof.
  intros Hprop Hget Hc Hnot Hkind.
  apply String.eqb_neq in Hprop.
  cbn [as_query]. unfold Condition_as_query, prop_map_get. rewrite Hprop, Hget. cbn [bind ret].
  assert (Hvalue : forall c, c <> "=" ->
                             andb (Py.str_in (Py.lower c) ["="; "is"]) (String.eqb value "")
                             = false \/ ~ In c CANONICAL_COMPARATORS).
  { intros c Hne. destruct (In_dec string_dec c CANONICAL_COMPARATORS) as [Hin|Hin]; [|now right].
    left. simpl in Hin. destruct Hin as [<-|[<-|[<-|[<-|[<-|[<-|[]]]]]]]; try reflexivity.
    congruence. }
  assert (Hne : comparator <> "=").
  { intros ->. apply Hnot. destruct entry as [a|s|f]; simpl; [tauto|tauto|].
    destruct (value_type f); simpl; tauto. }
  destruct (Hvalue comparator Hne) as [Habs|Habs]; [|contradiction].
  simpl in Hc.
  destruct entry as [attr|sch|field]; cbn [kind_name accepted_comparators] in *.
  - destruct Hc as [<-|[<-|[<-|[<-|[<-|[<-|[]]]]]]]; try reflexivity;
      exfalso; apply Hnot; simpl; tauto.
  - rewrite Hkind.
    destruct Hc as [<-|[<-|[<-|[<-|[<-|[<-|[]]]]]]]; try reflexivity;
      exfalso; apply Hnot; simpl; tauto.
  - rewrite Habs. unfold _build_value_query, build_value_query_params.
    destruct (value_type field) as [| | | | | |code];
      try (exfalso; exact (Hkind code eq_refl));
      destruct Hc as [<-|[<-|[<-|[<-|[<-|[<-|[]]]]]]]; try reflexivity;
      exfalso; apply Hnot; simpl; tauto.
Qed.

Lemma Qeq_bool_compare (s d : QArith_base.Q) :
  QArith_base.Qeq_bool s d = match QArith_base.Qcompare s d with Eq => true | _ => false end.
Proof.
  destruct (QArith_base.Qeq_bool s d) eqn:E.
  - apply QArith_base.Qeq_bool_iff, QArith_base.Qeq_alt in E. now rewrite E.
  - destruct (QArith_base.Qcompare s d) eqn:C; try reflexivity.
    apply QArith_base.Qeq_alt, QArith_base.Qeq_bool_iff in C. congruence.
Qed.

Lemma Qle_bool_compare (s d : QArith_base.Q) :
  QArith_base.Qle_bool s d = match QArith_base.Qcompare s d with Gt => false | _ => true end.
Proof.
  destruct (QArith_base.Qle_bool s d) eqn:E.
  - apply QArith_base.Qle_bool_iff in E. apply QArith_base.Qle_alt in E.
    destruct (QArith_base.Qcompare s d) eqn:C; try reflexivity.
    exfalso. apply E. first [exact C | reflexivity].
  - destruct (QArith_base.Qcompare s d) eqn:C; try reflexivity;
      assert (H : QArith_base.Qcompare s d <> Gt) by congruence;
      apply QArith_base.Qle_alt, QArith_base.Qle_bool_iff in H; congruence.
Qed.

Lemma Qge_bool_compare (s d : QArith_base.Q) :
  QArith_base.Qle_bool d s = match QArith_base.Qcompare s d with Lt => false | _ => true end.
Proof.
  destruct (QArith_base.Qle_bool d s) eqn:E.
  - apply QArith_base.Qle_bool_iff in E. apply (QArith_base.Qge_alt s d) in E.
    destruct (QArith_base.Qcompare s d) eqn:C; try reflexivity.
    exfalso. apply E. first [exact C | reflexivity].
  - destruct (QArith_base.Qcompare s d) eqn:C; try reflexivity;
      assert (H : QArith_base.Qcompare s d <> Lt) by congruence;
      apply (QArith_base.Qge_alt s d) in H; apply QArith_base.Qle_bool_iff in H; congruence.
Qed.

Lemma Q_lookup_decimal_match (comparator : string) (lookup : Lookup) (d stored : QArith_base.Q) :
  In comparator ["="; ">"; ">="; "<"; "<="] ->
  dict_get DECIMAL_LOOKUPS comparator = Some lookup ->
  Q_lookup lookup stored d = decimal_match comparator d stored.
Proof.
  intros Hc Hl. unfold decimal_match. simpl in Hc.
  destruct Hc as [<-|[<-|[<-|[<-|[<-|[]]]]]]; simpl in Hl; injection Hl as <-;
    cbn [String.eqb Ascii.eqb Bool.eqb Q_lookup];
    rewrite ?Qeq_bool_compare, ?(Qle_bool_compare stored d), ?(Qge_bool_compare stored d);
    destruct (QArith_base.Qcompare stored d); reflexivity.
Qed.

(** A condition on a decimal field compares the stored numbers with the
    number that the literal spells, by the order of the numbers; a
    literal that spells no number raises [Can't convert], naming the
    literal.  A literal that [Decimal] reads as a value that is not a
    number (NaN, Infinity) is compiled too, and the comparison with it
    is the database's.  (The empty literal with [=] is set apart: it is
    the test for a missing value.) *)
Theorem decimal_condition_compares_numbers
        (prop comparator value : string) (field : ContactField) :
  prop <> IMPLICIT_PROP ->
  dict_get prop_map prop = Some (PROP_FIELD field) ->
  value_type field = TYPE_DECIMAL ->
  In comparator ["="; ">"; ">="; "<"; "<="] ->
  ~ (comparator = "=" /\ value = "") ->
  match Decimal value with
  | Some (Finite d) =>
      exists q,
        as_query (Condition prop comparator value) org prop_map = inr q
        /\ forall st c,
             eval_Q st q c = has_decimal_value st c field (decimal_match comparator d)
  | Some (NotFinite compares) =>
      exists q lookup,
        as_query (Condition prop comparator value) org prop_map = inr q
        /\ dict_get DECIMAL_LOOKUPS comparator = Some lookup
        /\ forall st c, eval_Q st q c = has_decimal_value st c field (compares lookup)
  | None =>
      as_query (Condition prop comparator value) org prop_map
      = inl (SearchException ("Can't convert '" ++ value ++ "' to a decimal"))
  end.
Proof.
  intros Hprop Hget Htype Hcmp Hvalue.
  apply String.eqb_neq in Hprop.
  assert (Habs : andb (Py.str_in (Py.lower comparator) ["="; "is"]) (String.eqb value "")
                 = false).
  { destruct (String.eqb value "") eqn:Hv; [|apply andb_false_r].
    apply String.eqb_eq in Hv. rewrite andb_true_r. simpl in Hcmp.
    destruct Hcmp as [<-|[<-|[<-|[<-|[<-|[]]]]]]; try reflexivity.
    exfalso. apply Hvalue. now split. }
  assert (Hq : as_query (Condition prop comparator value) org prop_map
               = (params <- _build_decimal_field_params comparator value field ;;
                  ret (Q_id__in_values (VQ_kwargs params)))).
  { cbn [as_query]. unfold Condition_as_query, prop_map_get.
    rewrite Hprop, Hget. cbn [bind ret]. rewrite Habs.
    unfold _build_value_query, build_value_query_params. now rewrite Htype. }
  rewrite Hq. clear Hq. unfold _build_decimal_field_params.
  assert (Hl : exists lookup, dict_get DECIMAL_LOOKUPS comparator = Some lookup).
  { simpl in Hcmp. destruct Hcmp as [<-|[<-|[<-|[<-|[<-|[]]]]]]; eexists; reflexivity. }
  destruct Hl as [lookup Hl]. rewrite Hl.
  destruct (Decimal value) as [[d|compares]|]; [| |reflexivity]; cbn [bind ret].
  - eexists. split; [reflexivity|].
    intros st c. cbn [eval_Q eval_VQ]. unfold has_decimal_value.
    apply existsb_pointwise. intros row. f_equal. cbn [forallb eval_param]. f_equal.
    rewrite andb_true_r. destruct (decimal_value row) as [stored|]; [|reflexivity].
    cbn [on_some Decimal_lookup].
    exact (Q_lookup_decimal_match comparator lookup d stored Hcmp Hl).
  - exists (Q_id__in_values (VQ_kwargs [kw_contact_field field;
                                        kw_decimal_value lookup (NotFinite compares)])), lookup.
    split; [reflexivity|]. split; [reflexivity|].
    intros st c. cbn [eval_Q eval_VQ]. unfold has_decimal_value.
    apply existsb_pointwise. intros row. f_equal. cbn [forallb eval_param]. f_equal.
    rewrite andb_true_r. destruct (decimal_value row) as [stored|]; reflexivity.
Qed.

End Comparators.

(** The theorem at [name > 5]. *)
Lemma unaccepted_comparator_raises_witness :
  as_query (ext := Example.externals) (Condition "name" ">" "5") Example.org
           [("name", PROP_ATTRIBUTE "name")]
  = inl (SearchException ("Unsupported comparator " ++ ">" ++ " for "
                          ++ kind_name (PROP_ATTRIBUTE "name"))).
Proof.
  apply (unaccepted_comparator_raises
           (ext := Example.externals) Example.org [("name", PROP_ATTRIBUTE "name")]
           "name" ">" "5" (PROP_ATTRIBUTE "name")).
  - discriminate.
  - reflexivity.
  - simpl. auto.
  - simpl. intuition discriminate.
  - exact I.
Defined.

(** The theorem at [age > 7], with the externals of the examples. *)
Lemma decimal_condition_compares_numbers_witness :
  exists q,
    as_query (ext := Example.externals) (Condition "age" ">" "7") Example.org
             [("age", PROP_FIELD Example.age)] = inr q
    /\ forall st c,
         eval_Q st q c
         = has_decimal_value st c Example.age (decimal_match ">" (QArith_base.Qmake 7 1)).
Proof.
  apply (decimal_condition_compares_numbers
           (ext := Example.externals) Example.org [("age", PROP_FIELD Example.age)]
           "age" ">" "7" Example.age).
  - discriminate.
  - reflexivity.
  - reflexivity.
  - simpl. auto.
  - intros [H _]. discriminate H.
Defined.

(** ** Optimization and the property map *)

Section OptimizedResolution.

Local Open Scope list_scope.

Lemma check_resolved_get (items : dict (option PropEntry)) (prop_map : dict PropEntry) :
  check_resolved items = inr prop_map ->
  forall p, dict_get prop_map p = match dict_get items p with
                                  | Some (Some entry) => Some entry
                                  | _ => None
                                  end.
Proof.
  revert prop_map. induction items as [|[k [v|]] r IH]; intros prop_map; cbn [check_resolved].
  - intros H. injection H as <-. reflexivity.
  - destruct (check_resolved r) as [e|d]; cbn [bind ret]; [discriminate|].
    intros H. injection H as <-. intros p. simpl.
    destruct (String.eqb p k); [reflexivity|]. exact (IH d eq_refl p).
  - discriminate.
Qed.

Lemma check_resolved_unresolved (items : dict (option PropEntry)) (p : string) :
  In (p, None) items -> exists e, check_resolved items = inl e.
Proof.
  induction items as [|[k [v|]] r IH]; [intros []| |]; cbn [check_resolved].
  - intros [Heq|Hin]; [discriminate Heq|].
    destruct (IH Hin) as [e ->]. cbn [bind]. eauto.
  - intros _. eauto.
Qed.

Lemma get_prop_map_get (org : Org) (root : QueryNode) (prop_map : dict PropEntry) :
  get_prop_map org root = inr prop_map ->
  forall p, dict_get prop_map p
            = if andb (Py.str_in p (get_prop_names root)) (negb (String.eqb p IMPLICIT_PROP))
              then resolution org p else None.
Proof.
  unfold get_prop_map. intros H p.
  rewrite (check_resolved_get _ _ H p), resolved_get.
  destruct (andb _ _) eqn:Hp; [|reflexivity].
  destruct (resolution org p) eqn:Hres; [reflexivity|].
  exfalso.
  assert (Hin : In (p, None)
                   (resolve_schemes
                      (resolve_attributes
                         (resolve_fields org (initial_prop_map (get_prop_names root)))))).
  { apply dict_get_Some_In. rewrite resolved_get, Hp, Hres. reflexivity. }
  destruct (check_resolved_unresolved _ p Hin) as [e He]. congruence.
Qed.

Lemma get_prop_map_unresolved (org : Org) (root : QueryNode) (e : exn) :
  get_prop_map org root = inl e ->
  exists p, In p (get_prop_names root) /\ p <> IMPLICIT_PROP /\ resolution org p = None.
Proof.
  unfold get_prop_map. intros H.
  destruct (check_resolved_inl _ _ H) as [p [Hin _]].
  apply (dict_get_In _ _ _ (resolved_NoDup org (get_prop_names root))) in Hin.
  rewrite resolved_get in Hin.
  destruct (Py.str_in p (get_prop_names root)) eqn:Hnames; [|discriminate].
  destruct (String.eqb p IMPLICIT_PROP) eqn:Hp; [discriminate|].
  injection Hin as Hres. exists p. repeat split.
  - now apply str_in_In.
  - now apply String.eqb_neq.
  - exact Hres.
Qed.

Lemma get_prop_map_raises (org : Org) (root : QueryNode) (p : string) :
  In p (get_prop_names root) -> p <> IMPLICIT_PROP -> resolution org p = None ->
  exists e, get_prop_map org root = inl e.
Proof.
  intros Hin Hp Hres. unfold get_prop_map. apply (check_resolved_unresolved _ p).
  apply dict_get_Some_In. rewrite resolved_get.
  apply str_in_In in Hin. apply String.eqb_neq in Hp. now rewrite Hin, Hp, Hres.
Qed.

Lemma str_in_Permutation (p : string) (l l' : list string) :
  Permutation l l' -> Py.str_in p l = Py.str_in p l'.
Proof.
  intros H. apply eq_true_iff_eq. rewrite !str_in_In.
  split; apply Permutation_in; [exact H|exact (Permutation_sym H)].
Qed.

(** Optimization does not change the resolution of the properties: the
    property map of the optimized query exists when that of the query
    does, and maps every name to the same entry; otherwise both raise
    for a property that resolves to nothing. *)
Theorem optimized_resolves_alike (org : Org) (root : QueryNode) :
  match get_prop_map org root, get_prop_map org (optimized root) with
  | inr prop_map, inr prop_map' => forall p, dict_get prop_map p = dict_get prop_map' p
  | inl e, inl e' =>
      (exists p, e = SearchException ("Unrecognized field: " ++ p))
      /\ (exists p', e' = SearchException ("Unrecognized field: " ++ p'))
  | _, _ => False
  end.
Proof.
  pose proof (get_prop_names_optimized root) as Hperm.
  destruct (get_prop_map org root) as [e|prop_map] eqn:H,
           (get_prop_map org (optimized root)) as [e'|prop_map'] eqn:H'.
  - unfold get_prop_map in H, H'.
    destruct (check_resolved_inl _ _ H) as [p [_ ->]].
    destruct (check_resolved_inl _ _ H') as [p' [_ ->]]. eauto.
  - destruct (get_prop_map_unresolved _ _ _ H) as [p [Hin [Hp Hres]]].
    destruct (get_prop_map_raises org (optimized root) p) as [e' He']; auto; [|congruence].
    exact (Permutation_in p (Permutation_sym Hperm) Hin).
  - destruct (get_prop_map_unresolved _ _ _ H') as [p [Hin [Hp Hres]]].
    destruct (get_prop_map_raises org root p) as [e He]; auto; [|congruence].
    exact (Permutation_in p Hperm Hin).
  - intros p. rewrite (get_prop_map_get _ _ _ H p), (get_prop_map_get _ _ _ H' p).
    now rewrite (str_in_Permutation p _ _ Hperm).
Qed.

End OptimizedResolution.

(** ** The tokens of the lexer *)

Section Tokens.






End Tokens.


(** ** What a combination selects *)

Section Combinations.

Context {ext : Externals}.
Variable org : Org.
Variable prop_map : dict PropEntry.

Local Open Scope list_scope.

(** [BoolCombination.as_query] compiles the children from left to right
    and raises the first exception among them, or the [TypeError] of
    [reduce] when there is no child; the predicate it returns selects
    the contacts that all the children's predicates select under AND,
    that some child's predicate selects under OR. *)
Theorem combination_selects (op : BoolOp) (children : list QueryNode) :
  match as_query (BoolCombination op children) org prop_map with
  | inr q =>
      exists qs,
        mapM (fun child => as_query child org prop_map) children = inr qs
        /\ qs <> []
        /\ forall st c, eval_Q st q c = eval_all op st c qs
  | inl e =>
      (children = []
       /\ e = TypeError "reduce() of empty sequence with no initial value")
      \/ exists before child after,
           children = before ++ child :: after
           /\ as_query child org prop_map = inl e
           /\ exists qs, mapM (fun c => as_query c org prop_map) before = inr qs
  end.
Proof.
  rewrite as_query_BoolCombination.
  destruct (mapM (fun child => as_query child org prop_map) children) as [e|qs] eqn:Hm;
    cbn [bind].
  - right. clear op. revert e Hm.
    induction children as [|child r IH]; intros e; [discriminate|]. cbn [mapM].
    destruct (as_query child org prop_map) as [e'|q] eqn:Hq; cbn [bind].
    + intros H. injection H as <-. exists [], child, r. repeat split; auto.
      exists []. reflexivity.
    + destruct (mapM (fun child => as_query child org prop_map) r) as [e'|qs];
        cbn [bind ret]; [|discriminate].
      intros H. injection H as ->.
      destruct (IH e eq_refl) as [before [child' [after [-> [He [qs Hqs]]]]]].
      exists (child :: before), child', after. repeat split; auto.
      exists (q :: qs). cbn [mapM]. now rewrite Hq, Hqs.
  - destruct qs as [|q qs]; cbn [reduce].
    + left. split; [|reflexivity].
      destruct children as [|child r]; [reflexivity|].
      exfalso. exact (mapM_nonempty _ (child :: r) [] ltac:(discriminate) Hm eq_refl).
    + exists (q :: qs). repeat split; [discriminate|]. intros st c. apply eval_fold.
Qed.

End Combinations.
(** ** The round trip through the rendering *)

Section RoundTrip.

Local Open Scope string_scope.

(** One step of the parsing loop, in hypothesis [H]. *)
Ltac step_run H Hfuel fuel :=
  destruct fuel as [|fuel]; [simpl in Hfuel; lia|];
  cbn [run defaulted top_state option_map type value action reduce_production
       push_expression push_literal goto_expression goto_literal] in H.

(** A text that starts with a word and parses to one condition is the
    word alone, or the word, a comparator and a literal. *)
Lemma run_from_text (tp : LexToken) (ts : list LexToken) (lexerr : option exn)
      (n : QueryNode) (fuel : nat) :
  type tp = TEXT -> Forall token_ok ts ->
  (3 * List.length (tp :: ts) + 2 <= fuel)%nat ->
  run fuel [] (tp :: ts) lexerr = Some (inr n) ->
  isinstance_Condition n = true ->
  (ts = [] /\ n = Condition_init IMPLICIT_PROP "=" (value tp))
  \/ exists tc tl,
       ts = [tc; tl] /\ type tc = COMPARATOR /\ (type tl = TEXT \/ type tl = STRING)
       /\ n = Condition_init (Py.lower (value tp)) (Py.lower (value tc)) (value tl).
Proof.
  destruct tp as [typ p]. cbn [type value]. intros -> Htoks Hfuel Hrun Hcond.
  assert (Hnot : forall f first t toks e,
             Forall token_ok (t :: toks) ->
             run f [(St_expr, V_expression first)] (t :: toks) e = Some (inr n) -> False).
  { intros f first t toks e Hok H. apply run_continued in H; [|exact Hok]. congruence. }
  step_run Hrun Hfuel fuel.
  destruct ts as [|[tyc c] ts].
  - left. split; [reflexivity|].
    destruct lexerr as [e|]; step_run Hrun Hfuel fuel; [discriminate Hrun|].
    step_run Hrun Hfuel fuel. now injection Hrun as <-.
  - right. destruct tyc; step_run Hrun Hfuel fuel;
      try (exfalso; exact (Hnot _ _ _ _ _ Htoks Hrun)); try discriminate Hrun.
    inversion Htoks as [|? ? _ Htoks']; subst.
    destruct ts as [|[tyl l] ts].
    + destruct lexerr; step_run Hrun Hfuel fuel; discriminate Hrun.
    + inversion Htoks' as [|? ? _ Htoks'']; subst.
      destruct tyl; step_run Hrun Hfuel fuel; try discriminate Hrun;
        step_run Hrun Hfuel fuel; step_run Hrun Hfuel fuel;
        (destruct ts as [|t ts];
         [destruct lexerr as [e|]; step_run Hrun Hfuel fuel; [discriminate Hrun|];
          injection Hrun as <-; eexists; eexists; repeat split; auto
         |exfalso; exact (Hnot _ _ _ _ _ Htoks'' Hrun)]).
Qed.

Lemma star_cls_append (p : ascii -> bool) (s m r : string) :
  star_cls p s = (m, r) -> s = (m ++ r)%string.
Proof.
  revert m r. induction s as [|c s IH]; intros m r; simpl.
  - intros H. injection H as <- <-. reflexivity.
  - destruct (p c).
    + destruct (star_cls p s) as [m' r'] eqn:E. intros H. injection H as <- <-.
      simpl. now rewrite (IH m' r' eq_refl).
    + intros H. injection H as <- <-. reflexivity.
Qed.

Lemma length_append (s1 s2 : string) :
  String.length (s1 ++ s2)%string = (String.length s1 + String.length s2)%nat.
Proof. induction s1 as [|c s1 IH]; simpl; [reflexivity|]. now rewrite IH. Qed.

Lemma t_TEXT_not_STRING (m : string) : type (t_TEXT m) <> STRING.
Proof.
  unfold t_TEXT, reserved. cbn [type dict_get].
  repeat match goal with
         | |- context [String.eqb ?a ?b] => destruct (String.eqb a b)
         end; discriminate.
Qed.

(** A STRING token takes its value and the two quotes from the text. *)
Lemma token_STRING_length (s : string) (t : LexToken) (r : string) :
  token s = inr (Some (t, r)) -> type t = STRING ->
  (String.length (value t) + 2 + String.length r <= String.length s)%nat.
Proof.
  unfold token. pose proof (skip_ignore_length s) as Hs.
  destruct (skip_ignore s) as [|c s'] eqn:E; [discriminate|].
  destruct (re_COMPARATOR (String c s')) as [[m r']|] eqn:E1.
  { intros H. injection H as <- <-. discriminate. }
  destruct (re_STRING (String c s')) as [[m r']|] eqn:E2.
  { intros H _. injection H as <- <-.
    unfold re_STRING, seq, lit, star in E2. cbn [cls] in E2.
    destruct (Ascii.eqb dquote c); [|discriminate].
    destruct (star_cls is_not_quote s') as [body rest] eqn:Hbody.
    apply star_cls_append in Hbody.
    destruct rest as [|x rest]; [discriminate|]. cbn [cls] in E2.
    destruct (Ascii.eqb dquote x); [|discriminate].
    injection E2 as <- <-. unfold t_STRING. cbn [value strip_quotes append].
    rewrite drop_last_snoc. simpl in Hs. rewrite Hbody, length_append in Hs. simpl in Hs. lia. }
  destruct (re_TEXT (String c s')) as [[m r']|] eqn:E3.
  { intros H Hty. injection H as <- <-. exfalso. exact (t_TEXT_not_STRING m Hty). }
  destruct (re_LPAREN (String c s')) as [[m r']|] eqn:E4.
  { intros H. injection H as <- <-. discriminate. }
  destruct (re_RPAREN (String c s')) as [[m r']|] eqn:E5.
  { intros H. injection H as <- <-. discriminate. }
  discriminate.
Qed.

Lemma canonical_ends_run (c rest : string) :
  In c CANONICAL_COMPARATORS -> ends_run (c ++ rest) = true.
Proof.
  intros Hc. simpl in Hc. destruct Hc as [<-|[<-|[<-|[<-|[<-|[<-|[]]]]]]]; reflexivity.
Qed.

Lemma canonical_length (c : string) :
  In c CANONICAL_COMPARATORS -> (String.length c <= 2)%nat.
Proof.
  intros Hc. simpl in Hc. destruct Hc as [<-|[<-|[<-|[<-|[<-|[<-|[]]]]]]]; simpl; lia.
Qed.

(** The rendering of a condition on a plain property parses back to
    the condition only when the literal is a plain word. *)
Lemma plain_literal_needed (p c v : string) :
  plain_word p = true -> In c CANONICAL_COMPARATORS ->
  parse (p ++ c ++ v) = Some (inr (Condition p c v)) ->
  plain_word v = true.
Proof.
  intros Hp Hc. pose proof Hp as Hrun. unfold plain_word in Hrun.
  apply andb_true_iff in Hrun as [Hrun _].
  unfold parse.
  rewrite tokenize_eq, (token_run p _ Hrun (canonical_ends_run c v Hc)), (t_TEXT_plain p Hp).
  destruct (tokenize (c ++ v)) as [[ts e]|] eqn:Hts; [|discriminate].
  intros Hparse.
  assert (Hok : Forall token_ok ts) by exact (tokens_from_ok _ _ _ _ Hts).
  unfold parse_tokens in Hparse.
  destruct (run_from_text {| type := TEXT; value := p |} ts e _ _ eq_refl Hok (le_n _) Hparse eq_refl)
    as [[_ Heq]|[tc [tl [-> [Htc [Htl Heq]]]]]].
  - unfold Condition_init in Heq. injection Heq as Heq _ _. subst p. discriminate Hp.
  - unfold Condition_init in Heq. injection Heq as _ _ Hv. cbn [value] in Hv.
    rewrite tokenize_eq in Hts.
    destruct (token (c ++ v)) as [e'|[[t1 r1]|]] eqn:Ht1; try discriminate Hts.
    destruct (tokenize r1) as [[ts1 e1]|] eqn:Hts1; [|discriminate Hts].
    injection Hts as -> -> ->.
    rewrite tokenize_eq in Hts1.
    destruct (token r1) as [e'|[[t2 r2]|]] eqn:Ht2; try discriminate Hts1.
    destruct (tokenize r2) as [[ts2 e2]|]; [|discriminate Hts1].
    injection Hts1 as -> _ _.
    destruct Htl as [Htl|Htl].
    + destruct (token_token_ok _ _ _ Ht2) as [_ Hplain]. rewrite Hv. now apply Hplain.
    + exfalso. pose proof (token_STRING_length _ _ _ Ht2 Htl) as Hlen.
      pose proof (token_consumes _ _ _ Ht1) as Hlen1.
      rewrite length_append in Hlen1. pose proof (canonical_length c Hc). rewrite Hv in Hlen1.
      lia.
Qed.

Lemma str_BoolCombination (op : BoolOp) (children : list QueryNode) :
  str (BoolCombination op children)
  = (parts <- mapM str children ;;
     ret (op_name op ++ "(" ++ Py.join ", " parts ++ ")")%string).
Proof.
  cbn [str]. f_equal.
  induction children as [|c r IH]; [reflexivity|]. cbn [mapM]. now rewrite IH.
Qed.

Lemma str_parsed_shape (n : QueryNode) :
  parsed_shape n = true -> exists rendered, str n = inr rendered.
Proof.
  induction n as [p c v|op children IH|prop op children IH] using QueryNode_tree_ind;
    intros Hshape; [eexists; reflexivity| |discriminate Hshape].
  rewrite str_BoolCombination.
  cbn [parsed_shape] in Hshape. apply andb_true_iff in Hshape as [_ Hall].
  assert (Hparts : exists parts, mapM str children = inr parts).
  { induction IH as [|c r Hc Hr IHr]; [eexists; reflexivity|].
    cbn [forallb] in Hall. apply andb_true_iff in Hall as [H1 H2].
    destruct (Hc H1) as [s Hs]. destruct (IHr H2) as [parts Hp].
    cbn [mapM]. rewrite Hs, Hp. eexists. reflexivity. }
  destruct Hparts as [parts ->]. eexists. reflexivity.
Qed.

Lemma parse_operator_first (op : BoolOp) (rest : string) :
  exists e, parse (op_name op ++ "(" ++ rest) = Some (inl e).
Proof.
  unfold parse. rewrite tokenize_eq.
  assert (Ht : exists t, token (op_name op ++ "(" ++ rest) = inr (Some (t, "(" ++ rest))
                         /\ (type t = T_AND \/ type t = T_OR)).
  { destruct op.
    - exists {| type := T_AND; value := "AND" |}. split; [|now left].
      exact (token_run "AND" ("(" ++ rest) eq_refl eq_refl).
    - exists {| type := T_OR; value := "OR" |}. split; [|now right].
      exact (token_run "OR" ("(" ++ rest) eq_refl eq_refl). }
  destruct Ht as [t [-> Hty]].
  destruct (tokenize_total ("(" ++ rest)) as [ts [e ->]].
  unfold parse_tokens.
  destruct (3 * List.length (t :: ts) + 2)%nat as [|fuel] eqn:Hf; [simpl in Hf; lia|].
  cbn [run defaulted top_state option_map].
  destruct Hty as [-> | ->]; eexists; reflexivity.
Qed.

Lemma parse_star_first (rest : string) :
  exists e, parse ("*" ++ rest) = Some (inl e).
Proof.
  unfold parse. rewrite tokenize_eq.
  change (token ("*" ++ rest)) with (@inl exn (option (LexToken * string)) (t_error ("*" ++ rest))).
  eexists. reflexivity.
Qed.

Lemma plain_word_not_implicit (p : string) : plain_word p = true -> String.eqb p IMPLICIT_PROP = false.
Proof.
  intros Hp. destruct (String.eqb p IMPLICIT_PROP) eqn:E; [|reflexivity].
  apply String.eqb_eq in E. subst p. discriminate Hp.
Qed.

(** C9, amended: for a text that parses, the rendering of the tree
    parses back to the tree exactly when the tree is one condition on
    an explicit property whose literal is a word of text characters that
    is not reserved, however the text wrote it (between quotes or not,
    with spaces, between parentheses).  The text is ASCII: there the
    word characters and the letter case of the model are those of the
    lexer. *)
Theorem round_trip_exactly_for_plain_conditions (text : string) (tree : QueryNode) :
  ascii_text text = true ->
  parse text = Some (inr tree) ->
  exists rendered,
    str tree = inr rendered
    /\ (parse rendered = Some (inr tree) <-> plain_condition tree = true).
Proof.
  intros _ Hparse.
  pose proof (parse_parsed_shape text tree Hparse) as Hshape.
  pose proof (parse_props_plain text tree Hparse) as Hplain.
  pose proof (parse_canonical text tree Hparse) as Hcanon.
  destruct tree as [p c v|op children|prop op children]; [| |discriminate Hshape].
  - exists (p ++ c ++ v). split; [reflexivity|].
    cbn [props_plain canonical plain_condition] in *. apply str_in_In in Hcanon.
    apply orb_true_iff in Hplain as [Himplicit|Hp].
    + rewrite Himplicit. apply String.eqb_eq in Himplicit. subst p.
      destruct (parse_star_first (c ++ v)) as [e He].
      change (IMPLICIT_PROP ++ c ++ v) with ("*" ++ c ++ v). rewrite He.
      split; discriminate.
    + apply andb_true_iff in Hp as [Hp Hlow]. apply String.eqb_eq in Hlow.
      rewrite (plain_word_not_implicit p Hp). cbn [negb andb]. split.
      * exact (plain_literal_needed p c v Hp Hcanon).
      * intros Hv. unfold parse. rewrite (tokenize_rendered_condition p c v Hp Hcanon Hv).
        change (parse_tokens [ {| type := TEXT; value := p |};
                               {| type := COMPARATOR; value := c |};
                               {| type := TEXT; value := v |} ] None)
          with (Some (inr (A := exn) (Condition_init (Py.lower p) (Py.lower c) v))).
        now rewrite (Condition_init_comparator _ c v Hcanon), Hlow.
  - destruct (str_parsed_shape _ Hshape) as [rendered Hstr]. exists rendered.
    split; [exact Hstr|].
    rewrite str_BoolCombination in Hstr.
    destruct (mapM str children) as [e|parts]; [discriminate Hstr|].
    cbn [bind ret] in Hstr. injection Hstr as <-.
    destruct (parse_operator_first op (Py.join ", " parts ++ ")")) as [e He].
    cbn [append] in He |- *. rewrite He. cbn [plain_condition]. split; discriminate.
Qed.

End RoundTrip.

(** The theorem at a text that writes the condition between
    parentheses, with a quoted literal. *)
Lemma round_trip_exactly_for_plain_conditions_witness :
  exists rendered,
    str (Condition "name" "=" "bob") = inr rendered
    /\ (parse rendered = Some (inr (Condition "name" "=" "bob"))
        <-> plain_condition (Condition "name" "=" "bob") = true).
Proof.
  apply (round_trip_exactly_for_plain_conditions ("( Name IS " ++ quoted "bob" ++ " )")).
  - reflexivity.
  - reflexivity.
Defined.
